(** * XeroxYT-NT: the XRAI recommendation engines, the stream
      endpoint and the pages

    A shallow embedding of the two recommendation engines of the
    repository, of the keyword/profile/ranking helpers they share, of
    the stream endpoint and of the computations of the pages:

    - [xrai.ts] (second half of [src/unnamed/part_000]):
      [extractKeywords], [buildUserProfile], [parseUploadedAt],
      [rankVideos];
    - the profile-rank engine (first half of [src/unnamed/part_000]):
      [getXraiRecommendations] and [getLegacyRecommendations],
      modelled in [Module ProfileRank];
    - the ratio-mix engine (second half of [src/api/stream.js]):
      [shuffleArray], [cleanTitleForSearch], [getXraiRecommendations],
      [getXraiShorts], modelled in [Module RatioMix];
    - the stream endpoint (first half of [src/api/stream.js]):
      [handler], modelled in [Module StreamApi];
    - the watch page ([src/pages/VideoPlayerPage.tsx] and its earlier
      version [src/unnamed/part_001]): the order of a playlist, its
      shuffle, the source of the player, the two toggles, modelled in
      [Module PlayerPage];
    - the header ([src/components/Header.tsx]): [handleSearch],
      modelled in [Module Header];
    - the video card ([src/components/VideoCard.tsx]): the line under
      the title, modelled in [Module VideoCard];
    - the channel page ([src/unnamed/part_002]): [loadInitialDetails],
      [fetchTabData], the effect on the active tab, [handleLoadMore],
      modelled in [Module ChannelPage].

    The rest of the pages is state and markup of React and is not
    modelled.

    Conventions of the embedding.

    - A JavaScript string is the list of its UTF-16 code units.
    - A JavaScript number is an exact rational ([Q]), without the
      rounding of IEEE doubles, except where rounding decides what
      the code does: the penalty of the ratio-mix filters, compared
      with a threshold, is a binary64 value ([double]) with the
      addition and the comparison of IEEE 754, and the integers read
      by [parseInt] are those of the code up to 2^53.  [NaN] is
      [None] where the code tests for it.  [Math.exp] and
      [Math.log10] are parameters.
    - The Unicode tables behind [toLowerCase] and the property classes
      of a [/u] regular expression are a parameter ([Unicode]) with
      the laws the proofs use; [basic_unicode] is the instance for
      ASCII and Japanese text.
    - [Math.random] is an explicit sequence of draws with a cursor;
      the sort by a random comparison of the watch page is an order
      of the host's choosing.
    - A promise is its outcome: [Fulfilled v] or [Rejected].
    - The handler of the endpoint and the event handlers of the pages
      are the list of what they do, in order; the file system, the
      child process, [JSON.parse] and the printing of numbers are a
      parameter ([StreamApi.Host]). *)

From Stdlib Require Import ZArith NArith QArith Qround Lqa Lia.
From Stdlib Require Import String Ascii.
From Stdlib Require Import SpecFloat.
From stdpp Require Import base option list gmap sorting.

#[local] Set Warnings "-clear-no-such-hyp,-level-tolerance".
#[local] Open Scope N_scope.

(** ** JavaScript strings *)

Abbreviation jsstring := (list N).

(** Source literals are written as Rocq strings (UTF-8 bytes) and
    decoded to UTF-16 code units. *)
Fixpoint utf8_points (bs : list N) : list N :=
  match bs with
  | [] => []
  | b0 :: r =>
    if b0 <? 0x80 then b0 :: utf8_points r
    else if b0 <? 0xE0 then
      match r with
      | b1 :: r1 => ((b0 - 0xC0) * 0x40 + (b1 - 0x80)) :: utf8_points r1
      | [] => []
      end
    else if b0 <? 0xF0 then
      match r with
      | b1 :: b2 :: r2 =>
        ((b0 - 0xE0) * 0x1000 + (b1 - 0x80) * 0x40 + (b2 - 0x80))
          :: utf8_points r2
      | _ => []
      end
    else
      match r with
      | b1 :: b2 :: b3 :: r3 =>
        ((b0 - 0xF0) * 0x40000 + (b1 - 0x80) * 0x1000
         + (b2 - 0x80) * 0x40 + (b3 - 0x80)) :: utf8_points r3
      | _ => []
      end
  end.

Definition is_high (u : N) : bool := (0xD800 <=? u) && (u <=? 0xDBFF).
Definition is_low (u : N) : bool := (0xDC00 <=? u) && (u <=? 0xDFFF).
Definition is_surrogate (u : N) : bool := (0xD800 <=? u) && (u <=? 0xDFFF).

(** The code point of a surrogate pair. *)
Definition code_point (h l : N) : N :=
  0x10000 + (h - 0xD800) * 0x400 + (l - 0xDC00).

Definition units_of_point (c : N) : jsstring :=
  if c <? 0x10000 then [c]
  else [0xD800 + (c - 0x10000) / 0x400; 0xDC00 + (c - 0x10000) mod 0x400].

Definition utf16 (s : string) : jsstring :=
  flat_map units_of_point
    (utf8_points (List.map N_of_ascii (list_ascii_of_string s))).

Definition SPACE : N := 0x20.

(** [s.length > 1] *)
Definition longer_than_1 (s : jsstring) : bool :=
  match s with _ :: _ :: _ => true | _ => false end.

Definition jseqb (a b : jsstring) : bool := bool_decide (a = b).

(** [String.prototype.includes] (and [startsWith] as its helper). *)
Fixpoint startsWith (s needle : jsstring) : bool :=
  match needle, s with
  | [], _ => true
  | _ :: _, [] => false
  | n :: needle', u :: s' => (n =? u) && startsWith s' needle'
  end.

Fixpoint includes (s needle : jsstring) : bool :=
  startsWith s needle ||
  match s with
  | [] => false
  | _ :: s' => includes s' needle
  end.

(** [\d] *)
Definition is_digit (u : N) : bool := (0x30 <=? u) && (u <=? 0x39).

(** [\s]: WhiteSpace and LineTerminator of ECMA-262. *)
Definition is_js_space (u : N) : bool :=
  ((0x09 <=? u) && (u <=? 0x0D)) || (u =? 0x20) || (u =? 0xA0)
  || (u =? 0x1680) || ((0x2000 <=? u) && (u <=? 0x200A))
  || (u =? 0x2028) || (u =? 0x2029) || (u =? 0x202F) || (u =? 0x205F)
  || (u =? 0x3000) || (u =? 0xFEFF).

(** [s.split(/\s+/)]: the pieces between maximal runs of white space,
    an empty piece before a leading run and after a trailing one.
    [sep] says that the previous unit was white space. *)
Fixpoint split_go (acc : jsstring) (sep : bool) (s : jsstring)
  : list jsstring :=
  match s with
  | [] => [rev acc]
  | u :: s' =>
    if is_js_space u then
      if sep then split_go [] true s'
      else rev acc :: split_go [] true s'
    else split_go (u :: acc) false s'
  end.

Definition split_ws (s : jsstring) : list jsstring := split_go [] false s.

(** [words.join(' ')] *)
Fixpoint join_space (ws : list jsstring) : jsstring :=
  match ws with
  | [] => []
  | [w] => w
  | w :: ws' => w ++ SPACE :: join_space ws'
  end.

(** [/^\d+$/.test(word)] *)
Definition all_digits (w : jsstring) : bool :=
  match w with [] => false | _ => forallb is_digit w end.

(** [Array.from(new Set(xs))]: the first occurrence of each element,
    in order. *)
Fixpoint dedupe_go (seen : list jsstring) (xs : list jsstring)
  : list jsstring :=
  match xs with
  | [] => []
  | x :: xs' =>
    if existsb (jseqb x) seen then dedupe_go seen xs'
    else x :: dedupe_go (x :: seen) xs'
  end.

Definition dedupe (xs : list jsstring) : list jsstring := dedupe_go [] xs.

(** The value of a run of decimal digits, most significant first. *)
Definition digits_value (ds : jsstring) : N :=
  fold_left (fun acc d => 10 * acc + (d - 0x30)) ds 0.

(** [text.match(/(\d+)/)]: the first maximal run of digits. *)
Fixpoint take_digits (s : jsstring) : jsstring :=
  match s with
  | u :: s' => if is_digit u then u :: take_digits s' else []
  | [] => []
  end.

Fixpoint match_digits (s : jsstring) : option jsstring :=
  match s with
  | [] => None
  | u :: s' => if is_digit u then Some (take_digits s) else match_digits s'
  end.

(** [parseInt(s, 10)]: leading white space, an optional sign, then the
    longest prefix of digits; [None] is [NaN].  The result is the
    integer the digits denote; the number of the code is this integer
    rounded to a double, which is the same up to 2^53. *)
Fixpoint skip_space (s : jsstring) : jsstring :=
  match s with
  | u :: s' => if is_js_space u then skip_space s' else s
  | [] => []
  end.

Definition parseInt (s : jsstring) : option Z :=
  let t := skip_space s in
  let '(neg, t) :=
    match t with
    | u :: t' =>
      if u =? 0x2D then (true, t')
      else if u =? 0x2B then (false, t')
      else (false, t)
    | [] => (false, t)
    end in
  match take_digits t with
  | [] => None
  | ds => Some (if neg : bool then Z.opp (Z.of_N (digits_value ds))
                else Z.of_N (digits_value ds))
  end.

(** ** The Unicode tables

    [toLowerCase] follows the Unicode case mappings and the class
    [[\p{S}\p{P}\p{Z}\p{C}]] follows the general categories; neither
    table is part of the repository.  They are taken as a parameter,
    with the facts about them that the proofs rely on. *)

Definition ascii_lower (u : N) : N :=
  if (0x41 <=? u) && (u <=? 0x5A) then u + 0x20 else u.

Definition is_ascii_alnum (u : N) : bool :=
  is_digit u || ((0x41 <=? u) && (u <=? 0x5A))
  || ((0x61 <=? u) && (u <=? 0x7A)).

(** ASCII, Hiragana and Katakana letters, CJK unified ideographs. *)
Definition is_basic (u : N) : bool :=
  (u <? 0x80) || ((0x3041 <=? u) && (u <=? 0x3096))
  || ((0x30A1 <=? u) && (u <=? 0x30FA))
  || ((0x4E00 <=? u) && (u <=? 0x9FA5)).

(** No surrogate pair forms where [a] and [b] meet. *)
Definition no_pair_between (a b : jsstring) : Prop :=
  forall h l, last a = Some h -> head b = Some l ->
    is_high h && is_low l = false.

Class Unicode : Type := {
  (** [String.prototype.toLowerCase] *)
  toLowerCase : jsstring -> jsstring;
  (** the general category of a code point is S, P, Z or C *)
  is_SPZC : N -> bool;
  (** Lower-casing is idempotent: the code points it produces are
      lower case, and it leaves those alone. *)
  lower_idem : forall s, toLowerCase (toLowerCase s) = toLowerCase s;
  (** A string that lower-casing leaves alone holds no capital; so
      neither do its parts (a surrogate cut from its pair is left
      alone as well). *)
  lower_split : forall a b,
    toLowerCase (a ++ b) = a ++ b ->
    toLowerCase a = a /\ toLowerCase b = b;
  (** Nor does the concatenation of two such strings, when no
      surrogate pair forms where they meet. *)
  lower_cat : forall a b,
    toLowerCase a = a -> toLowerCase b = b -> no_pair_between a b ->
    toLowerCase (a ++ b) = a ++ b;
  (** The one mapping that looks at its context, that of the final
      sigma, looks at the cased letters around it; a space is neither
      cased nor ignorable, and pairs with no surrogate. *)
  lower_space : forall a b,
    toLowerCase (a ++ SPACE :: b) = toLowerCase a ++ SPACE :: toLowerCase b;
  (** On ASCII and Japanese text only A-Z change. *)
  lower_basic : forall s,
    forallb is_basic s = true -> toLowerCase s = List.map ascii_lower s;
  (** A lone surrogate has category Cs. *)
  spzc_surrogate : forall c, is_surrogate c = true -> is_SPZC c = true;
  (** ASCII: letters and digits are L and N, all else is C, Z, P or S. *)
  spzc_ascii : forall c, c < 0x80 -> is_SPZC c = negb (is_ascii_alnum c);
  (** White space has category Zs, Zl, Zp, Cc or Cf. *)
  spzc_space : forall c, is_js_space c = true -> is_SPZC c = true
}.

(** The tables restricted to ASCII and Japanese text: every unit
    outside ASCII is an uncased letter, except white space,
    surrogates and the CJK punctuation block. *)
Definition basic_toLowerCase (s : jsstring) : jsstring :=
  List.map ascii_lower s.

Definition basic_is_SPZC (c : N) : bool :=
  if c <? 0x80 then negb (is_ascii_alnum c)
  else is_js_space c || is_surrogate c
       || ((0x3000 <=? c) && (c <=? 0x303F)) || (c =? 0x30FB).

(** ** Keyword extraction ([xrai.ts]) *)

Definition JAPANESE_STOP_WORDS : list jsstring := Eval vm_compute in
  List.map utf16
    ["の"; "に"; "は"; "を"; "が"; "で"; "です"; "ます"; "こと"; "もの";
     "これ"; "それ"; "あれ"; "いる"; "する"; "ある"; "ない"; "から";
     "まで"; "と"; "も"; "や"; "など"; "さん"; "ちゃん"]%string.

Definition ENGLISH_STOP_WORDS : list jsstring := Eval vm_compute in
  List.map utf16
    ["a"; "an"; "the"; "is"; "are"; "was"; "were"; "in"; "on"; "at";
     "to"; "for"; "of"; "it"; "you"; "he"; "she"; "they"; "we"; "i";
     "and"; "or"; "but"; "by"; "with"]%string.

(** [.replace(/[\p{S}\p{P}\p{Z}\p{C}]/gu, ' ')]: with the [u] flag a
    surrogate pair is one code point, a lone surrogate is its own. *)
Fixpoint replace_class `{Unicode} (s : jsstring) : jsstring :=
  match s with
  | [] => []
  | h :: t =>
    match t with
    | l :: t' =>
      if is_high h && is_low l then
        if is_SPZC (code_point h l) then SPACE :: replace_class t'
        else h :: l :: replace_class t'
      else (if is_SPZC h then SPACE else h) :: replace_class t
    | [] => [if is_SPZC h then SPACE else h]
    end
  end.

(** [.replace(/[\[\]\(\)【】『』「」・、。!?#]/g, ' ')] *)
Definition is_bracket (u : N) : bool :=
  existsb (N.eqb u)
    [0x5B; 0x5D; 0x28; 0x29; 0x3010; 0x3011; 0x300E; 0x300F; 0x300C;
     0x300D; 0x30FB; 0x3001; 0x3002; 0x21; 0x3F; 0x23].

Definition replace_brackets (s : jsstring) : jsstring :=
  List.map (fun u => if is_bracket u then SPACE else u) s.

Definition is_stop_word (w : jsstring) : bool :=
  existsb (jseqb w) JAPANESE_STOP_WORDS
  || existsb (jseqb w) ENGLISH_STOP_WORDS.

Definition is_keyword (w : jsstring) : bool :=
  if is_stop_word w then false
  else if all_digits w then false
  else true.

Definition extractKeywords `{Unicode} (text : jsstring) : list jsstring :=
  match text with
  | [] => []
  | _ =>
    let cleanedText := replace_brackets (replace_class (toLowerCase text)) in
    let words := List.filter longer_than_1 (split_ws cleanedText) in
    let keywords := List.filter is_keyword words in
    dedupe keywords
  end.

(** ** Data model ([types.ts] is not among the sources; the fields are
    those the engines read) *)

Record Video : Type := {
  id : jsstring;
  title : jsstring;
  channelId : jsstring;
  channelName : jsstring;
  views : jsstring;
  uploadedAt : jsstring;
  duration : jsstring;
  isoDuration : option jsstring;
  descriptionSnippet : option jsstring
}.

#[export] Instance Video_eq_dec : EqDecision Video.
Proof. solve_decision. Defined.

Record Channel : Type := {
  ch_id : jsstring;
  name : jsstring
}.

(** [x || ''] on an optional string *)
Definition or_empty (o : option jsstring) : jsstring := default [] o.

(** ** Maps with insertion order ([Map<string, number>]) *)

Abbreviation JsMap := (list (jsstring * Q)).

Fixpoint map_get (k : jsstring) (m : JsMap) : option Q :=
  match m with
  | [] => None
  | (k', v) :: m' => if jseqb k k' then Some v else map_get k m'
  end.

(** [m.set(k, v)]: an existing key keeps its place. *)
Fixpoint map_set (k : jsstring) (v : Q) (m : JsMap) : JsMap :=
  match m with
  | [] => [(k, v)]
  | (k', v') :: m' =>
    if jseqb k k' then (k, v) :: m' else (k', v') :: map_set k v m'
  end.

(** [x || 0] on the result of [get]: [undefined] and [0] give [0]. *)
Definition or_zero (o : option Q) : Q := default 0%Q o.

(** ** Numbers *)

(** [a > b] *)
Definition Qgt_bool (a b : Q) : bool := negb (Qle_bool a b).

(** [xs.slice(0, n)] for a number [n >= 0] *)
Definition slice0 {A : Type} (n : Q) (xs : list A) : list A :=
  take (Z.to_nat (Qfloor n)) xs.

(** [Math.floor] *)
Definition Math_floor (x : Q) : Q := inject_Z (Qfloor x).

(** [Math.max(a, b)] *)
Definition Math_max (a b : Q) : Q := if Qle_bool a b then b else a.

(** ** Numbers in double precision

    The penalty of the ratio-mix filters is compared with a threshold
    that rounding can decide, so the numbers of that computation are
    the binary64 values of IEEE 754, with the addition and the
    comparison of the standard. *)
Definition double : Type := spec_float.

(** the number of an integer literal *)
Definition double_of_Z (z : Z) : double := binary_normalize 53 1024 z 0 false.

(** [n / d] for two integer literals: the double nearest to the
    fraction, which is the number of its decimal literal ([6 / 10] is
    [0.6]) *)
Definition double_div (n d : Z) : double :=
  SFdiv 53 1024 (double_of_Z n) (double_of_Z d).

(** [a + b] *)
Definition double_add (a b : double) : double := SFadd 53 1024 a b.

(** [a > b]; false when one of them is [NaN] *)
Definition double_gt (a b : double) : bool := SFltb b a.

(** [x || 0] on the result of [get]: [undefined], [0], [-0] and [NaN]
    give [0]. *)
Definition double_or_zero (o : option double) : double :=
  match o with
  | Some (S754_finite s m e) => S754_finite s m e
  | Some (S754_infinity s) => S754_infinity s
  | _ => S754_zero false
  end.

(** [Math.exp] and [Math.log10] are the host's. *)
Class MathLib : Type := {
  Math_exp : Q -> Q;
  Math_log10 : Q -> Q;
  (** they are functions of the number, not of its fraction *)
  Math_exp_compat : Proper (Qeq ==> Qeq) Math_exp;
  Math_log10_compat : Proper (Qeq ==> Qeq) Math_log10
}.
#[export] Existing Instance Math_exp_compat.
#[export] Existing Instance Math_log10_compat.

(** ** The user profile ([xrai.ts]) *)

Record UserProfile : Type := { keywords : JsMap }.

Record UserSources : Type := {
  us_watchHistory : list Video;
  us_searchHistory : list jsstring;
  us_subscribedChannels : list Channel
}.

Section Profile.
Context `{Unicode} `{MathLib}.

(** [addKeywords(text, weight)] on the map under construction *)
Definition addKeywords (text : jsstring) (weight : Q) (kws : JsMap)
  : JsMap :=
  fold_left
    (fun m kw => map_set kw (or_zero (map_get kw m) + weight)%Q m)
    (extractKeywords text) kws.

Definition search_weight (index : nat) : Q :=
  (3 * Math_exp (- inject_Z (Z.of_nat index) / 5))%Q.

Definition watch_weight (index : nat) : Q :=
  (2 * Math_exp (- inject_Z (Z.of_nat index) / 10))%Q.

(** [searchHistory.forEach((term, index) => ...)] from [index] on *)
Fixpoint add_searches (index : nat) (terms : list jsstring) (m : JsMap)
  : JsMap :=
  match terms with
  | [] => m
  | term :: terms' =>
    add_searches (S index) terms' (addKeywords term (search_weight index) m)
  end.

Definition add_video (index : nat) (video : Video) (m : JsMap) : JsMap :=
  let weight := watch_weight index in
  let m := addKeywords (title video) weight m in
  let m := addKeywords (channelName video) (weight * (8 # 10))%Q m in
  addKeywords (or_empty (descriptionSnippet video)) (weight * (5 # 10))%Q m.

Fixpoint add_watched (index : nat) (vs : list Video) (m : JsMap)
  : JsMap :=
  match vs with
  | [] => m
  | video :: vs' => add_watched (S index) vs' (add_video index video m)
  end.

Definition add_subscriptions (cs : list Channel) (m : JsMap) : JsMap :=
  fold_left (fun m channel => addKeywords (name channel) (15 # 10)%Q m)
            cs m.

Definition buildUserProfile (sources : UserSources) : UserProfile :=
  let m := add_searches 0 (us_searchHistory sources) [] in
  let m := add_watched 0 (us_watchHistory sources) m in
  let m := add_subscriptions (us_subscribedChannels sources) m in
  {| keywords := m |}.
End Profile.

(** ** Scoring and ranking ([xrai.ts]) *)

Definition s_minutes : jsstring := Eval vm_compute in utf16 "分前".
Definition s_hours : jsstring := Eval vm_compute in utf16 "時間前".
Definition s_days : jsstring := Eval vm_compute in utf16 "日前".
Definition s_weeks : jsstring := Eval vm_compute in utf16 "週間前".
Definition s_months : jsstring := Eval vm_compute in utf16 "か月前".
Definition s_years : jsstring := Eval vm_compute in utf16 "年前".

Definition parseUploadedAt `{Unicode} (uploadedAt : jsstring) : Z :=
  match uploadedAt with
  | [] => 999
  | _ =>
    let text := toLowerCase uploadedAt in
    let num :=
      match match_digits text with
      | Some ds => default 0%Z (parseInt ds)
      | None => 0%Z
      end in
    if includes text s_minutes || includes text s_hours then 0
    else if includes text s_days then num
    else if includes text s_weeks then num * 7
    else if includes text s_months then num * 30
    else if includes text s_years then num * 365
    else 999
  end%Z.

Record ScoringContext : Type := {
  ngKeywords : list jsstring;
  ngChannels : list jsstring;
  watchHistory : list Video
}.

Record Scored : Type := { video : Video; score : Q }.

(** [xs.sort((a, b) => key(b) - key(a))]: descending and stable. *)
Fixpoint insert_desc {A : Type} (key : A -> Q) (x : A) (l : list A)
  : list A :=
  match l with
  | [] => [x]
  | y :: l' =>
    if Qle_bool (key y) (key x) then x :: y :: l'
    else y :: insert_desc key x l'
  end.

Definition sort_desc {A : Type} (key : A -> Q) (l : list A) : list A :=
  foldr (insert_desc key) [] l.

Definition MAX_FROM_SAME_CHANNEL : nat := 3.

Section Ranking.
Context `{Unicode} `{MathLib}.

Definition fullText (v : Video) : jsstring :=
  toLowerCase
    (title v ++ SPACE :: channelName v
       ++ SPACE :: or_empty (descriptionSnippet v)).

Definition relevanceScore (profile : UserProfile) (v : Video) : Q :=
  fold_left
    (fun acc kw =>
       match map_get kw (keywords profile) with
       | Some w => (acc + w)%Q
       | None => acc
       end)
    (dedupe (extractKeywords (fullText v))) 0%Q.

(** [parseInt(video.views.replace(/[^0-9]/g, ''), 10)] *)
Definition parsed_views (v : Video) : option Z :=
  parseInt (List.filter is_digit (views v)).

Definition popularityScore (v : Video) : Q :=
  match parsed_views v with
  | Some n => Math_log10 (inject_Z n + 1)%Q
  | None => 0%Q
  end.

Definition freshness_of_days (daysAgo : Z) : Q :=
  (Math_max 0 (1 - inject_Z daysAgo / 60) * 5)%Q.

Definition freshnessScore (v : Video) : Q :=
  freshness_of_days (parseUploadedAt (uploadedAt v)).

Definition finalScore (profile : UserProfile) (v : Video) : Q :=
  (relevanceScore profile v * (15 # 10) + popularityScore v * (3 # 10)
   + freshnessScore v * 1)%Q.

(** The first loop of [rankVideos]: filter, score, remember the id. *)
Fixpoint score_loop (profile : UserProfile) (context : ScoringContext)
    (seenIds : gset jsstring) (videos : list Video) : list Scored :=
  match videos with
  | [] => []
  | v :: videos' =>
    if bool_decide (id v = []) || bool_decide (id v ∈ seenIds) then
      score_loop profile context seenIds videos'
    else if existsb (fun ng => includes (fullText v) (toLowerCase ng))
                    (ngKeywords context) then
      score_loop profile context seenIds videos'
    else if existsb (jseqb (channelId v)) (ngChannels context) then
      score_loop profile context seenIds videos'
    else
      {| video := v; score := finalScore profile v |}
        :: score_loop profile context ({[ id v ]} ∪ seenIds) videos'
  end.

(** The diversity pass. *)
Fixpoint diversity_loop (channelCount : gmap jsstring nat)
    (scored : list Scored) : list Video :=
  match scored with
  | [] => []
  | s :: scored' =>
    let count := default 0%nat (channelCount !! channelId (video s)) in
    if (count <? MAX_FROM_SAME_CHANNEL)%nat then
      video s
        :: diversity_loop
             (<[ channelId (video s) := S count ]> channelCount) scored'
    else diversity_loop channelCount scored'
  end.

Definition rankVideos (videos : list Video) (profile : UserProfile)
    (context : ScoringContext) : list Video :=
  let seenIds : gset jsstring :=
    list_to_set (List.map id (watchHistory context)) in
  let scoredVideos := score_loop profile context seenIds videos in
  diversity_loop ∅ (sort_desc score scoredVideos).
End Ranking.

(** ** Promises, the random source, the catalog service *)

(** A settled promise. *)
Inductive outcome (A : Type) : Type :=
| Fulfilled (value : A)
| Rejected.
Arguments Fulfilled {A} value.
Arguments Rejected {A}.

(** [p.then(f)] *)
Definition then_ {A B : Type} (p : outcome A) (f : A -> B) : outcome B :=
  match p with
  | Fulfilled a => Fulfilled (f a)
  | Rejected => Rejected
  end.

(** [p.catch(() => h)] *)
Definition catch_ {A : Type} (p : outcome A) (h : A) : outcome A :=
  match p with
  | Fulfilled a => Fulfilled a
  | Rejected => Fulfilled h
  end.

(** [await p; k]: a rejected [p] rejects the [async] function. *)
Definition await {A B : Type} (p : outcome A) (k : A -> outcome B)
  : outcome B :=
  match p with
  | Fulfilled a => k a
  | Rejected => Rejected
  end.

Notation "'let_await' x := p 'in' k" := (await p (fun x => k))
  (at level 10, x name, p at level 100, k at level 200).

(** [Promise.all(ps)]: rejected as soon as one of [ps] is. *)
Fixpoint Promise_all {A : Type} (ps : list (outcome A))
  : outcome (list A) :=
  match ps with
  | [] => Fulfilled []
  | p :: ps' =>
    let_await a := p in
    let_await rest := Promise_all ps' in
    Fulfilled (a :: rest)
  end.

(** [Promise.allSettled(ps)]: never rejected; one result per promise,
    its status and value being the promise's outcome. *)
Definition Promise_allSettled {A : Type} (ps : list (outcome A))
  : outcome (list (outcome A)) :=
  Fulfilled ps.

(** [try { body } catch { handler }] around an [await]. *)
Definition try_catch {A : Type} (body handler : outcome A) : outcome A :=
  match body with
  | Fulfilled a => Fulfilled a
  | Rejected => handler
  end.

(** [[a[i], a[j]] = [a[j], a[i]]] *)
Definition swap {A : Type} (i j : nat) (a : list A) : list A :=
  match a !! i, a !! j with
  | Some x, Some y => <[ j := x ]> (<[ i := y ]> a)
  | _, _ => a
  end.

(** [shuffleArray]: the [k]-th call of [Math.random] is the draw
    [rnd k], and [Math.floor(Math.random() * (i + 1))] is
    [rnd k mod (i + 1)], any index from [0] to [i].  The loop runs
    from [i = length - 1] down to [1]; the result comes with the next
    cursor. *)
Fixpoint shuffle_loop {A : Type} (rnd : nat -> nat) (k i : nat)
    (a : list A) : list A * nat :=
  match i with
  | O => (a, k)
  | S i' =>
    let j := (rnd k mod (i + 1))%nat in
    shuffle_loop rnd (S k) i' (swap i j a)
  end.

Definition shuffleArray {A : Type} (rnd : nat -> nat) (k : nat)
    (array : list A) : list A * nat :=
  shuffle_loop rnd k (length array - 1)%nat array.

(** What [api.ts] (not among the sources) gives the engines. *)
Record SearchResponse : Type := {
  sr_videos : list Video;
  sr_shorts : list Video
}.

Record VideoDetails : Type := { relatedVideos : option (list Video) }.

Record VideoList : Type := { vl_videos : list Video }.

Class Catalog : Type := {
  searchVideos : jsstring -> jsstring -> outcome SearchResponse;
  getVideoDetails : jsstring -> outcome VideoDetails;
  getChannelVideos : jsstring -> outcome VideoList;
  getRecommendedVideos : outcome VideoList;
  (** seconds of an ISO-8601 or a clock duration *)
  parseDuration : option jsstring -> jsstring -> Q
}.

Definition s_page1 : jsstring := Eval vm_compute in utf16 "1".

(** ** The profile-rank engine (first half of [src/unnamed/part_000]) *)

Module ProfileRank.

Record RecommendationSource : Type := {
  rs_searchHistory : list jsstring;
  rs_watchHistory : list Video;
  rs_subscribedChannels : list Channel;
  rs_preferredGenres : list jsstring;
  rs_preferredChannels : list jsstring;
  rs_ngKeywords : list jsstring;
  rs_ngChannels : list jsstring;
  rs_page : Q
}.

Section Engine.
Context `{Unicode} `{MathLib} `{Catalog}.
Variable rnd : nat -> nat.

Definition userProfile (sources : RecommendationSource) : UserProfile :=
  buildUserProfile
    {| us_watchHistory := rs_watchHistory sources;
       us_searchHistory := rs_searchHistory sources;
       us_subscribedChannels := rs_subscribedChannels sources |}.

(** Source A: the related videos of up to three recent videos. *)
Definition related_call (v : Video) : outcome (list Video) :=
  catch_
    (then_ (getVideoDetails (id v))
           (fun details => take 15 (default [] (relatedVideos details))))
    [].

(** Source B: one search per keyword. *)
Definition search_call (keyword : jsstring) : outcome (list Video) :=
  catch_
    (then_ (searchVideos keyword s_page1)
           (fun res => take 10 (sr_videos res)))
    [].

(** Source C: the recent videos of a subscribed channel. *)
Definition channel_call (sub : Channel) : outcome (list Video) :=
  catch_
    (then_ (getChannelVideos (ch_id sub))
           (fun res => take 5 (vl_videos res)))
    [].

(** Source D: the general recommendations. *)
Definition fallback_call : outcome (list Video) :=
  catch_
    (then_ getRecommendedVideos (fun res => take 20 (vl_videos res)))
    [].

Definition recentVideos (k : nat) (sources : RecommendationSource)
  : list Video * nat :=
  match rs_watchHistory sources with
  | [] => ([], k)
  | _ =>
    let '(shuffled, k') :=
      shuffleArray rnd k (take 5 (rs_watchHistory sources)) in
    (take 3 shuffled, k')
  end.

Definition topKeywords (sources : RecommendationSource)
  : list jsstring :=
  List.map fst
    (take 3 (sort_desc snd (keywords (userProfile sources)))).

Definition randomSubs (k : nat) (sources : RecommendationSource)
  : list Channel * nat :=
  match rs_subscribedChannels sources with
  | [] => ([], k)
  | _ =>
    let '(shuffled, k') :=
      shuffleArray rnd k (rs_subscribedChannels sources) in
    (take 5 shuffled, k')
  end.

(** The fan-out: the promises in the order they are pushed. *)
Definition candidatePromises (k : nat) (sources : RecommendationSource)
  : list (outcome (list Video)) :=
  let '(recent, k) := recentVideos k sources in
  let a := List.map related_call recent in
  let b := List.map search_call (topKeywords sources) in
  let '(subs, k) := randomSubs k sources in
  let c := List.map channel_call subs in
  let promises := a ++ b ++ c in
  if (length promises <? 3)%nat then promises ++ [fallback_call]
  else promises.

(** The fan-in: the values of the fulfilled results, concatenated. *)
Definition collect (results : list (outcome (list Video)))
  : list Video :=
  flat_map
    (fun result =>
       match result with
       | Fulfilled value => value
       | Rejected => []
       end)
    results.

Definition scoringContext (sources : RecommendationSource)
  : ScoringContext :=
  {| ngKeywords := rs_ngKeywords sources;
     ngChannels := rs_ngChannels sources;
     watchHistory := rs_watchHistory sources |}.

Definition getXraiRecommendations (k : nat)
    (sources : RecommendationSource) : outcome (list Video) :=
  let_await results :=
    Promise_allSettled (candidatePromises k sources) in
  let allCandidates := collect results in
  let rankedVideos :=
    rankVideos allCandidates (userProfile sources)
               (scoringContext sources) in
  Fulfilled (take 50 rankedVideos).

(** The legacy engine: the recommended feed as it is. *)
Definition getLegacyRecommendations : outcome (list Video) :=
  try_catch
    (let_await res := getRecommendedVideos in Fulfilled (vl_videos res))
    (Fulfilled []).
End Engine.

End ProfileRank.

(** ** The ratio-mix engine (second half of [src/api/stream.js]) *)

Module RatioMix.

(** [PreferenceContext] is not among the sources; the engine reads
    the [id] of a blocked channel and of a hidden video. *)
Record BlockedChannel : Type := { bc_id : jsstring }.
Record HiddenVideo : Type := { hv_id : jsstring }.

Record RecommendationSource : Type := {
  rs_searchHistory : list jsstring;
  rs_watchHistory : list Video;
  rs_shortsHistory : option (list Video);
  rs_subscribedChannels : list Channel;
  rs_ngKeywords : list jsstring;
  rs_ngChannels : list BlockedChannel;
  rs_hiddenVideos : list HiddenVideo;
  rs_negativeKeywords : gmap jsstring double;
  rs_page : Q
}.

(** [cleanTitleForSearch] *)
Definition is_line_terminator (u : N) : bool :=
  (u =? 0x0A) || (u =? 0x0D) || (u =? 0x2028) || (u =? 0x2029).

(** the rest of [s] after the first [close], no line end before it *)
Fixpoint after_close (close : N) (s : jsstring) : option jsstring :=
  match s with
  | [] => None
  | u :: s' =>
    if u =? close then Some s'
    else if is_line_terminator u then None
    else after_close close s'
  end.

Definition closing (u : N) : option N :=
  if u =? 0x3010 then Some 0x3011
  else if u =? 0x5B then Some 0x5D
  else if u =? 0x28 then Some 0x29
  else None.

(** [.replace(/【.*?】|\[.*?\]|\(.*?\)/g, '')] *)
Fixpoint strip_bracketed (fuel : nat) (s : jsstring) : jsstring :=
  match fuel, s with
  | S fuel', u :: s' =>
    match closing u with
    | Some close =>
      match after_close close s' with
      | Some rest => strip_bracketed fuel' rest
      | None => u :: strip_bracketed fuel' s'
      end
    | None => u :: strip_bracketed fuel' s'
    end
  | _, _ => s
  end.

Definition trim (s : jsstring) : jsstring :=
  rev (skip_space (rev (skip_space s))).

(** [.split(' ')] *)
Fixpoint split_space_go (acc : jsstring) (s : jsstring)
  : list jsstring :=
  match s with
  | [] => [rev acc]
  | u :: s' =>
    if u =? SPACE then rev acc :: split_space_go [] s'
    else split_space_go (u :: acc) s'
  end.

Definition cleanTitleForSearch (title : jsstring) : jsstring :=
  join_space
    (take 4 (split_space_go [] (trim (strip_bracketed (length title) title)))).

Definition s_related : jsstring := Eval vm_compute in utf16 " related".
Definition s_videos : jsstring := Eval vm_compute in utf16 " videos".
Definition s_shorts : jsstring := Eval vm_compute in utf16 " #shorts".
Definition s_hash_shorts : jsstring := Eval vm_compute in utf16 "#shorts".
Definition fallback_seeds : list jsstring := Eval vm_compute in
  List.map utf16 ["Music"; "Gaming"; "Vlog"]%string.
Definition shorts_fallback_seeds : list jsstring := Eval vm_compute in
  List.map utf16 ["Funny #shorts"; "Gaming #shorts"]%string.

Section Engine.
Context `{Unicode} `{Catalog}.
Variable rnd : nat -> nat.

(** The negative score of a candidate: the weights of the keywords
    of its title, then of its channel name, added one after the other
    in double precision. *)
Definition negativeScore (negativeKeywords : gmap jsstring double)
    (v : Video) : double :=
  let vKeywords :=
    extractKeywords (title v) ++ extractKeywords (channelName v) in
  fold_left
    (fun negativeScore k =>
       if bool_decide (is_Some (negativeKeywords !! k))
       then double_add negativeScore (double_or_zero (negativeKeywords !! k))
       else negativeScore)
    vKeywords (double_of_Z 0).

Definition fullText (v : Video) : jsstring :=
  toLowerCase (title v ++ SPACE :: channelName v).

Definition has_ngKeyword (ngKeywords : list jsstring) (v : Video)
  : bool :=
  existsb (fun ng => includes (fullText v) (toLowerCase ng)) ngKeywords.

Definition ngChannelIds (sources : RecommendationSource)
  : gset jsstring :=
  list_to_set (List.map bc_id (rs_ngChannels sources)).

Definition hiddenVideoIdsSet (sources : RecommendationSource)
  : gset jsstring :=
  list_to_set (List.map hv_id (rs_hiddenVideos sources)).

(** *** The main feed *)

(** [filterAndDedupe] of [getXraiRecommendations]: the callback of
    [videos.filter] and the set [seenIds] it updates. *)
Fixpoint filterAndDedupe (sources : RecommendationSource)
    (seenIds : gset jsstring) (videos : list Video)
  : list Video * gset jsstring :=
  match videos with
  | [] => ([], seenIds)
  | v :: videos' =>
    if bool_decide (id v ∈ seenIds) then
      filterAndDedupe sources seenIds videos'
    else
      let seenIds := {[ id v ]} ∪ seenIds in
      let '(rest, seenIds') := filterAndDedupe sources seenIds videos' in
      if has_ngKeyword (rs_ngKeywords sources) v then (rest, seenIds')
      else if bool_decide (channelId v ∈ ngChannelIds sources)
      then (rest, seenIds')
      else if double_gt (negativeScore (rs_negativeKeywords sources) v)
                (double_of_Z 2)
      then (rest, seenIds')
      else (v :: rest, seenIds')
  end.

Definition personalizedSeeds (k : nat) (sources : RecommendationSource)
  : list jsstring * nat :=
  match rs_watchHistory sources, rs_subscribedChannels sources with
  | _ :: _, _ =>
    let '(shuffled, k') := shuffleArray rnd k (rs_watchHistory sources) in
    (List.map (fun v => cleanTitleForSearch (title v) ++ s_related)
              (take 5 shuffled), k')
  | [], _ :: _ =>
    let '(shuffled, k') :=
      shuffleArray rnd k (rs_subscribedChannels sources) in
    (List.map (fun c => name c ++ s_videos) (take 3 shuffled), k')
  | [], [] => (fallback_seeds, k)
  end.

Definition search_call (query : jsstring) : outcome (list Video) :=
  catch_ (then_ (searchVideos query s_page1) sr_videos) [].

Definition trending_call : outcome (list Video) :=
  catch_ (then_ getRecommendedVideos vl_videos) [].

Definition TARGET_COUNT : Q := 50.
Definition TRENDING_RATIO : Q := 40 # 100.

(** Steps 3 and 4 of [getXraiRecommendations], after the awaits:
    filter both pools, mix them by the ratio, shuffle. *)
Definition mix_feed (k : nat) (sources : RecommendationSource)
    (trendingVideos personalizedCandidates : list Video) : list Video :=
  let seenIds := hiddenVideoIdsSet sources in
  let '(cleanTrending, seenIds) :=
    filterAndDedupe sources seenIds trendingVideos in
  let '(cleanPersonalized, seenIds) :=
    filterAndDedupe sources seenIds personalizedCandidates in
  let numTrending := Math_floor (TARGET_COUNT * TRENDING_RATIO) in
  let numPersonalized := (TARGET_COUNT - numTrending)%Q in
  let '(shuffledTrending, k) := shuffleArray rnd k cleanTrending in
  let finalTrending := slice0 numTrending shuffledTrending in
  let '(shuffledPersonalized, k) := shuffleArray rnd k cleanPersonalized in
  let finalPersonalized := slice0 numPersonalized shuffledPersonalized in
  let finalFeed := finalTrending ++ finalPersonalized in
  (shuffleArray rnd k finalFeed).1.

Definition getXraiRecommendations (k : nat)
    (sources : RecommendationSource) : outcome (list Video) :=
  let '(seeds, k) := personalizedSeeds k sources in
  let searchPromises := List.map search_call seeds in
  let_await personalizedResults := Promise_all searchPromises in
  let personalizedCandidates := concat personalizedResults in
  let_await trendingVideos := trending_call in
  Fulfilled (mix_feed k sources trendingVideos personalizedCandidates).

(** *** The short-form feed *)

Definition isShortVideo (v : Video) : bool :=
  let seconds := parseDuration (isoDuration v) (duration v) in
  (Qgt_bool seconds 0 && Qle_bool seconds 60)
  || includes (toLowerCase (title v)) s_hash_shorts.

Definition historyIds (sources : RecommendationSource)
  : gset jsstring :=
  list_to_set (List.map id (default [] (rs_shortsHistory sources))).

(** [filterAndDedupe] of [getXraiShorts] *)
Fixpoint shorts_filterAndDedupe (sources : RecommendationSource)
    (seenIds : gset jsstring) (videos : list Video)
  : list Video * gset jsstring :=
  match videos with
  | [] => ([], seenIds)
  | v :: videos' =>
    if bool_decide (id v ∈ historyIds sources)
       || bool_decide (id v ∈ hiddenVideoIdsSet sources)
       || bool_decide (id v ∈ seenIds)
    then shorts_filterAndDedupe sources seenIds videos'
    else if has_ngKeyword (rs_ngKeywords sources) v
    then shorts_filterAndDedupe sources seenIds videos'
    else if bool_decide (channelId v ∈ ngChannelIds sources)
    then shorts_filterAndDedupe sources seenIds videos'
    else if double_gt (negativeScore (rs_negativeKeywords sources) v)
              (double_of_Z 2)
    then shorts_filterAndDedupe sources seenIds videos'
    else
      let '(rest, seenIds') :=
        shorts_filterAndDedupe sources ({[ id v ]} ∪ seenIds) videos' in
      (v :: rest, seenIds')
  end.

Definition popular_call : outcome (list Video) :=
  catch_
    (then_ getRecommendedVideos
           (fun res => List.filter isShortVideo (vl_videos res)))
    [].

Definition shorts_seeds (k : nat) (sources : RecommendationSource)
  : list jsstring * nat :=
  let from history :=
    let '(shuffled, k') := shuffleArray rnd k history in
    (List.map (fun v : Video => cleanTitleForSearch (title v) ++ s_shorts)
              (take 4 shuffled), k') in
  match rs_shortsHistory sources, rs_watchHistory sources with
  | Some (v :: vs), _ => from (v :: vs)
  | _, _ :: _ => from (rs_watchHistory sources)
  | _, [] => (shorts_fallback_seeds, k)
  end.

Definition shorts_search_call (query : jsstring)
  : outcome (list Video) :=
  catch_
    (then_ (searchVideos query s_page1)
           (fun res =>
              List.filter isShortVideo (sr_videos res ++ sr_shorts res)))
    [].

Definition SHORTS_TARGET_COUNT : Q := 40.
Definition POPULAR_RATIO : Q := 75 # 100.

(** What [getXraiShorts] does after the awaits: filter both pools,
    mix them by the ratio, shuffle; when nothing is left, fall back on
    the popular shorts not yet in the history. *)
Definition mix_shorts (k : nat) (sources : RecommendationSource)
    (popularShortsRaw personalizedShortsRaw : list Video) : list Video :=
  let '(cleanPopular, seenIds) :=
    shorts_filterAndDedupe sources ∅ popularShortsRaw in
  let '(cleanPersonalized, seenIds) :=
    shorts_filterAndDedupe sources seenIds personalizedShortsRaw in
  let numPopular := Math_floor (SHORTS_TARGET_COUNT * POPULAR_RATIO) in
  let numPersonalized := (SHORTS_TARGET_COUNT - numPopular)%Q in
  let '(shuffledPopular, k) := shuffleArray rnd k cleanPopular in
  let finalPopular := slice0 numPopular shuffledPopular in
  let '(shuffledPersonalized, k) := shuffleArray rnd k cleanPersonalized in
  let finalPersonalized := slice0 numPersonalized shuffledPersonalized in
  let finalFeed := finalPopular ++ finalPersonalized in
  match finalFeed with
  | [] =>
    let unseen :=
      List.filter
        (fun v => negb (bool_decide (id v ∈ historyIds sources)))
        popularShortsRaw in
    take 20 (shuffleArray rnd k unseen).1
  | _ => (shuffleArray rnd k finalFeed).1
  end.

Definition getXraiShorts (k : nat) (sources : RecommendationSource)
  : outcome (list Video) :=
  let popularPromise := popular_call in
  let '(seeds, k) := shorts_seeds k sources in
  let personalizedPromises := List.map shorts_search_call seeds in
  let_await popularShortsRaw := popularPromise in
  let_await personalizedShortsNested := Promise_all personalizedPromises in
  let personalizedShortsRaw := concat personalizedShortsNested in
  Fulfilled (mix_shorts k sources popularShortsRaw personalizedShortsRaw).
End Engine.

End RatioMix.

(** ** Arrays and numbers of the pages and of the endpoint *)

(** [xs.join(sep)] *)
Fixpoint join (sep : jsstring) (xs : list jsstring) : jsstring :=
  match xs with
  | [] => []
  | [x] => x
  | x :: xs' => x ++ sep ++ join sep xs'
  end.

(** [xs.findIndex(p)]; [None] is [-1]. *)
Fixpoint findIndex {A : Type} (p : A -> bool) (xs : list A) : option nat :=
  match xs with
  | [] => None
  | x :: xs' => if p x then Some O else S <$> findIndex p xs'
  end.

(** [Math.round]: to the nearest integer, halves upwards. *)
Definition Math_round (x : Q) : Q := inject_Z (Qfloor (x + (1 # 2))).

(** ** [URLSearchParams]: the list of name-value pairs *)

Abbreviation URLSearchParams := (list (jsstring * jsstring)).

(** [params.get(name)]: the first value of the name; [None] is [null]. *)
Fixpoint usp_get (name : jsstring) (params : URLSearchParams)
  : option jsstring :=
  match params with
  | [] => None
  | (n, v) :: params' => if jseqb n name then Some v else usp_get name params'
  end.

(** [params.delete(name)]: all the pairs of the name go. *)
Definition usp_delete (name : jsstring) (params : URLSearchParams)
  : URLSearchParams :=
  List.filter (fun p => negb (jseqb (fst p) name)) params.

(** [params.set(name, value)]: the first pair of the name takes the
    value and the others go; without one, the pair is appended. *)
Fixpoint usp_set (name value : jsstring) (params : URLSearchParams)
  : URLSearchParams :=
  match params with
  | [] => [(name, value)]
  | (n, v) :: params' =>
    if jseqb n name then (n, value) :: usp_delete name params'
    else (n, v) :: usp_set name value params'
  end.

(** ** [encodeURIComponent] *)

(** The UTF-8 octets of a code point. *)
Definition utf8_of_point (c : N) : list N :=
  if c <? 0x80 then [c]
  else if c <? 0x800 then [0xC0 + c / 0x40; 0x80 + c mod 0x40]
  else if c <? 0x10000 then
    [0xE0 + c / 0x1000; 0x80 + (c / 0x40) mod 0x40; 0x80 + c mod 0x40]
  else
    [0xF0 + c / 0x40000; 0x80 + (c / 0x1000) mod 0x40;
     0x80 + (c / 0x40) mod 0x40; 0x80 + c mod 0x40].

Definition hex_digit (d : N) : N :=
  if d <? 10 then 0x30 + d else 0x41 + (d - 10).

(** [%XX] *)
Definition percent (octet : N) : jsstring :=
  [0x25; hex_digit (octet / 16); hex_digit (octet mod 16)].

(** The characters left as they are: letters, digits and [-_.!~*'()]. *)
Definition is_unreserved (u : N) : bool :=
  is_ascii_alnum u
  || existsb (N.eqb u) [0x2D; 0x5F; 0x2E; 0x21; 0x7E; 0x2A; 0x27; 0x28; 0x29].

(** [None] is the [URIError] thrown at a surrogate outside a pair. *)
Fixpoint encodeURIComponent (s : jsstring) : option jsstring :=
  match s with
  | [] => Some []
  | u :: s' =>
    if is_unreserved u then cons u <$> encodeURIComponent s'
    else if is_low u then None
    else if is_high u then
      match s' with
      | l :: s'' =>
        if is_low l then
          app (flat_map percent (utf8_of_point (code_point u l)))
            <$> encodeURIComponent s''
        else None
      | [] => None
      end
    else app (flat_map percent (utf8_of_point u)) <$> encodeURIComponent s'
  end.

(** ** The stream endpoint (first half of [src/api/stream.js]) *)

Module StreamApi.

(** A property of a parsed JSON object: absent ([undefined]), [null],
    or a value. *)
Inductive field (A : Type) : Type :=
| Absent
| Null
| Value (a : A).
Arguments Absent {A}.
Arguments Null {A}.
Arguments Value {A} a.

(** An entry of [info.formats], with the properties the handler reads;
    yt-dlp writes strings for the first five and numbers for [height]
    and [abr]. *)
Record Format : Type := {
  vcodec : field jsstring;
  acodec : field jsstring;
  ext : field jsstring;
  protocol : field jsstring;
  url : field jsstring;
  format_note : field jsstring;
  height : field Q;
  abr : field Q
}.

(** [x === s] and [x !== s] for a string literal [s] *)
Definition equals (x : field jsstring) (s : jsstring) : bool :=
  match x with
  | Value a => jseqb a s
  | _ => false
  end.

Definition differs (x : field jsstring) (s : jsstring) : bool :=
  negb (equals x s).

(** [x || 0] *)
Definition number_or_0 (x : field Q) : Q :=
  match x with
  | Value q => q
  | _ => 0%Q
  end.

(** [x === n] for a number literal [n] *)
Definition is_number (x : field Q) (n : Q) : bool :=
  match x with
  | Value q => Qeq_bool q n
  | _ => false
  end.

(** What the callback of [execFile] receives: the message of the
    error, if any, and the two outputs. *)
Record ExecResult : Type := {
  error : option jsstring;
  stdout : jsstring;
  stderr : jsstring
}.

(** The [try] block reads [JSON.parse(stdout).formats]; it is left by
    an exception when the output is no JSON or has no array of objects
    there. *)
Inductive Parsed : Type :=
| Info (formats : list Format)
| Thrown (message : jsstring).

(** The file system, the child process and the JSON and number
    primitives of the host. *)
Class Host : Type := {
  (** [path.resolve(process.cwd(), 'yt-dlp_linux')] *)
  ytdlpPath : jsstring;
  (** [path.join(process.cwd(), 'api', 'yt-dlp_linux')] *)
  fallbackPath : jsstring;
  existsSync : jsstring -> bool;
  execFile : jsstring -> list jsstring -> ExecResult;
  JSON_parse_formats : jsstring -> Parsed;
  Number_toString : Q -> jsstring
}.

Definition PROXY_URL : jsstring := Eval vm_compute in
  utf16 "http://ytproxy-siawaseok.duckdns.org:3007".

(** [req.query.videoId]: absent, one value, or several. *)
Inductive QueryValue : Type :=
| Missing
| One (value : jsstring)
| Many (values : list jsstring).

Record Request : Type := {
  method : jsstring;
  query_videoId : QueryValue
}.

Record FormatEntry : Type := {
  quality : jsstring;
  container : field jsstring;
  entry_url : field jsstring
}.

Record Separate : Type := {
  sep_video : FormatEntry;
  sep_audio : option FormatEntry
}.

(** The argument of [res.json], or none for [res.end()]. *)
Inductive Body : Type :=
| NoBody
| Failure (error : jsstring) (details : option jsstring)
| Streams (streamingUrl : field jsstring) (streamType : jsstring)
    (combinedFormats : list FormatEntry)
    (audioOnlyFormat : option FormatEntry)
    (separate1080p : option Separate).

(** What the handler does to the response, the file system and the
    child process, in order; console output is left out. *)
Inductive Event : Type :=
| SetHeader (name value : jsstring)
| ExistsSync (path : jsstring)
| ChmodSync (path : jsstring) (mode : N)
| ExecFile (path : jsstring) (args : list jsstring)
| Respond (status : nat) (body : Body).

Definition s_none : jsstring := Eval vm_compute in utf16 "none".
Definition s_mp4 : jsstring := Eval vm_compute in utf16 "mp4".
Definition s_m4a : jsstring := Eval vm_compute in utf16 "m4a".
Definition s_https : jsstring := Eval vm_compute in utf16 "https".
Definition s_http : jsstring := Eval vm_compute in utf16 "http".
Definition s_OPTIONS : jsstring := Eval vm_compute in utf16 "OPTIONS".
Definition s_comma : jsstring := Eval vm_compute in utf16 ",".
Definition s_watch : jsstring := Eval vm_compute in
  utf16 "https://www.youtube.com/watch?v=".

Definition over_http (f : Format) : bool :=
  equals (protocol f) s_https || equals (protocol f) s_http.

(** The three predicates of the [try] block. *)
Definition isCombined (f : Format) : bool :=
  differs (vcodec f) s_none && differs (acodec f) s_none && equals (ext f) s_mp4
  && over_http f.

Definition isAudioOnly (f : Format) : bool :=
  equals (vcodec f) s_none && differs (acodec f) s_none && over_http f.

Definition isVideo1080p (f : Format) : bool :=
  is_number (height f) 1080 && differs (vcodec f) s_none
  && equals (acodec f) s_none && equals (ext f) s_mp4 && over_http f.

Definition combinedFormats_of (formats : list Format) : list Format :=
  sort_desc (fun f => number_or_0 (height f))
            (List.filter isCombined formats).

Definition audioOnlyFormats_of (formats : list Format) : list Format :=
  sort_desc (fun f => number_or_0 (abr f))
            (List.filter isAudioOnly formats).

(** [audioOnlyFormats.find(f => f.ext === 'm4a') || audioOnlyFormats[0]] *)
Definition bestAudio_of (formats : list Format) : option Format :=
  match List.find (fun f => equals (ext f) s_m4a) (audioOnlyFormats_of formats) with
  | Some f => Some f
  | None => head (audioOnlyFormats_of formats)
  end.

Definition video1080pFormat_of (formats : list Format) : option Format :=
  List.find isVideo1080p formats.

Section Handler.
Context `{Host}.

(** [`${f.height}p`] *)
Definition height_label (f : Format) : jsstring :=
  match height f with
  | Absent => utf16 "undefinedp"
  | Null => utf16 "nullp"
  | Value q => Number_toString q ++ utf16 "p"
  end.

(** [f.format_note || `${f.height}p`] *)
Definition quality_of (f : Format) : jsstring :=
  match format_note f with
  | Value (u :: note) => u :: note
  | _ => height_label f
  end.

(** [`${Math.round(bestAudio.abr || 0)}kbps`] with a suffix *)
Definition kbps (f : Format) (suffix : jsstring) : jsstring :=
  Number_toString (Math_round (number_or_0 (abr f))) ++ suffix.

Definition streams (formats : list Format) : Body :=
  let combinedFormats := combinedFormats_of formats in
  let streamingFormat := head combinedFormats in
  let bestAudio := bestAudio_of formats in
  let video1080pFormat := video1080pFormat_of formats in
  Streams
    match streamingFormat with
    | Some f => url f
    | None => Null
    end
    s_mp4
    (List.map
       (fun f =>
          {| quality := quality_of f; container := ext f;
             entry_url := url f |})
       combinedFormats)
    match bestAudio with
    | Some a =>
      Some {| quality := kbps a (utf16 "kbps"); container := ext a;
              entry_url := url a |}
    | None => None
    end
    match video1080pFormat with
    | Some v =>
      Some
        {| sep_video :=
             {| quality := utf16 "1080p (映像のみ)";
                container := Value s_mp4; entry_url := url v |};
           sep_audio :=
             match bestAudio with
             | Some a =>
               Some {| quality := kbps a (utf16 "kbps (音声のみ)");
                       container := ext a; entry_url := url a |}
             | None => None
             end |}
    | None => None
    end.

(** The callback of [execFile]. *)
Definition on_exit (r : ExecResult) : Event :=
  match error r with
  | Some message =>
    Respond 500
      (Failure (utf16 "動画情報の取得に失敗しました。")
         (Some match stderr r with
               | [] => message
               | text => text
               end))
  | None =>
    match JSON_parse_formats (stdout r) with
    | Info formats => Respond 200 (streams formats)
    | Thrown message =>
      Respond 500
        (Failure (utf16 "データの解析に失敗しました。") (Some message))
    end
  end.

(** [`${videoId}`] when [videoId] is truthy *)
Definition truthy_videoId (q : QueryValue) : option jsstring :=
  match q with
  | Missing => None
  | One [] => None
  | One value => Some value
  | Many values => Some (join s_comma values)
  end.

Definition yt_dlp_args (videoId : jsstring) : list jsstring :=
  [utf16 "--proxy"; PROXY_URL; utf16 "--no-cache-dir"; utf16 "--dump-json";
   s_watch ++ videoId].

(** The mode [0o755]. *)
Definition rwxr_xr_x : N := 0x1ED.

(** From the [chmod] on. *)
Definition run (videoId : jsstring) : list Event :=
  let args := yt_dlp_args videoId in
  [ChmodSync ytdlpPath rwxr_xr_x; ExecFile ytdlpPath args;
   on_exit (execFile ytdlpPath args)].

Definition cors_headers : list Event :=
  [SetHeader (utf16 "Access-Control-Allow-Origin") (utf16 "*");
   SetHeader (utf16 "Access-Control-Allow-Methods") (utf16 "GET, OPTIONS");
   SetHeader (utf16 "Access-Control-Allow-Headers") (utf16 "Content-Type")].

Definition handler (req : Request) : list Event :=
  cors_headers ++
  if jseqb (method req) s_OPTIONS then [Respond 200 NoBody]
  else
    match truthy_videoId (query_videoId req) with
    | None =>
      [Respond 400
         (Failure (utf16 "有効なVideo IDを指定してください。") None)]
    | Some videoId =>
      ExistsSync ytdlpPath ::
      if existsSync ytdlpPath then run videoId
      else
        ExistsSync fallbackPath ::
        if existsSync fallbackPath then run videoId
        else
          [Respond 500
             (Failure
                (utf16 "Server Configuration Error: yt-dlp binary missing.")
                None)]
    end.
End Handler.

End StreamApi.

(** ** The watch page ([src/pages/VideoPlayerPage.tsx], and its earlier
    version in [src/unnamed/part_001]) *)

Module PlayerPage.

(** A playlist, with the fields the page reads. *)
Record Playlist : Type := {
  pl_id : jsstring;
  videoIds : list jsstring
}.

(** [playlists.find(p => p.id === playlistId) || null] *)
Definition currentPlaylist (playlistId : option jsstring)
    (playlists : list Playlist) : option Playlist :=
  match playlistId with
  | None | Some [] => None
  | Some i => List.find (fun p => jseqb (pl_id p) i) playlists
  end.

(** [new Map(fetchedVideos.map(v => [v.id, v]))] *)
Definition videoMap (fetchedVideos : list Video) : gmap jsstring Video :=
  fold_left (fun m v => <[ id v := v ]> m) fetchedVideos ∅.

(** [videoIds.map(id => videoMap.get(id)).filter(v => !!v)] *)
Definition orderedVideos (videoIds : list jsstring)
    (fetchedVideos : list Video) : list Video :=
  omap (fun i => videoMap fetchedVideos !! i) videoIds.

(** [fetchPlaylistVideos]: the value handed to [setPlaylistVideos];
    when the request fails the state is not set. *)
Definition fetchPlaylistVideos
    (getVideosByIds : list jsstring -> outcome (list Video))
    (playlist : option Playlist) : outcome (list Video) :=
  match playlist with
  | Some p =>
    match videoIds p with
    | [] => Fulfilled []
    | _ =>
      let_await fetchedVideos := getVideosByIds (videoIds p) in
      Fulfilled (orderedVideos (videoIds p) fetchedVideos)
    end
  | None => Fulfilled []
  end.

Section Shuffle.
(** [xs.sort(() => Math.random() - 0.5)]: an order of the host's
    choosing. *)
Variable random_sort : list Video -> list Video.

Definition shuffledPlaylistVideos (isShuffle : bool)
    (playlistVideos : list Video) (videoId : option jsstring)
  : list Video :=
  if negb isShuffle || bool_decide (playlistVideos = []) then playlistVideos
  else
    match findIndex (fun v => bool_decide (Some (id v) = videoId))
                    playlistVideos with
    | None => random_sort playlistVideos
    | Some currentIndex =>
      let otherVideos :=
        take currentIndex playlistVideos
        ++ drop (S currentIndex) playlistVideos in
      let shuffledOthers := random_sort otherVideos in
      match playlistVideos !! currentIndex with
      | Some current => current :: shuffledOthers
      | None => shuffledOthers
      end
    end.

Definition s_embed : jsstring := Eval vm_compute in
  utf16 "https://www.youtubeeducation.com/embed/".
Definition s_playlist : jsstring := Eval vm_compute in utf16 "&playlist=".
Definition s_loop1 : jsstring := Eval vm_compute in utf16 "&loop=1".
Definition QUESTION : N := 0x3F.

(** [iframeSrc]; [details_id] is [videoDetails?.id]. *)
Definition iframeSrc (details_id playerParams : option jsstring)
    (playlist : option Playlist) (playlistVideos : list Video)
    (isShuffle isLoop : bool) (videoId : option jsstring) : jsstring :=
  match details_id, playerParams with
  | Some (i :: d), Some (p :: ps) =>
    let src := s_embed ++ i :: d in
    let params := if p =? QUESTION then ps else p :: ps in
    let params :=
      match playlist, playlistVideos with
      | Some _, _ :: _ =>
        let videoIdList :=
          List.map id
            (if isShuffle
             then shuffledPlaylistVideos isShuffle playlistVideos videoId
             else playlistVideos) in
        let playlistString := join StreamApi.s_comma videoIdList in
        let params := params ++ s_playlist ++ playlistString in
        if isLoop then params ++ s_loop1 else params
      | _, _ => params
      end in
    src ++ QUESTION :: params
  | _, _ => []
  end.
End Shuffle.

(** The state the two toggles read and write. *)
Record State : Type := {
  searchParams : URLSearchParams;
  isShuffle : bool;
  isLoop : bool
}.

Definition s_shuffle : jsstring := Eval vm_compute in utf16 "shuffle".
Definition s_loop : jsstring := Eval vm_compute in utf16 "loop".
Definition s_1 : jsstring := Eval vm_compute in utf16 "1".

(** [updateUrlParams(key, value)], [None] being [null] *)
Definition updateUrlParams (key : jsstring) (value : option jsstring)
    (st : State) : State :=
  let newSearchParams :=
    match value with
    | None => usp_delete key (searchParams st)
    | Some v => usp_set key v (searchParams st)
    end in
  {| searchParams := newSearchParams;
     isShuffle := isShuffle st; isLoop := isLoop st |}.

Definition toggleShuffle (st : State) : State :=
  let newShuffleState := negb (isShuffle st) in
  updateUrlParams s_shuffle (if newShuffleState then Some s_1 else None)
    {| searchParams := searchParams st;
       isShuffle := newShuffleState; isLoop := isLoop st |}.

Definition toggleLoop (st : State) : State :=
  let newLoopState := negb (isLoop st) in
  updateUrlParams s_loop (if newLoopState then Some s_1 else None)
    {| searchParams := searchParams st;
       isShuffle := isShuffle st; isLoop := newLoopState |}.

(** The effect that follows the URL: both flags are read back from
    the parameters. *)
Definition syncFlags (st : State) : State :=
  {| searchParams := searchParams st;
     isShuffle := bool_decide (usp_get s_shuffle (searchParams st) = Some s_1);
     isLoop := bool_decide (usp_get s_loop (searchParams st) = Some s_1) |}.

End PlayerPage.

(** ** The header ([src/components/Header.tsx]) *)

Module Header.

Inductive Event : Type :=
| PreventDefault
| AddSearchTerm (term : jsstring)
| Navigate (to : jsstring)
| ThrowURIError.

Definition s_results : jsstring := Eval vm_compute in
  utf16 "/results?search_query=".

(** [handleSearch]: what it calls, in order. *)
Definition handleSearch (searchQuery : jsstring) : list Event :=
  PreventDefault ::
  match RatioMix.trim searchQuery with
  | [] => []
  | term =>
    AddSearchTerm term ::
    match encodeURIComponent term with
    | Some encoded => [Navigate (s_results ++ encoded)]
    | None => [ThrowURIError]
    end
  end.

End Header.

(** ** The video card ([src/components/VideoCard.tsx]) *)

Module VideoCard.

Definition s_unknown : jsstring := Eval vm_compute in utf16 "不明".
Definition s_bullet : jsstring := Eval vm_compute in utf16 " • ".

(** The line under the title:
    [[views?.includes('不明') ? null : views, uploadedAt]
       .filter(Boolean).join(' • ')].
    [filter(Boolean)] drops [null] and the empty string alike, so
    [null] is written as the empty string. *)
Definition metaLine (video : Video) : jsstring :=
  join s_bullet
    (List.filter (fun s => negb (bool_decide (s = [])))
       [if includes (views video) s_unknown then [] else views video;
        uploadedAt video]).

End VideoCard.

(** ** The channel page ([src/unnamed/part_002])

    The requests of the page are taken one at a time: a callback runs in
    the state of the last render and gives the state once its request is
    settled. *)

Module ChannelPage.

(** ['home' | 'videos'] *)
Inductive Tab : Type := home_tab | videos_tab.

(** The details of the channel, a video of the page (a video with its
    [channelAvatarUrl]) and a page of videos, with the fields the page
    reads. *)
Record ChannelDetails : Type := {
  cd_id : jsstring;
  cd_name : jsstring;
  cd_avatarUrl : option jsstring
}.

Record PageVideo : Type := {
  pv_video : Video;
  pv_channelAvatarUrl : option jsstring
}.

Record VideosPage : Type := {
  vp_videos : list PageVideo;
  nextPageToken : option jsstring
}.

(** A settled request, with the message of the error it failed with. *)
Inductive reply (A : Type) : Type :=
| Replied (value : A)
| Failed (message : jsstring).
Arguments Replied {A} value.
Arguments Failed {A} message.

(** A string that is there and not empty. *)
Definition truthy (s : option jsstring) : bool :=
  match s with
  | Some (_ :: _) => true
  | _ => false
  end.

(** [a || b] on strings *)
Definition or_else (a : option jsstring) (b : jsstring) : jsstring :=
  match a with
  | Some (u :: s) => u :: s
  | _ => b
  end.

Section Page.
(** [ChannelHomeData] *)
Context {HomeData : Type}.

(** The state of the component. *)
Record State : Type := {
  channelDetails : option ChannelDetails;
  isLoading : bool;
  error : option jsstring;
  activeTab : Tab;
  homeData : option HomeData;
  videos : list PageVideo;
  videosPageToken : option jsstring;
  isFetchingMore : bool;
  isTabLoading : bool
}.

Definition setChannelDetails (x : option ChannelDetails) (st : State) :=
  {| channelDetails := x; isLoading := isLoading st; error := error st;
     activeTab := activeTab st; homeData := homeData st;
     videos := videos st; videosPageToken := videosPageToken st;
     isFetchingMore := isFetchingMore st; isTabLoading := isTabLoading st |}.

Definition setIsLoading (x : bool) (st : State) :=
  {| channelDetails := channelDetails st; isLoading := x; error := error st;
     activeTab := activeTab st; homeData := homeData st;
     videos := videos st; videosPageToken := videosPageToken st;
     isFetchingMore := isFetchingMore st; isTabLoading := isTabLoading st |}.

Definition setError (x : option jsstring) (st : State) :=
  {| channelDetails := channelDetails st; isLoading := isLoading st;
     error := x; activeTab := activeTab st; homeData := homeData st;
     videos := videos st; videosPageToken := videosPageToken st;
     isFetchingMore := isFetchingMore st; isTabLoading := isTabLoading st |}.

Definition setActiveTab (x : Tab) (st : State) :=
  {| channelDetails := channelDetails st; isLoading := isLoading st;
     error := error st; activeTab := x; homeData := homeData st;
     videos := videos st; videosPageToken := videosPageToken st;
     isFetchingMore := isFetchingMore st; isTabLoading := isTabLoading st |}.

Definition setHomeData (x : option HomeData) (st : State) :=
  {| channelDetails := channelDetails st; isLoading := isLoading st;
     error := error st; activeTab := activeTab st; homeData := x;
     videos := videos st; videosPageToken := videosPageToken st;
     isFetchingMore := isFetchingMore st; isTabLoading := isTabLoading st |}.

(** [setVideos(prev => f(prev))] *)
Definition setVideos (f : list PageVideo -> list PageVideo) (st : State) :=
  {| channelDetails := channelDetails st; isLoading := isLoading st;
     error := error st; activeTab := activeTab st; homeData := homeData st;
     videos := f (videos st); videosPageToken := videosPageToken st;
     isFetchingMore := isFetchingMore st; isTabLoading := isTabLoading st |}.

Definition setVideosPageToken (x : option jsstring) (st : State) :=
  {| channelDetails := channelDetails st; isLoading := isLoading st;
     error := error st; activeTab := activeTab st; homeData := homeData st;
     videos := videos st; videosPageToken := x;
     isFetchingMore := isFetchingMore st; isTabLoading := isTabLoading st |}.

Definition setIsFetchingMore (x : bool) (st : State) :=
  {| channelDetails := channelDetails st; isLoading := isLoading st;
     error := error st; activeTab := activeTab st; homeData := homeData st;
     videos := videos st; videosPageToken := videosPageToken st;
     isFetchingMore := x; isTabLoading := isTabLoading st |}.

Definition setIsTabLoading (x : bool) (st : State) :=
  {| channelDetails := channelDetails st; isLoading := isLoading st;
     error := error st; activeTab := activeTab st; homeData := homeData st;
     videos := videos st; videosPageToken := videosPageToken st;
     isFetchingMore := isFetchingMore st; isTabLoading := x |}.

Definition s_details_failed : jsstring := Eval vm_compute in
  utf16 "チャンネルデータの読み込みに失敗しました。".
Definition s_videos_failed : jsstring := Eval vm_compute in
  utf16 "[videos] タブの読み込みに失敗しました。".

(** [loadInitialDetails]: the state once the request is settled. *)
Definition loadInitialDetails (channelId : option jsstring)
    (details : reply ChannelDetails) (st : State) : State :=
  if negb (truthy channelId) then st
  else
    let st := setIsLoading true st in
    let st := setError None st in
    let st := setVideos (fun _ => []) st in
    let st := setHomeData None st in
    let st := setVideosPageToken (Some s_page1) st in
    let st := setActiveTab home_tab st in
    let st :=
      match details with
      | Replied d => setChannelDetails (Some d) st
      | Failed message =>
        setError (Some (or_else (Some message) s_details_failed)) st
      end in
    setIsLoading false st.

(** The videos of a page take the name, the avatar and the id of the
    channel where the details have them. *)
Definition enrich (details : option ChannelDetails) (v : PageVideo)
  : PageVideo :=
  let w := pv_video v in
  {| pv_video :=
       {| id := id w; title := title w;
          channelId := or_else (cd_id <$> details) (channelId w);
          channelName := or_else (cd_name <$> details) (channelName w);
          views := views w; uploadedAt := uploadedAt w;
          duration := duration w; isoDuration := isoDuration w;
          descriptionSnippet := descriptionSnippet w |};
     pv_channelAvatarUrl :=
       match details ≫= cd_avatarUrl with
       | Some (u :: s) => Some (u :: s)
       | _ => pv_channelAvatarUrl v
       end |}.

(** [pageToken && pageToken !== '1'] *)
Definition is_later_page (pageToken : option jsstring) : bool :=
  truthy pageToken && negb (bool_decide (pageToken = Some s_page1)).

(** [fetchTabData(tab, pageToken)]: the state once the request is
    settled; [st] is the state the callback was made in. *)
Definition fetchTabData (channelId : option jsstring) (tab : Tab)
    (pageToken : option jsstring) (homeReply : reply HomeData)
    (videosReply : reply VideosPage) (st : State) : State :=
  if negb (truthy channelId)
     || (isFetchingMore st && match tab with videos_tab => true | home_tab => false end)
  then st
  else
    let later := is_later_page pageToken in
    let st' :=
      if later then setIsFetchingMore true st else setIsTabLoading true st in
    let st' :=
      match tab with
      | home_tab =>
        match homeData st with
        | None =>
          match homeReply with
          | Replied hData => setHomeData (Some hData) st'
          | Failed _ => st'
          end
        | Some _ => st'
        end
      | videos_tab =>
        match videosReply with
        | Replied vData =>
          let enrichedVideos :=
            List.map (enrich (channelDetails st)) (vp_videos vData) in
          let st' :=
            setVideos
              (fun prev => if later then prev ++ enrichedVideos
                           else enrichedVideos) st' in
          setVideosPageToken (nextPageToken vData) st'
        | Failed _ => setError (Some s_videos_failed) st'
        end
      end in
    setIsFetchingMore false (setIsTabLoading false st').

(** The effect on the active tab: the first load of a tab. *)
Definition loadActiveTab (channelId : option jsstring)
    (homeReply : reply HomeData) (videosReply : reply VideosPage)
    (st : State) : State :=
  if truthy channelId && negb (isLoading st) then
    match activeTab st, homeData st, videos st with
    | home_tab, None, _ =>
      fetchTabData channelId home_tab None homeReply videosReply st
    | videos_tab, _, [] =>
      fetchTabData channelId videos_tab (Some s_page1) homeReply videosReply st
    | _, _, _ => st
    end
  else st.

(** [handleLoadMore] *)
Definition handleLoadMore (channelId : option jsstring)
    (homeReply : reply HomeData) (videosReply : reply VideosPage)
    (st : State) : State :=
  match activeTab st with
  | videos_tab =>
    if truthy (videosPageToken st) && negb (isFetchingMore st) then
      fetchTabData channelId videos_tab (videosPageToken st) homeReply videosReply
        st
    else st
  | home_tab => st
  end.
End Page.

End ChannelPage.

(** * The vocabulary of the properties *)

Definition sumQ (l : list Q) : Q := fold_right Qplus 0%Q l.

(** The number of members of [l] from channel [ch]. *)
Definition count_channel (ch : jsstring) (l : list Video) : nat :=
  length (List.filter (fun v => jseqb (channelId v) ch) l).

(** The diversifier in the words of the specification: walk the sorted
    list once, admit a candidate while fewer than [cap] members of its
    channel have been admitted, drop it otherwise. *)
Fixpoint diversify (cap : nat) (admitted sorted : list Video)
  : list Video :=
  match sorted with
  | [] => []
  | v :: rest =>
    if (count_channel (channelId v) admitted <? cap)%nat
    then v :: diversify cap (admitted ++ [v]) rest
    else diversify cap admitted rest
  end.

(** The sort puts no larger score behind a smaller one. *)
Definition descending {A} (key : A -> Q) (l : list A) : Prop :=
  forall i j x y, (i < j)%nat -> l !! i = Some x -> l !! j = Some y ->
    (key y <= key x)%Q.

(** The weight a profile gives a keyword, 0 when it has none. *)
Definition profile_weight (profile : UserProfile) (kw : jsstring) : Q :=
  or_zero (map_get kw (keywords profile)).

(** The three sub-scores in the words of the specification. *)
Definition relevance `{Unicode} (profile : UserProfile) (v : Video) : Q :=
  sumQ
    (List.map (profile_weight profile)
       (extractKeywords
          (toLowerCase
             (title v ++ SPACE :: channelName v
                ++ SPACE :: or_empty (descriptionSnippet v))))).

Definition popularity `{MathLib} (v : Video) : Q :=
  match parseInt (List.filter is_digit (views v)) with
  | Some viewCount => Math_log10 (inject_Z viewCount + 1)%Q
  | None => 0%Q
  end.

Definition freshness `{Unicode} (v : Video) : Q :=
  (Math_max 0 (1 - inject_Z (parseUploadedAt (uploadedAt v)) / 60) * 5)%Q.

(** All the keywords of a text before deduplication. *)
Definition raw_keywords `{Unicode} (text : jsstring) : list jsstring :=
  List.filter is_keyword
    (List.filter longer_than_1
       (split_ws (replace_brackets (replace_class (toLowerCase text))))).

(** 1 when [kw] is a keyword of [text], else 0. *)
Definition mentions `{Unicode} (kw text : jsstring) : Q :=
  if bool_decide (kw ∈ extractKeywords text) then 1%Q else 0%Q.

(** The weight of a keyword in the words of the specification: what
    each search term, watched video and subscription adds, by
    position. *)
Definition profile_spec `{Unicode} `{MathLib} (sources : UserSources)
    (kw : jsstring) : Q :=
  (sumQ
     (imap
        (fun i term =>
           mentions kw term * (3 * Math_exp (- inject_Z (Z.of_nat i) / 5)))
        (us_searchHistory sources))
   + sumQ
       (imap
          (fun i v =>
             mentions kw (title v)
             * (2 * Math_exp (- inject_Z (Z.of_nat i) / 10))
             + mentions kw (channelName v)
               * ((8 # 10) * (2 * Math_exp (- inject_Z (Z.of_nat i) / 10)))
             + mentions kw (or_empty (descriptionSnippet v))
               * ((5 # 10) * (2 * Math_exp (- inject_Z (Z.of_nat i) / 10))))
          (us_watchHistory sources))
   + sumQ
       (List.map (fun c => mentions kw (name c) * (15 # 10))
                 (us_subscribedChannels sources)))%Q.

(** The weights the negative-keyword map gives the keywords of the
    title and of the channel name of a candidate, in the order of the
    keywords. *)
Definition keyword_weights `{Unicode} (negativeKeywords : gmap jsstring double)
    (v : Video) : list double :=
  omap (fun k => negativeKeywords !! k)
    (extractKeywords (title v) ++ extractKeywords (channelName v)).

(** The penalty of a candidate: the sum of these weights as JavaScript
    adds numbers, one after the other in double precision, [NaN]
    counting for 0. *)
Definition keyword_penalty `{Unicode} (negativeKeywords : gmap jsstring double)
    (v : Video) : double :=
  fold_left double_add
    (List.map (fun w => double_or_zero (Some w))
       (keyword_weights negativeKeywords v))
    (double_of_Z 0).

(** The rational number a finite double stands for. *)
Definition double_value (x : double) : option Q :=
  match x with
  | S754_zero _ => Some 0%Q
  | S754_finite s m e =>
    Some (inject_Z (if s then Z.neg m else Z.pos m) * 2 ^ e)%Q
  | _ => None
  end.

(** The sum of the weights of a candidate as rational numbers, for
    finite weights. *)
Definition exact_penalty `{Unicode} (negativeKeywords : gmap jsstring double)
    (v : Video) : Q :=
  sumQ
    (List.map (fun w => default 0%Q (double_value w))
       (keyword_weights negativeKeywords v)).

(** An integer that a JavaScript number holds exactly: the doubles
    hold every integer up to 2^53, and a product of two of them that
    is one of them is not rounded. *)
Definition exact_integer (z : Z) : Prop := (Z.abs z <= 2 ^ 53)%Z.

(** What a ratio-mix filter lets through. *)
Definition allowed `{Unicode} (sources : RatioMix.RecommendationSource)
    (v : Video) : Prop :=
  (channelId v ∉ RatioMix.ngChannelIds sources)
  /\ RatioMix.has_ngKeyword (RatioMix.rs_ngKeywords sources) v = false
  /\ double_gt (keyword_penalty (RatioMix.rs_negativeKeywords sources) v)
       (double_of_Z 2) = false.

(** A call to the catalog service, and the candidates of its
    response. *)
Inductive source_call : Type :=
| RelatedOf (videoId : jsstring)
| SearchFor (query : jsstring)
| UploadsOf (channel : jsstring)
| Recommended.

Definition response `{Catalog} (c : source_call) : outcome (list Video) :=
  match c with
  | RelatedOf videoId =>
    then_ (getVideoDetails videoId)
          (fun details => default [] (relatedVideos details))
  | SearchFor query => then_ (searchVideos query s_page1) sr_videos
  | UploadsOf channel => then_ (getChannelVideos channel) vl_videos
  | Recommended => then_ getRecommendedVideos vl_videos
  end.

(** What a call contributes: its candidates, none when it fails. *)
Definition payload `{Catalog} (c : source_call) : list Video :=
  match response c with
  | Fulfilled videos => videos
  | Rejected => []
  end.

(** The cap of the profile-rank engine on each kind of call. *)
Definition cap (c : source_call) : nat :=
  match c with
  | RelatedOf _ => 15
  | SearchFor _ => 10
  | UploadsOf _ => 5
  | Recommended => 20
  end.

(** The calls the profile-rank engine issues, in order. *)
Definition issued_calls `{Unicode} `{MathLib} (rnd : nat -> nat) (k : nat)
    (sources : ProfileRank.RecommendationSource) : list source_call :=
  let '(recent, k) := ProfileRank.recentVideos rnd k sources in
  let '(subs, _) := ProfileRank.randomSubs rnd k sources in
  let calls :=
    List.map (fun v => RelatedOf (id v)) recent
    ++ List.map SearchFor (ProfileRank.topKeywords sources)
    ++ List.map (fun sub => UploadsOf (ch_id sub)) subs in
  if (length calls <? 3)%nat then calls ++ [Recommended] else calls.

(** No unit of [w] is white space. *)
Definition nows (w : jsstring) : Prop :=
  forallb (fun u => negb (is_js_space u)) w = true.

(** What [replace_class] leaves: spaces, units outside the class that
    start no pair, pairs whose code point is outside the class. *)
Inductive cleaned `{Unicode} : jsstring -> Prop :=
| cleaned_nil : cleaned []
| cleaned_space s : cleaned s -> cleaned (SPACE :: s)
| cleaned_unit u s : is_SPZC u = false -> cleaned s -> cleaned (u :: s)
| cleaned_pair h l s :
    is_high h && is_low l = true -> is_SPZC (code_point h l) = false ->
    cleaned s -> cleaned (h :: l :: s).

Definition lowered `{Unicode} (s : jsstring) : Prop := toLowerCase s = s.

Definition bracket_free (s : jsstring) : Prop :=
  forallb (fun u => negb (is_bracket u)) s = true.

(** What every extracted keyword is. *)
Definition token `{Unicode} (t : jsstring) : Prop :=
  nows t /\ cleaned t /\ lowered t /\ bracket_free t
  /\ longer_than_1 t = true /\ is_keyword t = true.

(** The texts of a watched video that feed the profile. *)
Definition video_texts (v : Video) : list jsstring :=
  [title v; channelName v; or_empty (descriptionSnippet v)].

(** The call of source D. *)
Definition is_fallback (c : source_call) : bool :=
  match c with
  | Recommended => true
  | _ => false
  end.

(** What the short-form feed takes from the response to a search. *)
Definition shorts_of_search `{Unicode} `{Catalog} (query : jsstring)
  : list Video :=
  match searchVideos query s_page1 with
  | Fulfilled res =>
    List.filter RatioMix.isShortVideo (sr_videos res ++ sr_shorts res)
  | Rejected => []
  end.

(** The pattern of [cleanTitleForSearch] matches somewhere in [s]: an
    opening bracket with its closing bracket later on the same line. *)
Fixpoint has_bracketed (s : jsstring) : bool :=
  match s with
  | [] => false
  | u :: s' =>
    match RatioMix.closing u with
    | Some close =>
      match RatioMix.after_close close s' with
      | Some _ => true
      | None => has_bracketed s'
      end
    | None => has_bracketed s'
    end
  end.

(** The number of spaces of a string. *)
Definition spaces (s : jsstring) : nat :=
  length (List.filter (fun u => u =? SPACE) s).

(** An event that answers the request. *)
Definition is_response (e : StreamApi.Event) : bool :=
  match e with
  | StreamApi.Respond _ _ => true
  | _ => false
  end.

(** An event that touches the yt-dlp binary. *)
Definition touches_binary (e : StreamApi.Event) : bool :=
  match e with
  | StreamApi.ChmodSync _ _ | StreamApi.ExecFile _ _ => true
  | _ => false
  end.

(** The flag the watch page reads from the URL: [get(key) === '1']. *)
Definition get_flag (key : jsstring) (st : PlayerPage.State) : bool :=
  bool_decide
    (usp_get key (PlayerPage.searchParams st) = Some PlayerPage.s_1).

(** Every unit of [s] is a 16-bit code unit. *)
Definition code_units (s : jsstring) : Prop :=
  forallb (fun u => u <? 0x10000) s = true.

(** [String.prototype.isWellFormed]: no surrogate outside a pair. *)
Fixpoint isWellFormed (s : jsstring) : bool :=
  match s with
  | [] => true
  | u :: s' =>
    if is_low u then false
    else if is_high u then
      match s' with
      | l :: s'' => is_low l && isWellFormed s''
      | [] => false
      end
    else isWellFormed s'
  end.

(** The value of a hexadecimal digit. *)
Definition hex_value (u : N) : N :=
  if is_digit u then u - 0x30
  else if (0x41 <=? u) && (u <=? 0x46) then u - 0x41 + 10
  else u - 0x61 + 10.

(** The octets a percent-encoded string stands for. *)
Fixpoint percent_decode (s : jsstring) : list N :=
  match s with
  | [] => []
  | u :: s' =>
    if u =? 0x25 then
      match s' with
      | h :: l :: s'' => (hex_value h * 16 + hex_value l) :: percent_decode s''
      | _ => u :: percent_decode s'
      end
    else u :: percent_decode s'
  end.

(** What the results page reads back from a query value: the octets,
    decoded as UTF-8. *)
Definition decode_component (s : jsstring) : jsstring :=
  flat_map units_of_point (utf8_points (percent_decode s)).

(** A character that can stand in a query value without ending it. *)
Definition is_query_safe (u : N) : bool := is_unreserved u || (u =? 0x25).

(** A page of videos after which there is another one. *)
Definition continues (p : ChannelPage.VideosPage) : Prop :=
  ChannelPage.is_later_page (ChannelPage.nextPageToken p) = true.

(** Scrolling down the videos tab: a page of videos comes in at each call
    of [handleLoadMore]. *)
Fixpoint scroll {HomeData : Type} (channelId : option jsstring)
    (pages : list ChannelPage.VideosPage) (st : @ChannelPage.State HomeData)
  : ChannelPage.State :=
  match pages with
  | [] => st
  | p :: rest =>
    scroll channelId rest
      (ChannelPage.handleLoadMore channelId (ChannelPage.Failed [])
         (ChannelPage.Replied p) st)
  end.

(** Opening the videos tab and scrolling down: the first page comes in by
    the effect on the tab. *)
Definition browse {HomeData : Type} (channelId : option jsstring)
    (pages : list ChannelPage.VideosPage) (st : @ChannelPage.State HomeData)
  : ChannelPage.State :=
  match pages with
  | [] => st
  | p :: rest =>
    scroll channelId rest
      (ChannelPage.loadActiveTab channelId (ChannelPage.Failed [])
         (ChannelPage.Replied p) st)
  end.

(** * Fixtures for evaluating the engines *)

(** Rational stand-ins for [Math.exp] (on [x <= 0]) and [Math.log10]
    (the number of digits before the point, less one); they serve
    only to run the model on examples. *)
Fixpoint digits_above (fuel : nat) (x : Q) : Q :=
  match fuel with
  | O => 0
  | S fuel' =>
    if Qle_bool 10 x then (1 + digits_above fuel' (x / 10))%Q else 0%Q
  end.

Definition sample_video (i t ch cn : string) : Video :=
  {| id := utf16 i; title := utf16 t; channelId := utf16 ch;
     channelName := utf16 cn; views := utf16 "1,234 回視聴";
     uploadedAt := utf16 "3日前"; duration := utf16 "3:20";
     isoDuration := None; descriptionSnippet := None |}.

(** A catalog whose searches fail and whose recommended feed holds four
    videos of one channel. *)
Definition four_of_a_channel : list Video :=
  [sample_video "a" "Song A" "UC1" "Band";
   sample_video "b" "Song B" "UC1" "Band";
   sample_video "c" "Song C" "UC1" "Band";
   sample_video "d" "Song D" "UC1" "Band"].



Definition watched_context : ScoringContext :=
  {| ngKeywords := []; ngChannels := [];
     watchHistory := [sample_video "a" "Song A" "UC1" "Band"] |}.

Definition music_lover : UserProfile :=
  {| keywords := [(utf16 "music", 5%Q)] |}.

(** The candidate of the scoring scenario, and an older upload. *)
Definition music_video : Video :=
  {| id := utf16 "mv"; title := utf16 "music video";
     channelId := utf16 "UC9"; channelName := utf16 "Melody Channel";
     views := utf16 "1,000,000 回視聴"; uploadedAt := utf16 "2日前";
     duration := utf16 "4:05"; isoDuration := None;
     descriptionSnippet := Some (utf16 "Official release") |}.

Definition fresh_upload : Video :=
  sample_video "f" "Morning walk" "UC3" "Walker".

Definition stale_upload : Video :=
  {| id := utf16 "s"; title := utf16 "Morning walk";
     channelId := utf16 "UC3"; channelName := utf16 "Walker";
     views := utf16 "1,234 回視聴"; uploadedAt := utf16 "40日前";
     duration := utf16 "3:20"; isoDuration := None;
     descriptionSnippet := None |}.

(** An upload dated "a few days ago", with no number. *)
Definition undated_upload : Video :=
  {| id := utf16 "u"; title := utf16 "Morning walk";
     channelId := utf16 "UC3"; channelName := utf16 "Walker";
     views := utf16 "1,234 回視聴"; uploadedAt := utf16 "数日前";
     duration := utf16 "3:20"; isoDuration := None;
     descriptionSnippet := None |}.

(** A user who has marked "song" down by 2.5. *)
Definition song_hater : RatioMix.RecommendationSource := {|
  RatioMix.rs_searchHistory := [];
  RatioMix.rs_watchHistory := [];
  RatioMix.rs_shortsHistory := None;
  RatioMix.rs_subscribedChannels := [];
  RatioMix.rs_ngKeywords := [];
  RatioMix.rs_ngChannels := [];
  RatioMix.rs_hiddenVideos := [];
  RatioMix.rs_negativeKeywords := {[ utf16 "song" := double_div 25 10 ]};
  RatioMix.rs_page := 1%Q
|}.

(** A user who has marked five words down by 1.0, 0.6, 0.1, 0.1 and
    0.2, and a video with the five words in its title. *)
Definition five_weights : RatioMix.RecommendationSource := {|
  RatioMix.rs_searchHistory := [];
  RatioMix.rs_watchHistory := [];
  RatioMix.rs_shortsHistory := None;
  RatioMix.rs_subscribedChannels := [];
  RatioMix.rs_ngKeywords := [];
  RatioMix.rs_ngChannels := [];
  RatioMix.rs_hiddenVideos := [];
  RatioMix.rs_negativeKeywords :=
    {[ utf16 "alpha" := double_of_Z 1;
       utf16 "beta" := double_div 6 10;
       utf16 "gamma" := double_div 1 10;
       utf16 "delta" := double_div 1 10;
       utf16 "omega" := double_div 2 10 ]};
  RatioMix.rs_page := 1%Q
|}.

Definition five_words : Video :=
  sample_video "v" "alpha beta gamma delta omega" "UC1" "ch".

(** A catalog whose searches fail and whose video details list sixteen
    related videos. *)
Definition sixteen : list Video :=
  List.map (fun i => sample_video i "Clip" "UC2" "Other")
    ["r01"; "r02"; "r03"; "r04"; "r05"; "r06"; "r07"; "r08"; "r09"; "r10";
     "r11"; "r12"; "r13"; "r14"; "r15"; "r16"]%string.

Definition sixteen_related : Catalog := {|
  searchVideos := fun _ _ => Rejected;
  getVideoDetails := fun _ =>
    Fulfilled {| relatedVideos := Some sixteen |};
  getChannelVideos := fun _ => Rejected;
  getRecommendedVideos := Rejected;
  parseDuration := fun _ _ => 200%Q
|}.

Definition one_watched : ProfileRank.RecommendationSource := {|
  ProfileRank.rs_searchHistory := [];
  ProfileRank.rs_watchHistory := [sample_video "w" "Song A" "UC1" "Band"];
  ProfileRank.rs_subscribedChannels := [];
  ProfileRank.rs_preferredGenres := [];
  ProfileRank.rs_preferredChannels := [];
  ProfileRank.rs_ngKeywords := [];
  ProfileRank.rs_ngChannels := [];
  ProfileRank.rs_page := 1%Q
|}.

Definition short_video (i t ch cn : string) : Video :=
  {| id := utf16 i; title := utf16 t; channelId := utf16 ch;
     channelName := utf16 cn; views := utf16 "5,678 回視聴";
     uploadedAt := utf16 "1日前"; duration := utf16 "0:30";
     isoDuration := None; descriptionSnippet := None |}.

Definition hidden_short : Video :=
  short_video "h" "Dance #shorts" "UC1" "Dancer".
Definition blocked_short : Video :=
  short_video "b" "Prank #shorts" "UCx" "Prankster".

(** A user who has hidden video "h" and blocked channel "UCx". *)
Definition hiding_user : RatioMix.RecommendationSource := {|
  RatioMix.rs_searchHistory := [];
  RatioMix.rs_watchHistory := [];
  RatioMix.rs_shortsHistory := None;
  RatioMix.rs_subscribedChannels := [];
  RatioMix.rs_ngKeywords := [];
  RatioMix.rs_ngChannels := [ {| RatioMix.bc_id := utf16 "UCx" |} ];
  RatioMix.rs_hiddenVideos := [ {| RatioMix.hv_id := utf16 "h" |} ];
  RatioMix.rs_negativeKeywords := ∅;
  RatioMix.rs_page := 1%Q
|}.

(** A catalog whose searches fail and whose recommended feed is
    [videos]. *)
Definition recommending (videos : list Video) : Catalog := {|
  searchVideos := fun _ _ => Rejected;
  getVideoDetails := fun _ => Rejected;
  getChannelVideos := fun _ => Rejected;
  getRecommendedVideos := Fulfilled {| vl_videos := videos |};
  parseDuration := fun _ _ => 30%Q
|}.

(** A catalog that is down. *)
Definition offline : Catalog := {|
  searchVideos := fun _ _ => Rejected;
  getVideoDetails := fun _ => Rejected;
  getChannelVideos := fun _ => Rejected;
  getRecommendedVideos := Rejected;
  parseDuration := fun _ _ => 0%Q
|}.

(** A viewer of the profile-rank engine with nothing on record. *)
Definition newcomer : ProfileRank.RecommendationSource := {|
  ProfileRank.rs_searchHistory := [];
  ProfileRank.rs_watchHistory := [];
  ProfileRank.rs_subscribedChannels := [];
  ProfileRank.rs_preferredGenres := [];
  ProfileRank.rs_preferredChannels := [];
  ProfileRank.rs_ngKeywords := [];
  ProfileRank.rs_ngChannels := [];
  ProfileRank.rs_page := 1%Q
|}.

Definition two_songs : list Video :=
  [sample_video "a" "Song A" "UC1" "Band";
   sample_video "b" "Song B" "UC1" "Band"].

Definition no_context : ScoringContext :=
  {| ngKeywords := []; ngChannels := []; watchHistory := [] |}.

(** The decimal numeral of the integer part of a number that is not
    negative; it stands in for [Number.prototype.toString] on the
    examples. *)
Fixpoint decimal_go (fuel : nat) (n : N) (acc : jsstring) : jsstring :=
  match fuel with
  | O => acc
  | S fuel' =>
    let acc := (0x30 + n mod 10) :: acc in
    if n <? 10 then acc else decimal_go fuel' (n / 10) acc
  end.

Definition decimal (q : Q) : jsstring :=
  decimal_go 40 (Z.to_N (Qfloor q)) [].

Definition fmt (v a e u : string) (h r : Q) : StreamApi.Format :=
  {| StreamApi.vcodec := StreamApi.Value (utf16 v);
     StreamApi.acodec := StreamApi.Value (utf16 a);
     StreamApi.ext := StreamApi.Value (utf16 e);
     StreamApi.protocol := StreamApi.Value (utf16 "https");
     StreamApi.url := StreamApi.Value (utf16 u);
     StreamApi.format_note := StreamApi.Absent;
     StreamApi.height := StreamApi.Value h;
     StreamApi.abr := StreamApi.Value r |}.

Definition sample_formats : list StreamApi.Format :=
  [fmt "avc1" "mp4a" "mp4" "u360" 360 96;
   fmt "avc1" "mp4a" "mp4" "u720" 720 128;
   fmt "none" "opus" "webm" "a160" 0 160;
   fmt "none" "mp4a" "m4a" "a128" 0 (257 # 2);
   fmt "avc1" "none" "mp4" "v1080" 1080 0].

(** A host with the binary in place, whose yt-dlp lists
    [sample_formats]. *)
Definition working_host : StreamApi.Host := {|
  StreamApi.ytdlpPath := utf16 "/var/task/yt-dlp_linux";
  StreamApi.fallbackPath := utf16 "/var/task/api/yt-dlp_linux";
  StreamApi.existsSync := fun path => jseqb path (utf16 "/var/task/yt-dlp_linux");
  StreamApi.execFile := fun _ _ =>
    {| StreamApi.error := None; StreamApi.stdout := utf16 "{}";
       StreamApi.stderr := [] |};
  StreamApi.JSON_parse_formats := fun _ => StreamApi.Info sample_formats;
  StreamApi.Number_toString := decimal
|}.

(** A host with the binary under [api/] only: nothing can be run at
    the first path. *)
Definition misplaced_host : StreamApi.Host := {|
  StreamApi.ytdlpPath := utf16 "/var/task/yt-dlp_linux";
  StreamApi.fallbackPath := utf16 "/var/task/api/yt-dlp_linux";
  StreamApi.existsSync := fun path =>
    jseqb path (utf16 "/var/task/api/yt-dlp_linux");
  StreamApi.execFile := fun _ _ =>
    {| StreamApi.error := Some (utf16 "spawn ENOENT");
       StreamApi.stdout := []; StreamApi.stderr := [] |};
  StreamApi.JSON_parse_formats := fun _ => StreamApi.Info [];
  StreamApi.Number_toString := decimal
|}.

Definition get_video (i : string) : StreamApi.Request :=
  {| StreamApi.method := utf16 "GET";
     StreamApi.query_videoId := StreamApi.One (utf16 i) |}.

Definition a_channel : ChannelPage.ChannelDetails :=
  {| ChannelPage.cd_id := utf16 "UC1";
     ChannelPage.cd_name := utf16 "Lo-fi Ch";
     ChannelPage.cd_avatarUrl := None |}.

Definition bare_video (i : string) : ChannelPage.PageVideo :=
  {| ChannelPage.pv_video :=
       {| id := utf16 i; title := utf16 "t"; channelId := [];
          channelName := []; views := []; uploadedAt := [];
          duration := []; isoDuration := None; descriptionSnippet := None |};
     ChannelPage.pv_channelAvatarUrl := None |}.

Definition three_pages : list ChannelPage.VideosPage :=
  [ {| ChannelPage.vp_videos := [bare_video "a"; bare_video "b"];
       ChannelPage.nextPageToken := Some (utf16 "2") |};
    {| ChannelPage.vp_videos := [bare_video "c"];
       ChannelPage.nextPageToken := Some (utf16 "3") |};
    {| ChannelPage.vp_videos := [bare_video "d"];
       ChannelPage.nextPageToken := None |} ].

(** The videos tab just opened, the channel loaded. *)
Definition videos_tab_opened : @ChannelPage.State unit :=
  {| ChannelPage.channelDetails := Some a_channel;
     ChannelPage.isLoading := false;
     ChannelPage.error := None;
     ChannelPage.activeTab := ChannelPage.videos_tab;
     ChannelPage.homeData := None;
     ChannelPage.videos := [];
     ChannelPage.videosPageToken := Some s_page1;
     ChannelPage.isFetchingMore := false;
     ChannelPage.isTabLoading := false |}.

(** The second page is asked for. *)
Definition one_page_loaded : @ChannelPage.State unit :=
  {| ChannelPage.channelDetails := Some a_channel;
     ChannelPage.isLoading := false;
     ChannelPage.error := None;
     ChannelPage.activeTab := ChannelPage.videos_tab;
     ChannelPage.homeData := None;
     ChannelPage.videos := [bare_video "a"];
     ChannelPage.videosPageToken := Some (utf16 "2");
     ChannelPage.isFetchingMore := false;
     ChannelPage.isTabLoading := false |}.

(** * Properties *)

(** ** The parameters have instances

    The tables for ASCII and Japanese text satisfy the laws of
    [Unicode]; the rational stand-ins are functions of the number. *)

(** Boolean comparisons on [N] as propositions. *)
Ltac n_prop :=
  repeat
    (rewrite ?orb_true_iff, ?andb_true_iff, ?orb_false_iff, ?andb_false_iff,
       ?negb_true_iff, ?negb_false_iff, ?N.leb_le, ?N.ltb_lt, ?N.eqb_eq,
       ?N.leb_gt, ?N.ltb_ge, ?N.eqb_neq in *).

Ltac n_lia :=
  n_prop; intros;
  repeat match goal with H : _ /\ _ |- _ => destruct H end;
  repeat split; lia.

Lemma ascii_lower_idem u : ascii_lower (ascii_lower u) = ascii_lower u.
Proof.
  unfold ascii_lower.
  destruct ((0x41 <=? u) && (u <=? 0x5A)) eqn:E; [|rewrite E; reflexivity].
  replace ((0x41 <=? u + 0x20) && (u + 0x20 <=? 0x5A)) with false;
    [reflexivity|].
  symmetry. n_prop. lia.
Qed.

Lemma basic_lower_idem s :
  basic_toLowerCase (basic_toLowerCase s) = basic_toLowerCase s.
Proof.
  unfold basic_toLowerCase. rewrite List.map_map.
  apply List.map_ext. intros u. apply ascii_lower_idem.
Qed.

Lemma basic_lower_split a b :
  basic_toLowerCase (a ++ b) = a ++ b ->
  basic_toLowerCase a = a /\ basic_toLowerCase b = b.
Proof.
  unfold basic_toLowerCase. rewrite List.map_app. intros E.
  apply app_inj_1 in E; [exact E | apply List.length_map].
Qed.

Lemma basic_lower_cat a b :
  basic_toLowerCase a = a -> basic_toLowerCase b = b ->
  no_pair_between a b ->
  basic_toLowerCase (a ++ b) = a ++ b.
Proof.
  unfold basic_toLowerCase. intros Ea Eb _.
  rewrite List.map_app. congruence.
Qed.

Lemma basic_lower_space a b :
  basic_toLowerCase (a ++ SPACE :: b)
  = basic_toLowerCase a ++ SPACE :: basic_toLowerCase b.
Proof. unfold basic_toLowerCase. rewrite List.map_app. reflexivity. Qed.

Lemma basic_spzc_surrogate c :
  is_surrogate c = true -> basic_is_SPZC c = true.
Proof.
  unfold basic_is_SPZC. intros E. rewrite E.
  replace (c <? 0x80) with false.
  - rewrite orb_true_r. reflexivity.
  - symmetry. unfold is_surrogate in E. n_prop. lia.
Qed.

Lemma basic_spzc_space c :
  is_js_space c = true -> basic_is_SPZC c = true.
Proof.
  unfold basic_is_SPZC. intros E. rewrite E.
  destruct (N.ltb_spec c 0x80); [|reflexivity].
  unfold is_js_space in E. unfold is_ascii_alnum, is_digit.
  n_prop. lia.
Qed.

Lemma basic_spzc_ascii c :
  c < 0x80 -> basic_is_SPZC c = negb (is_ascii_alnum c).
Proof.
  intros Hc. unfold basic_is_SPZC.
  apply N.ltb_lt in Hc. rewrite Hc. reflexivity.
Qed.

Definition basic_unicode : Unicode := {|
  toLowerCase := basic_toLowerCase;
  is_SPZC := basic_is_SPZC;
  lower_idem := basic_lower_idem;
  lower_split := basic_lower_split;
  lower_cat := basic_lower_cat;
  lower_space := basic_lower_space;
  lower_basic := fun s _ => eq_refl;
  spzc_surrogate := basic_spzc_surrogate;
  spzc_ascii := basic_spzc_ascii;
  spzc_space := basic_spzc_space
|}.

Lemma digits_above_compat fuel : Proper (Qeq ==> Qeq) (digits_above fuel).
Proof.
  induction fuel as [|fuel IH]; intros x y E; simpl; [reflexivity|].
  assert (Qle_bool 10 x = Qle_bool 10 y) as ->.
  { destruct (Qle_bool 10 y) eqn:Ey.
    - apply Qle_bool_iff. apply Qle_bool_iff in Ey. rewrite E. exact Ey.
    - destruct (Qle_bool 10 x) eqn:Ex; [|reflexivity].
      apply Qle_bool_iff in Ex. rewrite E in Ex.
      apply Qle_bool_iff in Ex. congruence. }
  destruct (Qle_bool 10 y); [|reflexivity].
  rewrite (IH (x / 10)%Q (y / 10)%Q) by (rewrite E; reflexivity).
  reflexivity.
Qed.

Lemma sample_exp_compat : Proper (Qeq ==> Qeq) (fun x => (1 / (1 - x))%Q).
Proof. intros x y E. rewrite E. reflexivity. Qed.

Definition sample_math : MathLib := {|
  Math_exp := fun x => (1 / (1 - x))%Q;
  Math_log10 := fun x => digits_above 400 x;
  Math_exp_compat := sample_exp_compat;
  Math_log10_compat := digits_above_compat 400
|}.

(** ** The definitions evaluated

    The string functions on the inputs one would try in a console. *)

Example split_ws_sample :
  split_ws (utf16 " a  b c ") = List.map utf16 [""; "a"; "b"; "c"; ""]%string.
Proof. vm_compute. reflexivity. Qed.

Example parseInt_sample :
  List.map (fun s => parseInt (utf16 s)) ["42"; "  -7x"; "abc"; "+3"]%string
  = [Some 42; Some (-7); None; Some 3]%Z.
Proof. vm_compute. reflexivity. Qed.

Example extractKeywords_sample :
  @extractKeywords basic_unicode
    (utf16 "Music Video [Official] 2024 の The 日本語テスト! music")
  = List.map utf16 ["music"; "video"; "official"; "日本語テスト"]%string.
Proof. vm_compute. reflexivity. Qed.

Example parseUploadedAt_sample :
  List.map (fun s => @parseUploadedAt basic_unicode (utf16 s))
    ["3分前"; "5時間前"; "2日前"; "3週間前"; "4か月前"; "1年前";
     "2ヶ月前"; "2 days ago"; "日前"]%string
  = [0; 0; 2; 21; 120; 365; 999; 999; 0]%Z.
Proof. vm_compute. reflexivity. Qed.

Example cleanTitleForSearch_sample :
  RatioMix.cleanTitleForSearch
    (utf16 "【MV】 Hello World (Official Video) [4K] and more words here")
  = utf16 "Hello World  ".
Proof. vm_compute. reflexivity. Qed.

Example shuffleArray_sample :
  shuffleArray (fun k => k) 0%nat [1; 2; 3; 4; 5]%nat
  = ([5; 4; 3; 2; 1]%nat, 4%nat).
Proof. vm_compute. reflexivity. Qed.

(** ** Ranking: filtering, sorting, diversity *)

Lemma jseqb_eq a b : jseqb a b = true <-> a = b.
Proof. unfold jseqb. apply bool_decide_eq_true. Qed.

Lemma jseqb_refl a : jseqb a a = true.
Proof. apply jseqb_eq. reflexivity. Qed.

Lemma jseqb_neq a b : jseqb a b = false <-> a <> b.
Proof. unfold jseqb. apply bool_decide_eq_false. Qed.

Lemma count_channel_app ch l1 l2 :
  count_channel ch (l1 ++ l2)
  = (count_channel ch l1 + count_channel ch l2)%nat.
Proof.
  unfold count_channel. rewrite List.filter_app, length_app. reflexivity.
Qed.

Lemma count_channel_cons ch v l :
  count_channel ch (v :: l)
  = ((if jseqb (channelId v) ch then 1 else 0) + count_channel ch l)%nat.
Proof.
  unfold count_channel. simpl. destruct (jseqb (channelId v) ch); reflexivity.
Qed.

Lemma insert_desc_perm {A} (key : A -> Q) x l :
  insert_desc key x l ≡ₚ x :: l.
Proof.
  induction l as [|y l IH]; simpl; [reflexivity|].
  destruct (Qle_bool (key y) (key x)); [reflexivity|].
  rewrite IH. apply Permutation_swap.
Qed.

Lemma sort_desc_perm {A} (key : A -> Q) l : sort_desc key l ≡ₚ l.
Proof.
  induction l as [|x l IH]; simpl; [reflexivity|].
  rewrite insert_desc_perm, IH. reflexivity.
Qed.

Lemma descending_cons {A} (key : A -> Q) x l :
  descending key (x :: l) <->
  (forall y, y ∈ l -> (key y <= key x)%Q) /\ descending key l.
Proof.
  split.
  - intros D. split.
    + intros y Hy. apply list_elem_of_lookup in Hy as [j Hj].
      apply (D 0%nat (S j) x y); [lia|reflexivity|exact Hj].
    + intros i j a b Hij Ha Hb. apply (D (S i) (S j)); [lia|exact Ha|exact Hb].
  - intros [Hx D] i j a b Hij Ha Hb.
    destruct j as [|j]; [lia|]. simpl in Hb.
    destruct i as [|i]; simpl in Ha.
    + injection Ha as <-. apply Hx. eapply list_elem_of_lookup_2, Hb.
    + apply (D i j); [lia|exact Ha|exact Hb].
Qed.

Lemma insert_desc_descending {A} (key : A -> Q) x l :
  descending key l -> descending key (insert_desc key x l).
Proof.
  induction l as [|y l IH]; intros D; simpl.
  - apply descending_cons. split; [|exact D].
    intros y Hy. apply elem_of_nil in Hy. destruct Hy.
  - apply descending_cons in D as [Hy D].
    destruct (Qle_bool (key y) (key x)) eqn:E.
    + apply Qle_bool_iff in E.
      apply descending_cons. split.
      * intros z Hz. apply elem_of_cons in Hz as [->|Hz]; [exact E|].
        eapply Qle_trans; [apply Hy, Hz|exact E].
      * apply descending_cons. split; assumption.
    + assert (key x <= key y)%Q as Hxy.
      { destruct (Qlt_le_dec (key x) (key y)) as [Hlt|Hle].
        - apply Qlt_le_weak, Hlt.
        - apply Qle_bool_iff in Hle. congruence. }
      apply descending_cons. split; [|apply IH, D].
      intros z Hz. rewrite insert_desc_perm in Hz.
      apply elem_of_cons in Hz as [->|Hz]; [exact Hxy|apply Hy, Hz].
Qed.

Lemma sort_desc_descending {A} (key : A -> Q) l :
  descending key (sort_desc key l).
Proof.
  induction l as [|x l IH]; simpl.
  - intros i j x y _ Hx. rewrite lookup_nil in Hx. discriminate.
  - apply insert_desc_descending, IH.
Qed.

Section RankingFacts.
Context `{Unicode} `{MathLib}.

Lemma score_loop_elem profile context seenIds videos s :
  s ∈ score_loop profile context seenIds videos ->
  video s ∈ videos /\ (id (video s) ∉ seenIds) /\ id (video s) <> []
  /\ existsb (jseqb (channelId (video s))) (ngChannels context) = false
  /\ existsb (fun ng => includes (fullText (video s)) (toLowerCase ng))
             (ngKeywords context) = false
  /\ score s = finalScore profile (video s).
Proof.
  revert seenIds. induction videos as [|v videos IH]; intros seenIds; simpl.
  - intros Hs. apply elem_of_nil in Hs. destruct Hs.
  - destruct (bool_decide (id v = [])) eqn:E1; simpl.
    { intros Hs. destruct (IH _ Hs) as (? & ? & ?).
      split; [apply elem_of_cons; right; assumption|]. split; assumption. }
    destruct (bool_decide (id v ∈ seenIds)) eqn:E2; simpl.
    { intros Hs. destruct (IH _ Hs) as (? & ? & ?).
      split; [apply elem_of_cons; right; assumption|]. split; assumption. }
    destruct (existsb (fun ng => includes (fullText v) _) _) eqn:E3.
    { intros Hs. destruct (IH _ Hs) as (? & ? & ?).
      split; [apply elem_of_cons; right; assumption|]. split; assumption. }
    destruct (existsb (jseqb (channelId v)) _) eqn:E4.
    { intros Hs. destruct (IH _ Hs) as (? & ? & ?).
      split; [apply elem_of_cons; right; assumption|]. split; assumption. }
    intros Hs. apply elem_of_cons in Hs as [->|Hs].
    + simpl. apply bool_decide_eq_false in E1, E2.
      split; [apply elem_of_cons; left; reflexivity|]. tauto.
    + destruct (IH _ Hs) as (Hin & Hseen & Hrest).
      split; [apply elem_of_cons; right; assumption|].
      split; [|exact Hrest].
      intros Hbad. apply Hseen. apply elem_of_union. right. exact Hbad.
Qed.

Lemma score_loop_NoDup profile context seenIds videos :
  NoDup (List.map (fun s => id (video s))
                  (score_loop profile context seenIds videos)).
Proof.
  revert seenIds. induction videos as [|v videos IH]; intros seenIds; simpl.
  - constructor.
  - destruct (bool_decide (id v = []) || bool_decide (id v ∈ seenIds));
      [apply IH|].
    destruct (existsb (fun ng => includes (fullText v) _) _); [apply IH|].
    destruct (existsb (jseqb (channelId v)) _); [apply IH|].
    simpl. constructor; [|apply IH].
    intros Hin. apply list_elem_of_In, in_map_iff in Hin as (s & Hid & Hs).
    apply list_elem_of_In, score_loop_elem in Hs as (_ & Hseen & _).
    apply Hseen. rewrite Hid. apply elem_of_union. left.
    apply elem_of_singleton. reflexivity.
Qed.

(** The counters of the loop are the per-channel counts of the videos
    admitted so far. *)
Lemma diversity_loop_diversify channelCount admitted scored :
  (forall ch, default 0%nat (channelCount !! ch) = count_channel ch admitted) ->
  diversity_loop channelCount scored
  = diversify MAX_FROM_SAME_CHANNEL admitted (List.map video scored).
Proof.
  revert channelCount admitted.
  induction scored as [|s scored IH]; intros cc admitted Hcc; simpl;
    [reflexivity|].
  rewrite Hcc.
  destruct (count_channel (channelId (video s)) admitted
            <? MAX_FROM_SAME_CHANNEL)%nat; [|apply IH, Hcc].
  f_equal. apply IH. intros ch.
  rewrite count_channel_app, count_channel_cons. unfold count_channel at 3.
  simpl. destruct (jseqb (channelId (video s)) ch) eqn:E.
  - apply jseqb_eq in E. subst ch. rewrite lookup_insert_eq. simpl. lia.
  - apply jseqb_neq in E. rewrite lookup_insert_ne by exact E.
    rewrite Hcc. lia.
Qed.

Lemma diversify_sublist cap admitted sorted :
  diversify cap admitted sorted `sublist_of` sorted.
Proof.
  revert admitted. induction sorted as [|v rest IH]; intros admitted; simpl.
  - constructor.
  - destruct (count_channel (channelId v) admitted <? cap)%nat.
    + apply sublist_skip, IH.
    + apply sublist_cons, IH.
Qed.


Lemma count_channel_sublist ch l1 l2 :
  l1 `sublist_of` l2 -> (count_channel ch l1 <= count_channel ch l2)%nat.
Proof.
  induction 1 as [|x l1 l2 _ IH|x l1 l2 _ IH].
  - lia.
  - rewrite !count_channel_cons. lia.
  - rewrite count_channel_cons. lia.
Qed.

Lemma rankVideos_diversify videos profile context :
  rankVideos videos profile context
  = diversify MAX_FROM_SAME_CHANNEL []
      (List.map video
         (sort_desc score
            (score_loop profile context
               (list_to_set (List.map id (watchHistory context))) videos))).
Proof.
  unfold rankVideos. apply diversity_loop_diversify.
  intros ch. rewrite lookup_empty. reflexivity.
Qed.

Lemma rankVideos_scored videos profile context v :
  v ∈ rankVideos videos profile context ->
  exists s,
    s ∈ score_loop profile context
          (list_to_set (List.map id (watchHistory context))) videos
    /\ video s = v.
Proof.
  rewrite rankVideos_diversify. intros Hv.
  eapply elem_of_sublist in Hv; [|apply diversify_sublist].
  apply list_elem_of_In, in_map_iff in Hv as (s & Hs & Hin).
  exists s. split; [|exact Hs].
  apply list_elem_of_In in Hin. rewrite sort_desc_perm in Hin. exact Hin.
Qed.

End RankingFacts.

(** ** C10: watched videos are not ranked *)

(** C10.  No video of the feed of [rankVideos] has the id of a video of
    the watch history it was given. *)
Theorem rankVideos_excludes_watched `{Unicode} `{MathLib}
    videos profile context v w :
  v ∈ rankVideos videos profile context ->
  w ∈ watchHistory context ->
  id v <> id w.
Proof.
  intros Hv Hw Heq.
  apply rankVideos_scored in Hv as (s & Hs & <-).
  apply score_loop_elem in Hs as (_ & Hseen & _).
  apply Hseen. rewrite Heq. apply elem_of_list_to_set.
  apply list_elem_of_In, in_map, list_elem_of_In, Hw.
Qed.

Lemma rankVideos_excludes_watched_witness :
  id (sample_video "b" "Song B" "UC1" "Band")
  <> id (sample_video "a" "Song A" "UC1" "Band").
Proof.
  apply (rankVideos_excludes_watched
           (H := basic_unicode) (H0 := sample_math)
           four_of_a_channel {| keywords := [] |} watched_context).
  - assert (rankVideos four_of_a_channel {| keywords := [] |} watched_context
            = [sample_video "b" "Song B" "UC1" "Band";
               sample_video "c" "Song C" "UC1" "Band";
               sample_video "d" "Song D" "UC1" "Band"]) as ->
        by (vm_compute; reflexivity).
    apply elem_of_cons. left. reflexivity.
  - apply elem_of_cons. left. reflexivity.
Defined.

(** ** C3: the diversity cap *)

Lemma take_sublist {A} n (l : list A) : take n l `sublist_of` l.
Proof.
  rewrite <- (take_drop n l) at 2. apply sublist_inserts_r. reflexivity.
Qed.



(** ** Strings: white space, words, duplicates *)

Lemma nows_app a b : nows (a ++ b) <-> nows a /\ nows b.
Proof. unfold nows. rewrite forallb_app, andb_true_iff. reflexivity. Qed.

Lemma nows_cons u w : nows (u :: w) <-> is_js_space u = false /\ nows w.
Proof.
  unfold nows. simpl. rewrite andb_true_iff, negb_true_iff. reflexivity.
Qed.

Lemma split_go_nows w acc sep :
  nows w -> split_go acc sep w = [rev acc ++ w].
Proof.
  revert acc sep. induction w as [|u w IH]; intros acc sep Hw; simpl.
  - rewrite app_nil_r. reflexivity.
  - apply nows_cons in Hw as [Hu Hw]. rewrite Hu, IH by exact Hw.
    simpl. rewrite <- app_assoc. reflexivity.
Qed.

Lemma split_ws_nows w : nows w -> split_ws w = [w].
Proof. intros Hw. unfold split_ws. rewrite split_go_nows by exact Hw. reflexivity. Qed.

(** The pieces that [split] yields hold no white space and are
    segments of the string. *)
Lemma split_go_piece acc sep s t :
  nows (rev acc) -> t ∈ split_go acc sep s ->
  nows t /\ exists a b, rev acc ++ s = a ++ t ++ b.
Proof.
  revert acc sep. induction s as [|u s IH]; intros acc sep Hacc; simpl.
  - intros Ht. apply list_elem_of_singleton in Ht. subst t.
    split; [exact Hacc|]. exists [], []. rewrite !app_nil_r. reflexivity.
  - destruct (is_js_space u) eqn:Eu.
    + assert (t ∈ split_go [] true s ->
              nows t /\ exists a b, rev acc ++ u :: s = a ++ t ++ b) as Hrest.
      { intros Ht. destruct (IH [] true eq_refl Ht) as (Hn & a & b & E).
        split; [exact Hn|]. simpl in E. exists (rev acc ++ u :: a), b.
        rewrite E, <- app_assoc. reflexivity. }
      destruct sep; [exact Hrest|].
      intros Ht. apply elem_of_cons in Ht as [->|Ht]; [|exact (Hrest Ht)].
      split; [exact Hacc|]. exists [], (u :: s). reflexivity.
    + intros Ht. apply IH in Ht.
      * destruct Ht as (Hn & a & b & E). split; [exact Hn|].
        exists a, b. rewrite <- E. simpl. rewrite <- app_assoc. reflexivity.
      * simpl. apply nows_app. split; [exact Hacc|].
        apply nows_cons. split; [exact Eu|reflexivity].
Qed.

Lemma split_ws_piece s t :
  t ∈ split_ws s -> nows t /\ exists a b, s = a ++ t ++ b.
Proof. intros Ht. apply (split_go_piece [] false s t eq_refl Ht). Qed.

Lemma split_go_after_space (P : jsstring -> bool) b :
  P [] = false ->
  List.filter P (split_go [] true b) = List.filter P (split_go [] false b).
Proof.
  intros HP. destruct b as [|u b]; simpl; [reflexivity|].
  destruct (is_js_space u); [|reflexivity]. simpl. rewrite HP. reflexivity.
Qed.

(** Splitting a string at one of its spaces. *)
Lemma split_go_space (P : jsstring -> bool) a b acc sep :
  P [] = false -> (sep = true -> acc = []) ->
  List.filter P (split_go acc sep (a ++ SPACE :: b))
  = List.filter P (split_go acc sep a) ++ List.filter P (split_ws b).
Proof.
  intros HP. revert acc sep.
  induction a as [|u a IH]; intros acc sep Hsep; simpl.
  - unfold split_ws. rewrite <- (split_go_after_space P b HP).
    destruct sep; [|simpl; destruct (P (rev acc)); reflexivity].
    rewrite (Hsep eq_refl). simpl. rewrite HP. reflexivity.
  - destruct (is_js_space u).
    + destruct sep; simpl.
      * apply IH. reflexivity.
      * rewrite IH by reflexivity. destruct (P (rev acc)); reflexivity.
    + apply IH. discriminate.
Qed.

Lemma split_ws_space (P : jsstring -> bool) a b :
  P [] = false ->
  List.filter P (split_ws (a ++ SPACE :: b))
  = List.filter P (split_ws a) ++ List.filter P (split_ws b).
Proof. intros HP. apply split_go_space; [exact HP|discriminate]. Qed.

Lemma dedupe_go_elem seen xs x :
  x ∈ dedupe_go seen xs <-> x ∈ xs /\ x ∉ seen.
Proof.
  revert seen. induction xs as [|y xs IH]; intros seen; simpl.
  - rewrite elem_of_nil. tauto.
  - destruct (existsb (jseqb y) seen) eqn:E.
    + rewrite IH, elem_of_cons. split; [tauto|].
      intros [[->|Hx] Hn]; [|tauto].
      apply existsb_exists in E as (z & Hz & Eyz).
      apply jseqb_eq in Eyz. subst z. destruct Hn. apply list_elem_of_In, Hz.
    + rewrite !elem_of_cons, IH, elem_of_cons.
      assert (y ∉ seen) as Hy.
      { intros Hy. apply list_elem_of_In in Hy.
        assert (existsb (jseqb y) seen = true) as E'
          by (apply existsb_exists; exists y; split;
              [exact Hy|apply jseqb_refl]).
        congruence. }
      destruct (decide (x = y)) as [->|Hne]; [tauto|]. tauto.
Qed.

Lemma dedupe_go_NoDup seen xs : NoDup (dedupe_go seen xs).
Proof.
  revert seen. induction xs as [|y xs IH]; intros seen; simpl.
  - constructor.
  - destruct (existsb (jseqb y) seen); [apply IH|].
    constructor; [|apply IH].
    rewrite dedupe_go_elem, elem_of_cons. tauto.
Qed.

Lemma dedupe_elem xs x : x ∈ dedupe xs <-> x ∈ xs.
Proof.
  unfold dedupe. rewrite dedupe_go_elem, elem_of_nil. tauto.
Qed.

Lemma dedupe_NoDup xs : NoDup (dedupe xs).
Proof. apply dedupe_go_NoDup. Qed.

Lemma dedupe_go_id seen xs :
  NoDup xs -> (forall x, x ∈ xs -> x ∉ seen) -> dedupe_go seen xs = xs.
Proof.
  revert seen. induction xs as [|y xs IH]; intros seen Hnd Hseen; simpl.
  - reflexivity.
  - apply NoDup_cons in Hnd as [Hy Hnd].
    destruct (existsb (jseqb y) seen) eqn:E.
    + apply existsb_exists in E as (z & Hz & Eyz).
      apply jseqb_eq in Eyz. subst z.
      destruct (Hseen y); [apply elem_of_cons; left; reflexivity|].
      apply list_elem_of_In, Hz.
    + f_equal. apply IH; [exact Hnd|].
      intros x Hx. rewrite elem_of_cons. intros [->|Hs]; [tauto|].
      apply (Hseen x); [apply elem_of_cons; right; exact Hx|exact Hs].
Qed.

Lemma dedupe_id xs : NoDup xs -> dedupe xs = xs.
Proof.
  intros Hnd. apply dedupe_go_id; [exact Hnd|].
  intros x _. apply not_elem_of_nil.
Qed.

Lemma extractKeywords_NoDup `{Unicode} text : NoDup (extractKeywords text).
Proof.
  unfold extractKeywords. destruct text; [constructor|apply dedupe_NoDup].
Qed.

(** ** Strings: the class replacement and lower case *)

(** Induction on a string by code points: a surrogate pair, or a unit
    that starts none. *)
Lemma pair_ind (P : jsstring -> Prop) :
  P [] ->
  (forall h l t, is_high h && is_low l = true -> P t -> P (h :: l :: t)) ->
  (forall u t,
     (forall l t', t = l :: t' -> is_high u && is_low l = false) ->
     P t -> P (u :: t)) ->
  forall s, P s.
Proof.
  intros Hnil Hpair Hunit s.
  assert (forall n s, (length s <= n)%nat -> P s) as Hall.
  { clear s. induction n as [|n IH]; intros s Hlen.
    - destruct s; [exact Hnil|simpl in Hlen; lia].
    - destruct s as [|h [|l t]]; [exact Hnil| |].
      + apply Hunit; [discriminate|exact Hnil].
      + destruct (is_high h && is_low l) eqn:E.
        * apply Hpair; [exact E|]. apply IH. simpl in *. lia.
        * apply Hunit.
          -- intros l' t' Heq. injection Heq as <- <-. exact E.
          -- apply IH. simpl in *. lia. }
  apply (Hall (length s)). lia.
Qed.

Lemma high_surrogate h : is_high h = true -> is_surrogate h = true.
Proof. unfold is_high, is_surrogate. n_prop. lia. Qed.

Lemma low_surrogate l : is_low l = true -> is_surrogate l = true.
Proof. unfold is_low, is_surrogate. n_prop. lia. Qed.

Lemma surrogate_not_space u : is_surrogate u = true -> is_js_space u = false.
Proof. unfold is_surrogate, is_js_space. n_lia. Qed.

Lemma surrogate_not_bracket u : is_surrogate u = true -> is_bracket u = false.
Proof. unfold is_surrogate, is_bracket. simpl. n_lia. Qed.

Lemma space_is_space : is_js_space SPACE = true.
Proof. reflexivity. Qed.

Section CleaningFacts.
Context `{Unicode}.

Lemma kept_not_surrogate u : is_SPZC u = false -> is_surrogate u = false.
Proof.
  intros Hu. destruct (is_surrogate u) eqn:E; [|reflexivity].
  apply spzc_surrogate in E. congruence.
Qed.

Lemma kept_not_high u : is_SPZC u = false -> is_high u = false.
Proof.
  intros Hu. destruct (is_high u) eqn:E; [|reflexivity].
  apply high_surrogate, spzc_surrogate in E. congruence.
Qed.

Lemma kept_not_space u : is_SPZC u = false -> is_js_space u = false.
Proof.
  intros Hu. destruct (is_js_space u) eqn:E; [|reflexivity].
  apply spzc_space in E. congruence.
Qed.

Lemma spzc_SPACE : is_SPZC SPACE = true.
Proof. apply spzc_space. reflexivity. Qed.

Lemma replace_class_pair h l t :
  is_high h && is_low l = true ->
  replace_class (h :: l :: t)
  = if is_SPZC (code_point h l) then SPACE :: replace_class t
    else h :: l :: replace_class t.
Proof. intros E. simpl. rewrite E. reflexivity. Qed.

Lemma replace_class_unit u t :
  (forall l t', t = l :: t' -> is_high u && is_low l = false) ->
  replace_class (u :: t)
  = (if is_SPZC u then SPACE else u) :: replace_class t.
Proof.
  intros E. destruct t as [|l t']; [reflexivity|].
  simpl. rewrite (E l t' eq_refl). reflexivity.
Qed.

Lemma replace_class_cleaned s : cleaned (replace_class s).
Proof.
  induction s as [|h l t E IH|u t E IH] using pair_ind.
  - constructor.
  - rewrite replace_class_pair by exact E.
    destruct (is_SPZC (code_point h l)) eqn:Ec.
    + apply cleaned_space, IH.
    + apply cleaned_pair; assumption.
  - rewrite replace_class_unit by exact E.
    destruct (is_SPZC u) eqn:Eu.
    + apply cleaned_space, IH.
    + apply cleaned_unit; assumption.
Qed.

Lemma cleaned_replace_class s : cleaned s -> replace_class s = s.
Proof.
  induction 1 as [|s _ IH|u s Hu _ IH|h l s E Hc _ IH].
  - reflexivity.
  - rewrite replace_class_unit, IH;
      [destruct (is_SPZC SPACE); reflexivity|].
    intros l t' _. reflexivity.
  - rewrite replace_class_unit, IH, Hu; [reflexivity|].
    intros l t' _. rewrite (kept_not_high u Hu). reflexivity.
  - rewrite replace_class_pair, Hc, IH by exact E. reflexivity.
Qed.

Lemma cleaned_app a b : cleaned a -> cleaned b -> cleaned (a ++ b).
Proof.
  intros Ha Hb. induction Ha; simpl;
    [exact Hb|apply cleaned_space|apply cleaned_unit|apply cleaned_pair];
    assumption.
Qed.

Lemma replace_class_space a b :
  replace_class (a ++ SPACE :: b)
  = replace_class a ++ SPACE :: replace_class b.
Proof.
  induction a as [|h l t E IH|u t E IH] using pair_ind.
  - change ([] ++ SPACE :: b) with (SPACE :: b).
    rewrite replace_class_unit, spzc_SPACE; [reflexivity|].
    intros l t' _. reflexivity.
  - change ((h :: l :: t) ++ SPACE :: b) with (h :: l :: (t ++ SPACE :: b)).
    rewrite (replace_class_pair h l t), (replace_class_pair h l (t ++ _))
      by exact E.
    rewrite IH. destruct (is_SPZC (code_point h l)); reflexivity.
  - change ((u :: t) ++ SPACE :: b) with (u :: (t ++ SPACE :: b)).
    rewrite (replace_class_unit u t) by exact E.
    rewrite (replace_class_unit u (t ++ _)), IH; [reflexivity|].
    intros l t' Heq. destruct t as [|l0 t0].
    + injection Heq as <- _. rewrite andb_false_r. reflexivity.
    + injection Heq as <- _. apply (E l0 t0). reflexivity.
Qed.

Lemma cleaned_replace_brackets s : cleaned s -> cleaned (replace_brackets s).
Proof.
  induction 1 as [|s _ IH|u s Hu _ IH|h l s E Hc _ IH]; simpl.
  - constructor.
  - apply cleaned_space, IH.
  - destruct (is_bracket u);
      [apply cleaned_space, IH|apply cleaned_unit; assumption].
  - apply andb_true_iff in E as [Eh El].
    rewrite (surrogate_not_bracket h), (surrogate_not_bracket l)
      by auto using high_surrogate, low_surrogate.
    apply cleaned_pair; [rewrite Eh, El; reflexivity|exact Hc|exact IH].
Qed.

(** A token: a piece of a cleaned string between its spaces. *)
Lemma split_go_cleaned s :
  cleaned s -> forall acc sep t,
  cleaned (rev acc) -> t ∈ split_go acc sep s -> cleaned t.
Proof.
  induction 1 as [|s _ IH|u s Hu _ IH|h l s E Hc _ IH];
    intros acc sep t Hacc; simpl.
  - intros Ht. apply list_elem_of_singleton in Ht. subst t. exact Hacc.
  - destruct sep.
    + apply IH. constructor.
    + intros Ht. apply elem_of_cons in Ht as [->|Ht]; [exact Hacc|].
      revert Ht. apply IH. constructor.
  - rewrite (kept_not_space u Hu). apply IH. simpl.
    apply cleaned_app; [exact Hacc|]. apply cleaned_unit; [exact Hu|constructor].
  - pose proof E as E'. apply andb_true_iff in E' as [Eh El].
    rewrite (surrogate_not_space h), (surrogate_not_space l)
      by auto using high_surrogate, low_surrogate.
    apply IH. simpl. rewrite <- app_assoc. apply cleaned_app; [exact Hacc|].
    apply cleaned_pair; [exact E|exact Hc|constructor].
Qed.

(** Lower case *)

Lemma lower_nil : toLowerCase [] = [].
Proof. apply (lower_basic []). reflexivity. Qed.

Lemma lowered_space_cons s : lowered s -> lowered (SPACE :: s).
Proof.
  unfold lowered. intros Hs.
  change (SPACE :: s) with ([] ++ SPACE :: s).
  rewrite lower_space, lower_nil, Hs. reflexivity.
Qed.

Lemma lowered_replace_class s : lowered s -> lowered (replace_class s).
Proof.
  induction s as [|h l t E IH|u t E IH] using pair_ind; intros Hs.
  - exact Hs.
  - change (h :: l :: t) with ([h; l] ++ t) in Hs.
    apply lower_split in Hs as [Hhl Ht].
    rewrite replace_class_pair by exact E.
    destruct (is_SPZC (code_point h l)).
    + apply lowered_space_cons, IH, Ht.
    + change (h :: l :: replace_class t) with ([h; l] ++ replace_class t).
      apply lower_cat; [exact Hhl|apply IH, Ht|].
      intros x y Hx _. injection Hx as <-.
      apply andb_true_iff in E as [_ El].
      replace (is_high l) with false; [reflexivity|].
      symmetry. unfold is_low in El. unfold is_high. n_prop. lia.
  - change (u :: t) with ([u] ++ t) in Hs.
    apply lower_split in Hs as [Hu Ht].
    rewrite replace_class_unit by exact E.
    destruct (is_SPZC u) eqn:Eu.
    + apply lowered_space_cons, IH, Ht.
    + change (u :: replace_class t) with ([u] ++ replace_class t).
      apply lower_cat; [exact Hu|apply IH, Ht|].
      intros x y Hx _. injection Hx as <-.
      rewrite (kept_not_high u Eu). reflexivity.
Qed.

Lemma lowered_replace_brackets s :
  cleaned s -> lowered s -> lowered (replace_brackets s).
Proof.
  induction 1 as [|s _ IH|u s Hu _ IH|h l s E Hc _ IH]; intros Hs; simpl.
  - exact Hs.
  - change (SPACE :: s) with ([SPACE] ++ s) in Hs.
    apply lower_split in Hs as [_ Hs]. apply lowered_space_cons, IH, Hs.
  - change (u :: s) with ([u] ++ s) in Hs.
    apply lower_split in Hs as [Hu' Hs].
    destruct (is_bracket u); [apply lowered_space_cons, IH, Hs|].
    change (u :: replace_brackets s) with ([u] ++ replace_brackets s).
    apply lower_cat; [exact Hu'|apply IH, Hs|].
    intros x y Hx _. injection Hx as <-.
    rewrite (kept_not_high u Hu). reflexivity.
  - change (h :: l :: s) with ([h; l] ++ s) in Hs.
    apply lower_split in Hs as [Hhl Hs].
    pose proof E as E'. apply andb_true_iff in E' as [Eh El].
    rewrite (surrogate_not_bracket h), (surrogate_not_bracket l)
      by auto using high_surrogate, low_surrogate.
    change (h :: l :: replace_brackets s)
      with ([h; l] ++ replace_brackets s).
    apply lower_cat; [exact Hhl|apply IH, Hs|].
    intros x y Hx _. injection Hx as <-.
    replace (is_high l) with false; [reflexivity|].
    symmetry. unfold is_low in El. unfold is_high. n_prop. lia.
Qed.

Lemma replace_brackets_free s :
  forallb (fun u => negb (is_bracket u)) (replace_brackets s) = true.
Proof.
  induction s as [|u s IH]; simpl; [reflexivity|].
  rewrite IH, andb_true_r.
  destruct (is_bracket u) eqn:E; [reflexivity|]. rewrite E. reflexivity.
Qed.

Lemma bracket_free_id s :
  forallb (fun u => negb (is_bracket u)) s = true -> replace_brackets s = s.
Proof.
  induction s as [|u s IH]; simpl; [reflexivity|].
  rewrite andb_true_iff, negb_true_iff. intros [Hu Hs].
  rewrite Hu, IH by exact Hs. reflexivity.
Qed.

End CleaningFacts.

(** ** C9: extraction is idempotent *)

Section Idempotence.
Context `{Unicode}.

Lemma extractKeywords_token text t : t ∈ extractKeywords text -> token t.
Proof.
  unfold extractKeywords. destruct text as [|u0 text0].
  { intros Ht. apply elem_of_nil in Ht. destruct Ht. }
  set (L := toLowerCase (u0 :: text0)).
  set (C := replace_brackets (replace_class L)).
  intros Ht. apply dedupe_elem, list_elem_of_In, filter_In in Ht as [Ht Hk].
  apply filter_In in Ht as [Ht Hl]. apply list_elem_of_In in Ht.
  assert (cleaned C) as HC
    by apply cleaned_replace_brackets, replace_class_cleaned.
  assert (lowered C) as HL.
  { apply lowered_replace_brackets; [apply replace_class_cleaned|].
    apply lowered_replace_class. apply lower_idem. }
  destruct (split_ws_piece C t Ht) as (Hn & a & b & E).
  repeat split; try assumption.
  - apply (split_go_cleaned C HC [] false t); [constructor|exact Ht].
  - unfold lowered in HL. rewrite E in HL.
    apply lower_split in HL as [_ HL]. apply lower_split in HL as [HL _].
    exact HL.
  - pose proof (replace_brackets_free (replace_class L)) as HB.
    fold C in HB. rewrite E, !forallb_app, !andb_true_iff in HB.
    apply HB.
Qed.

Lemma token_nonempty t : token t -> t <> [].
Proof. intros (_ & _ & _ & _ & Hl & _) ->. discriminate. Qed.

Lemma join_space_cons t ts :
  ts <> [] -> join_space (t :: ts) = t ++ SPACE :: join_space ts.
Proof. destruct ts; [congruence|reflexivity]. Qed.

(** The tokens joined by spaces: already lower case, cleaned, free of
    brackets, and split back into the tokens. *)
Lemma join_tokens ts :
  Forall token ts ->
  lowered (join_space ts) /\ cleaned (join_space ts)
  /\ bracket_free (join_space ts)
  /\ List.filter longer_than_1 (split_ws (join_space ts)) = ts.
Proof.
  induction 1 as [|t ts Ht Hts IH].
  - repeat split; try reflexivity; [apply lower_nil|constructor].
  - destruct IH as (IHl & IHc & IHb & IHs).
    destruct Ht as (Hn & Hc & Hl & Hb & Hlen & Hk).
    destruct ts as [|t' ts'].
    + simpl. repeat split; try assumption.
      rewrite split_ws_nows by exact Hn. simpl. rewrite Hlen. reflexivity.
    + rewrite join_space_cons by discriminate.
      set (J := join_space (t' :: ts')) in *.
      repeat split.
      * unfold lowered in *. rewrite lower_space, Hl, IHl. reflexivity.
      * apply cleaned_app; [exact Hc|]. apply cleaned_space, IHc.
      * unfold bracket_free in *. rewrite forallb_app. simpl.
        rewrite Hb, IHb. reflexivity.
      * rewrite split_ws_space by reflexivity.
        rewrite split_ws_nows by exact Hn. simpl. rewrite Hlen, IHs.
        reflexivity.
Qed.

Lemma filter_all {A} (P : A -> bool) l :
  Forall (fun x => P x = true) l -> List.filter P l = l.
Proof.
  induction 1 as [|x l Hx _ IH]; simpl; [reflexivity|].
  rewrite Hx, IH. reflexivity.
Qed.

Lemma extractKeywords_join ts :
  Forall token ts -> NoDup ts -> extractKeywords (join_space ts) = ts.
Proof.
  intros Hts Hnd.
  destruct (join_tokens ts Hts) as (Hl & Hc & Hb & Hs).
  unfold extractKeywords.
  destruct (join_space ts) as [|u J] eqn:EJ.
  - destruct ts as [|t ts]; [reflexivity|].
    apply Forall_cons in Hts as [Ht _].
    destruct Ht as (_ & _ & _ & _ & Hlen & _).
    destruct ts; simpl in EJ; [subst t; discriminate|].
    destruct t; discriminate.
  - unfold lowered in Hl. rewrite Hl.
    rewrite (cleaned_replace_class _ Hc), (bracket_free_id _ Hb), Hs.
    rewrite filter_all, dedupe_id; [reflexivity|exact Hnd|].
    eapply Forall_impl; [exact Hts|].
    intros t Ht. apply Ht.
Qed.

(** C9.  Joining the extracted keywords with single spaces and
    extracting again gives the same keywords (in the same order, so the
    same set). *)
Theorem extractKeywords_idempotent text :
  extractKeywords (join_space (extractKeywords text)) = extractKeywords text.
Proof.
  apply extractKeywords_join.
  - apply Forall_forall. intros t. apply extractKeywords_token.
  - apply extractKeywords_NoDup.
Qed.

End Idempotence.

(** ** C5: the age of an upload and its freshness *)

Lemma digit_not_space u : is_digit u = true -> is_js_space u = false.
Proof. unfold is_digit, is_js_space. n_lia. Qed.

Lemma digit_basic u : is_digit u = true -> is_basic u = true.
Proof. unfold is_digit, is_basic. n_prop. lia. Qed.

Lemma digit_lower u : is_digit u = true -> ascii_lower u = u.
Proof.
  unfold is_digit, ascii_lower. intros Hu.
  replace ((0x41 <=? u) && (u <=? 0x5A)) with false; [reflexivity|].
  symmetry. n_prop. lia.
Qed.

Lemma take_digits_app ds rest :
  forallb is_digit ds = true ->
  match rest with u :: _ => is_digit u = false | [] => True end ->
  take_digits (ds ++ rest) = ds.
Proof.
  intros Hds Hrest. induction ds as [|d ds IH]; simpl.
  - destruct rest as [|u rest]; [reflexivity|]. simpl. rewrite Hrest.
    reflexivity.
  - simpl in Hds. apply andb_true_iff in Hds as [Hd Hds].
    rewrite Hd, IH by exact Hds. reflexivity.
Qed.

Lemma match_digits_app ds rest :
  ds <> [] -> forallb is_digit ds = true ->
  match rest with u :: _ => is_digit u = false | [] => True end ->
  match_digits (ds ++ rest) = Some ds.
Proof.
  intros Hne Hds Hrest. destruct ds as [|d ds]; [congruence|].
  pose proof (take_digits_app (d :: ds) rest Hds Hrest) as E.
  simpl in Hds. apply andb_true_iff in Hds as [Hd _].
  simpl in *. rewrite Hd in *. f_equal. exact E.
Qed.

Lemma parseInt_digits ds :
  ds <> [] -> forallb is_digit ds = true ->
  parseInt ds = Some (Z.of_N (digits_value ds)).
Proof.
  intros Hne Hds. destruct ds as [|d ds]; [congruence|].
  pose proof (take_digits_app (d :: ds) [] Hds I) as E.
  rewrite app_nil_r in E.
  pose proof Hds as Hd. simpl in Hd. apply andb_true_iff in Hd as [Hd _].
  unfold parseInt. simpl skip_space. rewrite (digit_not_space d Hd).
  replace (d =? 0x2D) with false
    by (symmetry; unfold is_digit in Hd; n_prop; lia).
  replace (d =? 0x2B) with false
    by (symmetry; unfold is_digit in Hd; n_prop; lia).
  rewrite E. reflexivity.
Qed.

(** A marker that starts with no digit is not found in a run of
    digits before the text. *)
Lemma includes_after_digits ds s n needle :
  forallb is_digit ds = true -> is_digit n = false ->
  includes (ds ++ s) (n :: needle) = includes s (n :: needle).
Proof.
  intros Hds Hn. induction ds as [|d ds IH]; [reflexivity|].
  simpl in Hds. apply andb_true_iff in Hds as [Hd Hds].
  change ((d :: ds) ++ s) with (d :: (ds ++ s)).
  simpl includes at 1. rewrite IH by exact Hds.
  replace (n =? d) with false; [reflexivity|].
  symmetry. apply N.eqb_neq. intros ->. congruence.
Qed.

Section Freshness.
Context `{Unicode} `{MathLib}.

Lemma lower_digits_marker ds marker :
  forallb is_digit ds = true -> forallb is_basic marker = true ->
  List.map ascii_lower marker = marker ->
  toLowerCase (ds ++ marker) = ds ++ marker.
Proof.
  intros Hds Hb Hm. rewrite lower_basic.
  - rewrite List.map_app, Hm. f_equal.
    clear Hm Hb. induction ds as [|d ds IH]; [reflexivity|].
    simpl in *. apply andb_true_iff in Hds as [Hd Hds].
    rewrite (digit_lower d Hd), IH by exact Hds. reflexivity.
  - rewrite forallb_app, Hb, andb_true_r.
    clear Hm Hb. induction ds as [|d ds IH]; [reflexivity|].
    simpl in *. apply andb_true_iff in Hds as [Hd Hds].
    rewrite (digit_basic d Hd), IH by exact Hds. reflexivity.
Qed.

(** The age of "<digits><marker>" for each marker of [parseUploadedAt]. *)
Lemma parseUploadedAt_marker ds marker n rest :
  ds <> [] -> forallb is_digit ds = true ->
  marker = n :: rest -> is_digit n = false ->
  forallb is_basic marker = true ->
  List.map ascii_lower marker = marker ->
  parseUploadedAt (ds ++ marker)
  = let num := Z.of_N (digits_value ds) in
    (if includes marker s_minutes || includes marker s_hours then 0
     else if includes marker s_days then num
     else if includes marker s_weeks then num * 7
     else if includes marker s_months then num * 30
     else if includes marker s_years then num * 365
     else 999)%Z.
Proof.
  intros Hne Hds Hm Hn Hb Hl. unfold parseUploadedAt.
  destruct (ds ++ marker) as [|u0 t0] eqn:E.
  { destruct ds; [congruence|discriminate]. }
  rewrite <- E. clear E.
  rewrite (lower_digits_marker ds marker Hds Hb Hl).
  rewrite match_digits_app; [|exact Hne|exact Hds|subst marker; exact Hn].
  rewrite (parseInt_digits ds Hne Hds). simpl default.
  unfold s_minutes, s_hours, s_days, s_weeks, s_months, s_years.
  rewrite !includes_after_digits by (exact Hds || reflexivity).
  reflexivity.
Qed.

Lemma freshness_stale d : (60 < d)%Z -> (freshness_of_days d == 0)%Q.
Proof.
  intros Hd. unfold freshness_of_days, Math_max.
  assert (1 - inject_Z d / 60 < 0)%Q as Hneg.
  { assert (60 < inject_Z d)%Q as Hq
      by (rewrite Zlt_Qlt in Hd; exact Hd).
    assert (inject_Z d / 60 == inject_Z d * (1 # 60))%Q as -> by field.
    lra. }
  destruct (Qle_bool 0 (1 - inject_Z d / 60)) eqn:E.
  - apply Qle_bool_iff in E. lra.
  - ring.
Qed.

End Freshness.

Section UploadAge.
Context `{Unicode} `{MathLib}.

Lemma parse_3_days : parseUploadedAt (utf16 "3日前") = 3%Z.
Proof.
  change (utf16 "3日前") with (utf16 "3" ++ s_days).
  unfold s_days at 1.
  erewrite parseUploadedAt_marker; try reflexivity. discriminate.
Qed.

Lemma parse_40_days : parseUploadedAt (utf16 "40日前") = 40%Z.
Proof.
  change (utf16 "40日前") with (utf16 "40" ++ s_days).
  unfold s_days at 1.
  erewrite parseUploadedAt_marker; try reflexivity. discriminate.
Qed.

(** C5, as amended.  A run of digits denoting N, followed by 分前 or
    時間前, is 0 days old; followed by 日前, N days; by 週間前, 7N; by
    か月前, 30N; by 年前, 365N, as long as that number of days is an
    integer that a JavaScript number holds exactly.  The empty string
    and a string with none of these markers are 999 days old.  So a
    video uploaded "3日前" is strictly fresher than one uploaded "40日前"
    (and scores strictly higher when the two differ in nothing else),
    and a video more than 60 days old has freshness at most 0. *)
Theorem upload_age_and_freshness :
  (forall ds, ds <> [] -> forallb is_digit ds = true ->
     let N := Z.of_N (digits_value ds) in
     parseUploadedAt (ds ++ utf16 "分前") = 0%Z
     /\ parseUploadedAt (ds ++ utf16 "時間前") = 0%Z
     /\ (exact_integer N -> parseUploadedAt (ds ++ utf16 "日前") = N)
     /\ (exact_integer (N * 7) ->
         parseUploadedAt (ds ++ utf16 "週間前") = (N * 7)%Z)
     /\ (exact_integer (N * 30) ->
         parseUploadedAt (ds ++ utf16 "か月前") = (N * 30)%Z)
     /\ (exact_integer (N * 365) ->
         parseUploadedAt (ds ++ utf16 "年前") = (N * 365)%Z))
  /\ parseUploadedAt [] = 999%Z
  /\ (forall s,
        existsb (includes (toLowerCase s))
          [utf16 "分前"; utf16 "時間前"; utf16 "日前"; utf16 "週間前";
           utf16 "か月前"; utf16 "年前"] = false ->
        parseUploadedAt s = 999%Z)
  /\ (forall v1 v2,
        uploadedAt v1 = utf16 "3日前" -> uploadedAt v2 = utf16 "40日前" ->
        (freshnessScore v2 < freshnessScore v1)%Q)
  /\ (forall profile v1 v2,
        uploadedAt v1 = utf16 "3日前" -> uploadedAt v2 = utf16 "40日前" ->
        title v1 = title v2 -> channelName v1 = channelName v2 ->
        descriptionSnippet v1 = descriptionSnippet v2 ->
        views v1 = views v2 ->
        (finalScore profile v2 < finalScore profile v1)%Q)
  /\ (forall v,
        (60 < parseUploadedAt (uploadedAt v))%Z ->
        (freshnessScore v <= 0)%Q).
Proof.
  assert (forall v1 v2,
            uploadedAt v1 = utf16 "3日前" -> uploadedAt v2 = utf16 "40日前" ->
            (freshnessScore v2 < freshnessScore v1)%Q) as Hfresh.
  { intros v1 v2 E1 E2. unfold freshnessScore.
    rewrite E1, E2, parse_3_days, parse_40_days.
    vm_compute. reflexivity. }
  split; [|split; [|split; [|split; [|split]]]].
  - intros ds Hne Hds N.
    change (utf16 "分前") with s_minutes. change (utf16 "時間前") with s_hours.
    change (utf16 "日前") with s_days. change (utf16 "週間前") with s_weeks.
    change (utf16 "か月前") with s_months. change (utf16 "年前") with s_years.
    repeat split.
    + unfold s_minutes at 1.
      erewrite parseUploadedAt_marker; try reflexivity; assumption.
    + unfold s_hours at 1.
      erewrite parseUploadedAt_marker; try reflexivity; assumption.
    + intros _. unfold s_days at 1.
      erewrite parseUploadedAt_marker; try reflexivity; assumption.
    + intros _. unfold s_weeks at 1.
      erewrite parseUploadedAt_marker; try reflexivity; assumption.
    + intros _. unfold s_months at 1.
      erewrite parseUploadedAt_marker; try reflexivity; assumption.
    + intros _. unfold s_years at 1.
      erewrite parseUploadedAt_marker; try reflexivity; assumption.
  - reflexivity.
  - intros s Hs. unfold parseUploadedAt. destruct s as [|u s]; [reflexivity|].
    change (utf16 "分前") with s_minutes in Hs.
    change (utf16 "時間前") with s_hours in Hs.
    change (utf16 "日前") with s_days in Hs.
    change (utf16 "週間前") with s_weeks in Hs.
    change (utf16 "か月前") with s_months in Hs.
    change (utf16 "年前") with s_years in Hs.
    simpl existsb in Hs. rewrite !orb_false_iff in Hs.
    destruct Hs as (-> & -> & -> & -> & -> & -> & _). reflexivity.
  - exact Hfresh.
  - intros profile v1 v2 E1 E2 Et Ec Ed Ev.
    pose proof (Hfresh v1 v2 E1 E2) as Hlt.
    unfold finalScore, relevanceScore, popularityScore, parsed_views,
      fullText.
    rewrite Et, Ec, Ed, Ev. lra.
  - intros v Hv. unfold freshnessScore.
    rewrite (freshness_stale _ Hv). lra.
Qed.

End UploadAge.

Lemma upload_age_and_freshness_witness :
  (finalScore (H := basic_unicode) (H0 := sample_math) music_lover
     stale_upload
   < finalScore (H := basic_unicode) (H0 := sample_math) music_lover
       fresh_upload)%Q.
Proof.
  exact (proj1 (proj2 (proj2 (proj2 (proj2
           (upload_age_and_freshness (H := basic_unicode)
              (H0 := sample_math))))))
           music_lover fresh_upload stale_upload
           eq_refl eq_refl eq_refl eq_refl eq_refl eq_refl).
Defined.

(** C5 fails on a text with a marker and no number.  "数日前" (a few
    days ago), "日前" and "２日前" (with a full-width digit) have no run
    of ASCII digits, so the number read is 0, and the marker 日前 makes
    the upload 0 days old, not 999: its freshness is the highest, 5,
    where that of a text that is not understood is 0. *)
Lemma marker_without_number_is_fresh :
  List.map (parseUploadedAt (H := basic_unicode))
    [utf16 "数日前"; utf16 "日前"; utf16 "２日前"] = [0; 0; 0]%Z
  /\ parseUploadedAt (H := basic_unicode) (uploadedAt undated_upload)
     <> 999%Z
  /\ (freshnessScore (H := basic_unicode) undated_upload == 5)%Q
  /\ (freshness_of_days 999 == 0)%Q.
Proof.
  split; [vm_compute; reflexivity|].
  split; [vm_compute; discriminate|].
  split; vm_compute; reflexivity.
Qed.

(** ** C4: the score *)

Lemma fold_left_weights (m : JsMap) ks acc :
  (fold_left
     (fun acc kw =>
        match map_get kw m with
        | Some w => (acc + w)%Q
        | None => acc
        end) ks acc
   == acc + sumQ (List.map (fun kw => or_zero (map_get kw m)) ks))%Q.
Proof.
  revert acc. induction ks as [|k ks IH]; intros acc; simpl; [ring|].
  rewrite IH. destruct (map_get k m); simpl; ring.
Qed.

Section Keywords.
Context `{Unicode}.

Lemma extractKeywords_raw text :
  extractKeywords text = dedupe (raw_keywords text).
Proof.
  destruct text as [|u text]; [|reflexivity].
  unfold raw_keywords. rewrite lower_nil. reflexivity.
Qed.

Lemma raw_keywords_space a b :
  raw_keywords (a ++ SPACE :: b) = raw_keywords a ++ raw_keywords b.
Proof.
  unfold raw_keywords.
  rewrite lower_space, replace_class_space.
  unfold replace_brackets at 1. rewrite List.map_app. simpl List.map.
  change (is_bracket SPACE) with false. cbv iota.
  fold (replace_brackets (replace_class (toLowerCase a))).
  fold (replace_brackets (replace_class (toLowerCase b))).
  rewrite split_ws_space by reflexivity.
  rewrite List.filter_app. reflexivity.
Qed.

Lemma alnum_words_cleaned s :
  forallb (fun u => is_ascii_alnum u || (u =? SPACE)) s = true -> cleaned s.
Proof.
  induction s as [|u s IH]; simpl; [constructor|].
  rewrite andb_true_iff, orb_true_iff. intros [[Hu|Hu] Hs].
  - apply cleaned_unit; [|apply IH, Hs].
    rewrite spzc_ascii, Hu; [reflexivity|].
    unfold is_ascii_alnum, is_digit in Hu. n_prop. lia.
  - apply N.eqb_eq in Hu. subst u. apply cleaned_space, IH, Hs.
Qed.

End Keywords.

Lemma sumQ_single k0 w ks :
  NoDup ks ->
  (sumQ (List.map (fun k => or_zero (map_get k [(k0, w)])) ks)
   == if bool_decide (k0 ∈ ks) then w else 0)%Q.
Proof.
  induction 1 as [|k ks Hk Hnd IH]; simpl; [reflexivity|].
  rewrite IH. unfold jseqb.
  destruct (decide (k = k0)) as [->|Hne].
  - rewrite bool_decide_true by reflexivity.
    rewrite (bool_decide_false (k0 ∈ ks)) by exact Hk.
    rewrite bool_decide_true by (apply elem_of_cons; left; reflexivity).
    simpl. ring.
  - rewrite bool_decide_false by exact Hne. simpl.
    destruct (decide (k0 ∈ ks)) as [Hin|Hnin].
    + rewrite !bool_decide_true;
        [ring|apply elem_of_cons; right; exact Hin|exact Hin].
    + rewrite !bool_decide_false; [ring| |exact Hnin].
      rewrite elem_of_cons. intros [->|?]; tauto.
Qed.

Section Score.
Context `{Unicode} `{MathLib}.

Lemma relevanceScore_sum profile v :
  (relevanceScore profile v == relevance profile v)%Q.
Proof.
  unfold relevanceScore, relevance, fullText, profile_weight.
  rewrite fold_left_weights, dedupe_id by apply extractKeywords_NoDup.
  ring.
Qed.

Lemma music_video_relevance v :
  title v = utf16 "music video" ->
  (relevanceScore music_lover v == 5)%Q.
Proof.
  intros Et. rewrite relevanceScore_sum. unfold relevance, profile_weight.
  simpl keywords. rewrite sumQ_single by apply extractKeywords_NoDup.
  rewrite bool_decide_true; [reflexivity|].
  rewrite extractKeywords_raw. apply dedupe_elem.
  rewrite lower_space, raw_keywords_space, Et.
  apply elem_of_app. left.
  unfold raw_keywords.
  rewrite lower_idem, (lower_basic (utf16 "music video")) by reflexivity.
  change (List.map ascii_lower (utf16 "music video"))
    with (utf16 "music video").
  rewrite cleaned_replace_class by (apply alnum_words_cleaned; reflexivity).
  apply elem_of_cons. left. reflexivity.
Qed.

Lemma parse_2_days : parseUploadedAt (utf16 "2日前") = 2%Z.
Proof.
  change (utf16 "2日前") with (utf16 "2" ++ s_days).
  unfold s_days at 1.
  erewrite parseUploadedAt_marker; try reflexivity. discriminate.
Qed.

(** C4.  The final score is 1.5 times the relevance plus 0.3 times the
    popularity plus 1.0 times the freshness: the relevance is the sum
    of the profile's weights of the keywords of title, channel name
    and description; the popularity is log10 of the parsed views plus
    one, 0 when there are none to parse; the freshness is
    max(0, 1 - daysAgo/60) * 5.  Every candidate that survives the
    filter is given this score.  For the profile {"music": 5.0}, a
    candidate titled "music video", with 1,000,000 views, uploaded
    "2日前", scores 1.5*5 + 0.3*log10(1000001) + (1 - 2/60)*5, which
    is 14.13 to two places when log10(1000001) is between 6 and
    6.001. *)
Theorem final_score_formula :
  (forall profile v,
     (finalScore profile v
      == (15 # 10) * relevance profile v + (3 # 10) * popularity v
         + 1 * freshness v)%Q)
  /\ (forall profile context seenIds videos s,
        s ∈ score_loop profile context seenIds videos ->
        score s = finalScore profile (video s))
  /\ (forall v,
        title v = utf16 "music video" ->
        List.filter is_digit (views v) = utf16 "1000000" ->
        uploadedAt v = utf16 "2日前" ->
        (finalScore music_lover v
         == (15 # 10) * 5 + (3 # 10) * Math_log10 1000001
            + 1 * ((1 - 2 / 60) * 5))%Q
        /\ ((6 <= Math_log10 1000001 <= 6 + 1 / 1000)%Q ->
            (1413 # 100 <= finalScore music_lover v < 1414 # 100)%Q)).
Proof.
  split; [|split].
  - intros profile v. unfold finalScore.
    rewrite relevanceScore_sum.
    unfold popularityScore, popularity, parsed_views, freshnessScore,
      freshness, freshness_of_days.
    ring.
  - intros profile context seenIds videos s Hs.
    apply score_loop_elem in Hs. apply Hs.
  - intros v Et Ev Eu.
    assert (finalScore music_lover v
            == (15 # 10) * 5 + (3 # 10) * Math_log10 1000001
               + 1 * ((1 - 2 / 60) * 5))%Q as E.
    { unfold finalScore. rewrite (music_video_relevance v Et).
      unfold popularityScore, parsed_views, freshnessScore.
      rewrite Ev, Eu, parse_2_days.
      change (parseInt (utf16 "1000000")) with (Some 1000000%Z).
      setoid_replace (inject_Z 1000000 + 1)%Q with 1000001%Q
        using relation Qeq by reflexivity.
      setoid_replace (freshness_of_days 2) with ((1 - 2 / 60) * 5)%Q
        using relation Qeq by reflexivity.
      ring. }
    split; [exact E|].
    intros [Hlo Hhi]. rewrite E.
    setoid_replace (6 + 1 / 1000)%Q with (6001 # 1000)%Q
      using relation Qeq in Hhi by reflexivity.
    setoid_replace (1 * ((1 - 2 / 60) * 5))%Q with (29 # 6)%Q
      using relation Qeq by reflexivity.
    split; lra.
Qed.

End Score.

Lemma final_score_formula_witness :
  (1413 # 100
   <= finalScore (H := basic_unicode) (H0 := sample_math) music_lover
        music_video
   < 1414 # 100)%Q.
Proof.
  refine (proj2 (proj2 (proj2 (final_score_formula (H := basic_unicode)
                                 (H0 := sample_math)))
                   music_video eq_refl _ eq_refl) _).
  - vm_compute. reflexivity.
  - split; vm_compute; discriminate.
Defined.

(** ** C6: the user profile *)

Lemma map_get_set k k' v m :
  map_get k (map_set k' v m) = if jseqb k k' then Some v else map_get k m.
Proof.
  induction m as [|[k0 v0] m IH]; simpl.
  - reflexivity.
  - destruct (jseqb k' k0) eqn:E; simpl.
    + apply jseqb_eq in E. subst k0. destruct (jseqb k k'); reflexivity.
    + rewrite IH. destruct (jseqb k k0) eqn:E0; [|reflexivity].
      apply jseqb_eq in E0. subst k0.
      unfold jseqb in *. rewrite bool_decide_false; [reflexivity|].
      apply bool_decide_eq_false in E. congruence.
Qed.

Lemma add_weights kw w ks m :
  NoDup ks ->
  (or_zero
     (map_get kw
        (fold_left
           (fun m k => map_set k (or_zero (map_get k m) + w)%Q m) ks m))
   == or_zero (map_get kw m) + (if bool_decide (kw ∈ ks) then 1 else 0) * w)%Q.
Proof.
  intros Hnd. revert m.
  induction Hnd as [|k ks Hk Hnd IH]; intros m; simpl.
  - ring.
  - rewrite IH, map_get_set. unfold jseqb.
    destruct (decide (kw = k)) as [->|Hne].
    + rewrite bool_decide_true by reflexivity.
      rewrite (bool_decide_false (k ∈ ks)) by exact Hk.
      rewrite bool_decide_true by (apply elem_of_cons; left; reflexivity).
      simpl. ring.
    + rewrite bool_decide_false by exact Hne.
      destruct (decide (kw ∈ ks)) as [Hin|Hnin].
      * rewrite !bool_decide_true;
          [ring|apply elem_of_cons; right; exact Hin|exact Hin].
      * rewrite !bool_decide_false; [ring| |exact Hnin].
        rewrite elem_of_cons. tauto.
Qed.

Section ProfileFacts.
Context `{Unicode} `{MathLib}.

Lemma addKeywords_weight kw text w m :
  (or_zero (map_get kw (addKeywords text w m))
   == or_zero (map_get kw m) + mentions kw text * w)%Q.
Proof.
  unfold addKeywords, mentions.
  rewrite add_weights by apply extractKeywords_NoDup. reflexivity.
Qed.

Lemma add_searches_weight kw terms index m :
  (or_zero (map_get kw (add_searches index terms m))
   == or_zero (map_get kw m)
      + sumQ
          (imap
             (fun i term =>
                mentions kw term
                * (3 * Math_exp (- inject_Z (Z.of_nat (index + i)) / 5)))
             terms))%Q.
Proof.
  revert index m. induction terms as [|term terms IH]; intros index m; simpl.
  - ring.
  - rewrite IH, addKeywords_weight. unfold search_weight.
    rewrite Nat.add_0_r.
    rewrite (imap_ext (compose _ S)
               (fun i term =>
                  mentions kw term
                  * (3 * Math_exp (- inject_Z (Z.of_nat (S index + i)) / 5)))%Q
               terms).
    + ring.
    + intros i x _. simpl. rewrite Nat.add_succ_r. reflexivity.
Qed.

Lemma add_watched_weight kw vs index m :
  (or_zero (map_get kw (add_watched index vs m))
   == or_zero (map_get kw m)
      + sumQ
          (imap
             (fun i v =>
                mentions kw (title v)
                * (2 * Math_exp (- inject_Z (Z.of_nat (index + i)) / 10))
                + mentions kw (channelName v)
                  * ((8 # 10)
                     * (2 * Math_exp (- inject_Z (Z.of_nat (index + i)) / 10)))
                + mentions kw (or_empty (descriptionSnippet v))
                  * ((5 # 10)
                     * (2 * Math_exp (- inject_Z (Z.of_nat (index + i)) / 10))))
             vs))%Q.
Proof.
  revert index m. induction vs as [|v vs IH]; intros index m; simpl.
  - ring.
  - rewrite IH. unfold add_video. rewrite !addKeywords_weight.
    unfold watch_weight. rewrite Nat.add_0_r.
    rewrite (imap_ext (compose _ S)
               (fun i v =>
                  mentions kw (title v)
                  * (2 * Math_exp (- inject_Z (Z.of_nat (S index + i)) / 10))
                  + mentions kw (channelName v)
                    * ((8 # 10)
                       * (2 * Math_exp
                                (- inject_Z (Z.of_nat (S index + i)) / 10)))
                  + mentions kw (or_empty (descriptionSnippet v))
                    * ((5 # 10)
                       * (2 * Math_exp
                                (- inject_Z (Z.of_nat (S index + i)) / 10))))%Q
               vs).
    + ring.
    + intros i x _. simpl. rewrite Nat.add_succ_r. reflexivity.
Qed.

Lemma add_subscriptions_weight kw cs m :
  (or_zero (map_get kw (add_subscriptions cs m))
   == or_zero (map_get kw m)
      + sumQ (List.map (fun c => mentions kw (name c) * (15 # 10)) cs))%Q.
Proof.
  unfold add_subscriptions. revert m.
  induction cs as [|c cs IH]; intros m; simpl.
  - ring.
  - rewrite IH, addKeywords_weight. ring.
Qed.

(** C6.  The weight of every keyword in the profile is the sum of
    3.0*exp(-i/5) over the search terms (at position i) that mention
    it, of 2.0*exp(-i/10) over the watched videos whose title mentions
    it, 0.8 times that over those whose channel name does and 0.5 times
    that over those whose description does, and of 1.5 over the
    subscribed channels whose name mentions it. *)
Theorem buildUserProfile_weights sources kw :
  (profile_weight (buildUserProfile sources) kw == profile_spec sources kw)%Q.
Proof.
  unfold profile_weight, buildUserProfile, profile_spec. simpl keywords.
  rewrite add_subscriptions_weight, add_watched_weight, add_searches_weight.
  simpl map_get. unfold or_zero at 1. simpl default. cbn [Nat.add]. ring.
Qed.

End ProfileFacts.

(** ** C8: the negative-keyword threshold of the ratio-mix filters *)

Section NegativeKeywords.
Context `{Unicode}.

Lemma negativeScore_penalty negativeKeywords v :
  RatioMix.negativeScore negativeKeywords v
  = keyword_penalty negativeKeywords v.
Proof.
  unfold RatioMix.negativeScore, keyword_penalty, keyword_weights.
  generalize (extractKeywords (title v) ++ extractKeywords (channelName v)).
  generalize (double_of_Z 0).
  intros acc ks. revert acc.
  induction ks as [|k ks IH]; intros acc; [reflexivity|].
  cbn [fold_left]. rewrite IH. clear IH.
  change (omap (fun k => negativeKeywords !! k) (k :: ks))
    with (match negativeKeywords !! k with
          | Some w => w :: omap (fun k => negativeKeywords !! k) ks
          | None => omap (fun k => negativeKeywords !! k) ks
          end).
  destruct (negativeKeywords !! k) as [w|]; reflexivity.
Qed.

(** C8, as amended.  A candidate that the earlier checks of a ratio-mix
    filter let through (its id not seen, no NG keyword in its text, its
    channel not blocked) is dropped when its penalty, the weights of
    its keywords added one after the other in double precision, is
    greater than 2, and kept when it is not, in the filter of the main
    feed and in the filter of the short-form feed. *)
Theorem negative_keyword_threshold sources seenIds v videos :
  id v ∉ seenIds ->
  RatioMix.has_ngKeyword (RatioMix.rs_ngKeywords sources) v = false ->
  channelId v ∉ RatioMix.ngChannelIds sources ->
  let penalty := keyword_penalty (RatioMix.rs_negativeKeywords sources) v in
  let rest := RatioMix.filterAndDedupe sources ({[ id v ]} ∪ seenIds) videos in
  let shorts_rest :=
    RatioMix.shorts_filterAndDedupe sources ({[ id v ]} ∪ seenIds) videos in
  (double_gt penalty (double_of_Z 2) = true ->
     RatioMix.filterAndDedupe sources seenIds (v :: videos) = rest)
  /\ (double_gt penalty (double_of_Z 2) = false ->
        RatioMix.filterAndDedupe sources seenIds (v :: videos)
        = (v :: rest.1, rest.2))
  /\ (id v ∉ RatioMix.historyIds sources ->
      id v ∉ RatioMix.hiddenVideoIdsSet sources ->
      (double_gt penalty (double_of_Z 2) = true ->
         RatioMix.shorts_filterAndDedupe sources seenIds (v :: videos)
         = RatioMix.shorts_filterAndDedupe sources seenIds videos)
      /\ (double_gt penalty (double_of_Z 2) = false ->
            RatioMix.shorts_filterAndDedupe sources seenIds (v :: videos)
            = (v :: shorts_rest.1, shorts_rest.2))).
Proof.
  intros Hseen Hng Hch penalty rest shorts_rest.
  pose proof (negativeScore_penalty (RatioMix.rs_negativeKeywords sources) v)
    as Hp. fold penalty in Hp.
  split; [|split].
  - intros Hgt. cbn [RatioMix.filterAndDedupe].
    rewrite bool_decide_false by exact Hseen.
    fold rest. destruct rest as [r s'].
    rewrite Hng, bool_decide_false by exact Hch.
    rewrite Hp, Hgt. reflexivity.
  - intros Hle. cbn [RatioMix.filterAndDedupe].
    rewrite bool_decide_false by exact Hseen.
    fold rest. destruct rest as [r s'].
    rewrite Hng, bool_decide_false by exact Hch.
    rewrite Hp, Hle. reflexivity.
  - intros Hhist Hhid. split.
    + intros Hgt. cbn [RatioMix.shorts_filterAndDedupe].
      rewrite !bool_decide_false by assumption. cbn [orb].
      rewrite Hng, Hp, Hgt. reflexivity.
    + intros Hle. cbn [RatioMix.shorts_filterAndDedupe].
      rewrite !bool_decide_false by assumption. cbn [orb].
      rewrite Hng, Hp, Hle.
      fold shorts_rest. destruct shorts_rest as [r s']. reflexivity.
Qed.

End NegativeKeywords.

Lemma negative_keyword_threshold_witness :
  RatioMix.filterAndDedupe (H := basic_unicode) song_hater ∅
    [sample_video "a" "Song A" "UC1" "Band"]
  = ([], {[ utf16 "a" ]} ∪ ∅).
Proof.
  refine (proj1 (negative_keyword_threshold (H := basic_unicode)
                   song_hater ∅ (sample_video "a" "Song A" "UC1" "Band") []
                   _ _ _) _).
  - apply not_elem_of_empty.
  - reflexivity.
  - apply not_elem_of_empty.
  - vm_compute. reflexivity.
Defined.

(** C8 fails on the rounding of the additions.  The weights 1.0, 0.6,
    0.1, 0.1 and 0.2 of the five keywords of a title are doubles whose
    sum is exactly 2, which does not exceed the threshold; added one
    after the other they give 2.0000000000000004, and both filters
    drop the video, which no other check rejects. *)
Lemma rounding_rejects_penalty_two :
  keyword_weights (H := basic_unicode)
    (RatioMix.rs_negativeKeywords five_weights) five_words
  = [double_of_Z 1; double_div 6 10; double_div 1 10; double_div 1 10;
     double_div 2 10]
  /\ (exact_penalty (H := basic_unicode)
        (RatioMix.rs_negativeKeywords five_weights) five_words == 2)%Q
  /\ RatioMix.negativeScore (H := basic_unicode)
       (RatioMix.rs_negativeKeywords five_weights) five_words
     = S754_finite false 4503599627370497 (-51)
  /\ RatioMix.has_ngKeyword (H := basic_unicode)
       (RatioMix.rs_ngKeywords five_weights) five_words = false
  /\ channelId five_words ∉ RatioMix.ngChannelIds five_weights
  /\ id five_words ∉ RatioMix.hiddenVideoIdsSet five_weights
  /\ id five_words ∉ RatioMix.historyIds five_weights
  /\ (RatioMix.filterAndDedupe (H := basic_unicode) five_weights ∅
        [five_words]).1 = []
  /\ (RatioMix.shorts_filterAndDedupe (H := basic_unicode) five_weights ∅
        [five_words]).1 = [].
Proof.
  split; [vm_compute; reflexivity|].
  split; [vm_compute; reflexivity|].
  split; [vm_compute; reflexivity|].
  split; [vm_compute; reflexivity|].
  split; [apply not_elem_of_empty|].
  split; [apply not_elem_of_empty|].
  split; [apply not_elem_of_empty|].
  split; vm_compute; reflexivity.
Qed.

(** ** C7: a failing source call *)

Lemma caught_promise {A B} (p : outcome A) (f : A -> list B) :
  catch_ (then_ p f) []
  = Fulfilled match p with Fulfilled a => f a | Rejected => [] end.
Proof. destruct p; reflexivity. Qed.

Lemma Promise_all_caught {A B} (call : A -> outcome (list B)) xs :
  Promise_all (List.map (fun x => catch_ (call x) []) xs)
  = Fulfilled
      (List.map
         (fun x => match call x with Fulfilled vs => vs | Rejected => [] end)
         xs).
Proof.
  induction xs as [|x xs IH]; simpl; [reflexivity|].
  rewrite IH. destruct (call x); reflexivity.
Qed.

Lemma flat_map_concat_map {A B} (f : A -> list B) xs :
  concat (List.map f xs) = flat_map f xs.
Proof.
  induction xs as [|x xs IH]; simpl; [reflexivity|]. rewrite IH. reflexivity.
Qed.

Section SourceFailures.
Context `{Unicode} `{MathLib} `{Catalog}.
Variable rnd : nat -> nat.

Lemma related_call_payload v :
  ProfileRank.related_call v
  = Fulfilled (take 15 (payload (RelatedOf (id v)))).
Proof.
  unfold ProfileRank.related_call, payload, response.
  destruct (getVideoDetails (id v)); reflexivity.
Qed.

Lemma search_call_payload q :
  ProfileRank.search_call q = Fulfilled (take 10 (payload (SearchFor q))).
Proof.
  unfold ProfileRank.search_call, payload, response.
  destruct (searchVideos q s_page1); reflexivity.
Qed.

Lemma channel_call_payload sub :
  ProfileRank.channel_call sub
  = Fulfilled (take 5 (payload (UploadsOf (ch_id sub)))).
Proof.
  unfold ProfileRank.channel_call, payload, response.
  destruct (getChannelVideos (ch_id sub)); reflexivity.
Qed.

Lemma fallback_call_payload :
  ProfileRank.fallback_call = Fulfilled (take 20 (payload Recommended)).
Proof.
  unfold ProfileRank.fallback_call, payload, response.
  destruct getRecommendedVideos; reflexivity.
Qed.

Lemma candidatePromises_issued k sources :
  ProfileRank.candidatePromises rnd k sources
  = List.map (fun c => Fulfilled (take (cap c) (payload c)))
             (issued_calls rnd k sources).
Proof.
  unfold ProfileRank.candidatePromises, issued_calls.
  destruct (ProfileRank.recentVideos rnd k sources) as [recent k1].
  destruct (ProfileRank.randomSubs rnd k1 sources) as [subs k2].
  rewrite !length_app, !List.length_map.
  rewrite (List.map_ext _ _ related_call_payload),
    (List.map_ext _ _ search_call_payload),
    (List.map_ext _ _ channel_call_payload), fallback_call_payload.
  destruct (_ <? 3)%nat; rewrite ?List.map_app, !List.map_map; reflexivity.
Qed.

Lemma collect_fulfilled (pools : list (list Video)) :
  ProfileRank.collect (List.map Fulfilled pools) = concat pools.
Proof.
  unfold ProfileRank.collect.
  induction pools as [|p pools IH]; simpl; [reflexivity|].
  rewrite IH. reflexivity.
Qed.

Lemma profile_rank_engine_feed k sources :
  ProfileRank.getXraiRecommendations rnd k sources
  = Fulfilled
      (take 50
         (rankVideos
            (flat_map (fun c => take (cap c) (payload c))
                      (issued_calls rnd k sources))
            (ProfileRank.userProfile sources)
            (ProfileRank.scoringContext sources))).
Proof.
  unfold ProfileRank.getXraiRecommendations, Promise_allSettled, await.
  rewrite candidatePromises_issued.
  rewrite <- (List.map_map (fun c => take (cap c) (payload c)) Fulfilled).
  rewrite collect_fulfilled, flat_map_concat_map. reflexivity.
Qed.

Lemma ratio_mix_engine_feed k sources :
  RatioMix.getXraiRecommendations rnd k sources
  = Fulfilled
      (RatioMix.mix_feed rnd (RatioMix.personalizedSeeds rnd k sources).2
         sources (payload Recommended)
         (flat_map (fun q => payload (SearchFor q))
                   (RatioMix.personalizedSeeds rnd k sources).1)).
Proof.
  unfold RatioMix.getXraiRecommendations.
  destruct (RatioMix.personalizedSeeds rnd k sources) as [qs k1].
  unfold RatioMix.search_call.
  rewrite (Promise_all_caught
             (fun q => then_ (searchVideos q s_page1) sr_videos)).
  unfold await, RatioMix.trending_call.
  rewrite caught_promise, flat_map_concat_map.
  unfold payload, response. simpl.
  destruct getRecommendedVideos; reflexivity.
Qed.

Lemma shorts_engine_feed k sources :
  exists k' popularShortsRaw personalizedShortsRaw,
    RatioMix.getXraiShorts rnd k sources
    = Fulfilled
        (RatioMix.mix_shorts rnd k' sources popularShortsRaw
           personalizedShortsRaw).
Proof.
  unfold RatioMix.getXraiShorts.
  destruct (RatioMix.shorts_seeds rnd k sources) as [qs k1].
  unfold RatioMix.popular_call, RatioMix.shorts_search_call.
  rewrite caught_promise.
  rewrite (Promise_all_caught
             (fun q =>
                then_ (searchVideos q s_page1)
                  (fun res =>
                     List.filter RatioMix.isShortVideo
                       (sr_videos res ++ sr_shorts res)))).
  simpl. eexists _, _, _. reflexivity.
Qed.

(** C7.  Whatever calls fail, [getXraiRecommendations] returns a feed,
    in both engines.  In the profile-rank engine the pool handed to
    [rankVideos] is, call by call in the order of issue, what each
    call contributes: the first 15 related videos, 10 search results,
    5 uploads or 20 recommendations of its response, a failed call
    giving none; in the ratio-mix engine the pools handed to the
    filter are the videos of each search response and of the
    recommended feed, a failed call giving none.  So every candidate
    that a call contributes reaches the filter, whichever other call
    fails. *)
Theorem source_failures_are_isolated k :
  (forall sources : ProfileRank.RecommendationSource,
     let calls := issued_calls rnd k sources in
     let pool := flat_map (fun c => take (cap c) (payload c)) calls in
     ProfileRank.getXraiRecommendations rnd k sources
     = Fulfilled
         (take 50
            (rankVideos pool (ProfileRank.userProfile sources)
               (ProfileRank.scoringContext sources)))
     /\ forall c, c ∈ calls ->
          (response c = Rejected -> payload c = [])
          /\ forall v, v ∈ take (cap c) (payload c) -> v ∈ pool)
  /\ (forall sources : RatioMix.RecommendationSource,
        let seeds := (RatioMix.personalizedSeeds rnd k sources).1 in
        let k' := (RatioMix.personalizedSeeds rnd k sources).2 in
        let personalized := flat_map (fun q => payload (SearchFor q)) seeds in
        let trending := payload Recommended in
        RatioMix.getXraiRecommendations rnd k sources
        = Fulfilled (RatioMix.mix_feed rnd k' sources trending personalized)
        /\ (response Recommended = Rejected -> trending = [])
        /\ forall q, q ∈ seeds ->
             (response (SearchFor q) = Rejected -> payload (SearchFor q) = [])
             /\ forall v, v ∈ payload (SearchFor q) -> v ∈ personalized).
Proof.
  split.
  - intros sources calls pool. split; [apply profile_rank_engine_feed|].
    intros c Hc. split.
    + unfold payload. intros ->. reflexivity.
    + intros v Hv. apply list_elem_of_In, in_flat_map.
      exists c. split; apply list_elem_of_In; assumption.
  - intros sources seeds k' personalized trending.
    split; [apply ratio_mix_engine_feed|]. split.
    + unfold trending, payload. intros ->. reflexivity.
    + intros q Hq. split.
      * unfold payload. intros ->. reflexivity.
      * intros v Hv. apply list_elem_of_In, in_flat_map.
        exists q. split; apply list_elem_of_In; assumption.
Qed.

End SourceFailures.

(** The isolation evaluated.  For a user who watched one video the
    profile-rank engine issues three calls; the two searches fail, the
    details of the watched video list sixteen related videos, and the
    pool handed to [rankVideos] is what the call for the details
    contributes, the first fifteen of them. *)
Example failed_searches_keep_related :
  issued_calls (H := basic_unicode) (H0 := sample_math)
    (fun _ => 0%nat) 0 one_watched
  = [RelatedOf (utf16 "w"); SearchFor (utf16 "song");
     SearchFor (utf16 "band")]
  /\ response (H := sixteen_related) (SearchFor (utf16 "song")) = Rejected
  /\ response (H := sixteen_related) (SearchFor (utf16 "band")) = Rejected
  /\ response (H := sixteen_related) (RelatedOf (utf16 "w"))
     = Fulfilled sixteen
  /\ ProfileRank.collect
       (ProfileRank.candidatePromises
          (H := basic_unicode) (H0 := sample_math) (H1 := sixteen_related)
          (fun _ => 0%nat) 0 one_watched)
     = take 15 sixteen.
Proof.
  split; [vm_compute; reflexivity|].
  split; [reflexivity|]. split; [reflexivity|]. split; [reflexivity|].
  vm_compute. reflexivity.
Qed.

(** ** The shuffle is a permutation *)

Lemma insert_perm {A} (l : list A) i x y :
  l !! i = Some y -> <[ i := x ]> l ≡ₚ x :: delete i l.
Proof.
  intros Hi. pose proof (lookup_lt_Some _ _ _ Hi) as Hlt.
  rewrite insert_take_drop by exact Hlt. rewrite delete_take_drop.
  symmetry. apply Permutation_middle.
Qed.

Lemma swap_perm {A} (a : list A) i j : swap i j a ≡ₚ a.
Proof.
  unfold swap.
  destruct (a !! i) as [x|] eqn:Hi; [|reflexivity].
  destruct (a !! j) as [y|] eqn:Hj; [|reflexivity].
  revert i j Hi Hj. induction a as [|h t IH]; intros i j Hi Hj.
  - rewrite lookup_nil in Hi. discriminate.
  - destruct i as [|i], j as [|j]; simpl in *.
    + injection Hi as <-. injection Hj as <-. reflexivity.
    + injection Hi as <-.
      etransitivity; [apply Permutation_skip, (insert_perm t j h y Hj)|].
      etransitivity; [apply Permutation_swap|].
      apply Permutation_skip. symmetry. apply delete_Permutation, Hj.
    + injection Hj as <-.
      etransitivity; [apply Permutation_skip, (insert_perm t i h x Hi)|].
      etransitivity; [apply Permutation_swap|].
      apply Permutation_skip. symmetry. apply delete_Permutation, Hi.
    + apply Permutation_skip, IH; assumption.
Qed.

Lemma shuffle_loop_perm {A} rnd k i (a : list A) :
  (shuffle_loop rnd k i a).1 ≡ₚ a.
Proof.
  revert k a. induction i as [|i IH]; intros k a; simpl; [reflexivity|].
  rewrite IH. apply swap_perm.
Qed.

Lemma shuffleArray_perm {A} rnd k (array : list A) :
  (shuffleArray rnd k array).1 ≡ₚ array.
Proof. apply shuffle_loop_perm. Qed.

(** ** The ratio-mix filters and feeds *)

Section RatioMixFacts.
Context `{Unicode}.

Lemma allowed_intro sources v :
  bool_decide (channelId v ∈ RatioMix.ngChannelIds sources) = false ->
  RatioMix.has_ngKeyword (RatioMix.rs_ngKeywords sources) v = false ->
  double_gt (RatioMix.negativeScore (RatioMix.rs_negativeKeywords sources) v)
    (double_of_Z 2)
  = false ->
  allowed sources v.
Proof.
  intros Hc Hk Hp. split; [apply bool_decide_eq_false in Hc; exact Hc|].
  split; [exact Hk|].
  rewrite <- negativeScore_penalty. exact Hp.
Qed.

Lemma filterAndDedupe_spec sources videos seenIds :
  let r := RatioMix.filterAndDedupe sources seenIds videos in
  (forall v, v ∈ r.1 -> v ∈ videos /\ (id v ∉ seenIds) /\ allowed sources v)
  /\ NoDup (List.map id r.1)
  /\ seenIds ⊆ r.2
  /\ (forall v, v ∈ r.1 -> id v ∈ r.2).
Proof.
  revert seenIds. induction videos as [|v videos IH]; intros seenIds; simpl.
  - split; [intros v Hv; apply elem_of_nil in Hv; destruct Hv|].
    split; [constructor|]. split; [reflexivity|].
    intros v Hv. apply elem_of_nil in Hv. destruct Hv.
  - destruct (bool_decide (id v ∈ seenIds)) eqn:Eseen.
    + destruct (IH seenIds) as (Hin & Hnd & Hsub & Hids).
      split; [|tauto].
      intros x Hx. destruct (Hin x Hx) as (? & ? & ?).
      split; [apply elem_of_cons; right; assumption|tauto].
    + apply bool_decide_eq_false in Eseen.
      destruct (IH ({[ id v ]} ∪ seenIds)) as (Hin & Hnd & Hsub & Hids).
      destruct (RatioMix.filterAndDedupe sources ({[ id v ]} ∪ seenIds) videos)
        as [rest seen'] eqn:Erest.
      simpl in Hin, Hnd, Hsub, Hids.
      assert (forall x, x ∈ rest ->
                x ∈ v :: videos /\ (id x ∉ seenIds) /\ allowed sources x)
        as Hrest.
      { intros x Hx. destruct (Hin x Hx) as (? & Hns & ?).
        split; [apply elem_of_cons; right; assumption|].
        split; [|assumption]. set_solver. }
      assert (seenIds ⊆ seen') as Hsub' by set_solver.
      destruct (RatioMix.has_ngKeyword _ v) eqn:Ek; [simpl; tauto|].
      destruct (bool_decide (channelId v ∈ _)) eqn:Ec; [simpl; tauto|].
      destruct (double_gt _ _) eqn:Ep; [simpl; tauto|].
      simpl. split; [|split; [|split]].
      * intros x Hx. apply elem_of_cons in Hx as [->|Hx]; [|auto].
        split; [apply elem_of_cons; left; reflexivity|].
        split; [exact Eseen|]. apply allowed_intro; assumption.
      * constructor; [|exact Hnd].
        intros Hbad.
        apply list_elem_of_In, in_map_iff in Hbad as (x & Hid & Hx).
        apply list_elem_of_In, Hin in Hx as (_ & Hns & _).
        apply Hns. rewrite Hid. set_solver.
      * exact Hsub'.
      * intros x Hx. apply elem_of_cons in Hx as [->|Hx]; [|auto].
        set_solver.
Qed.

Lemma shorts_filterAndDedupe_spec sources videos seenIds :
  let r := RatioMix.shorts_filterAndDedupe sources seenIds videos in
  (forall v, v ∈ r.1 ->
     v ∈ videos /\ (id v ∉ seenIds)
     /\ (id v ∉ RatioMix.historyIds sources)
     /\ (id v ∉ RatioMix.hiddenVideoIdsSet sources)
     /\ allowed sources v)
  /\ NoDup (List.map id r.1)
  /\ seenIds ⊆ r.2
  /\ (forall v, v ∈ r.1 -> id v ∈ r.2).
Proof.
  revert seenIds. induction videos as [|v videos IH]; intros seenIds; simpl.
  - split; [intros v Hv; apply elem_of_nil in Hv; destruct Hv|].
    split; [constructor|]. split; [reflexivity|].
    intros v Hv. apply elem_of_nil in Hv. destruct Hv.
  - assert (let r := RatioMix.shorts_filterAndDedupe sources seenIds videos in
            (forall x, x ∈ r.1 ->
               x ∈ v :: videos /\ (id x ∉ seenIds)
               /\ (id x ∉ RatioMix.historyIds sources)
               /\ (id x ∉ RatioMix.hiddenVideoIdsSet sources)
               /\ allowed sources x)
            /\ NoDup (List.map id r.1) /\ seenIds ⊆ r.2
            /\ (forall x, x ∈ r.1 -> id x ∈ r.2)) as Hskip.
    { destruct (IH seenIds) as (Hin & Hnd & Hsub & Hids).
      split; [|tauto].
      intros x Hx. destruct (Hin x Hx) as (? & ?).
      split; [apply elem_of_cons; right; assumption|assumption]. }
    destruct (bool_decide (id v ∈ RatioMix.historyIds sources)) eqn:Eh;
      [exact Hskip|].
    destruct (bool_decide (id v ∈ RatioMix.hiddenVideoIdsSet sources)) eqn:Ehid;
      [exact Hskip|].
    destruct (bool_decide (id v ∈ seenIds)) eqn:Eseen; [exact Hskip|].
    simpl.
    destruct (RatioMix.has_ngKeyword _ v) eqn:Ek; [exact Hskip|].
    destruct (bool_decide (channelId v ∈ _)) eqn:Ec; [exact Hskip|].
    destruct (double_gt _ _) eqn:Ep; [exact Hskip|].
    clear Hskip.
    apply bool_decide_eq_false in Eh, Ehid, Eseen.
    destruct (IH ({[ id v ]} ∪ seenIds)) as (Hin & Hnd & Hsub & Hids).
    destruct (RatioMix.shorts_filterAndDedupe sources ({[ id v ]} ∪ seenIds)
                videos) as [rest seen'] eqn:Erest.
    simpl in Hin, Hnd, Hsub, Hids. simpl.
    split; [|split; [|split]].
    + intros x Hx. apply elem_of_cons in Hx as [->|Hx].
      * split; [apply elem_of_cons; left; reflexivity|].
        repeat (split; [assumption|]). apply allowed_intro; assumption.
      * destruct (Hin x Hx) as (? & Hns & ?).
        split; [apply elem_of_cons; right; assumption|].
        split; [set_solver|assumption].
    + constructor; [|exact Hnd].
      intros Hbad.
      apply list_elem_of_In, in_map_iff in Hbad as (x & Hid & Hx).
      apply list_elem_of_In, Hin in Hx as (_ & Hns & _).
      apply Hns. rewrite Hid. set_solver.
    + set_solver.
    + intros x Hx. apply elem_of_cons in Hx as [->|Hx]; [|auto].
      set_solver.
Qed.

End RatioMixFacts.

Lemma trending_quota {A} (l : list A) :
  slice0 (Math_floor (RatioMix.TARGET_COUNT * RatioMix.TRENDING_RATIO)) l
  = take 20 l.
Proof. reflexivity. Qed.

Lemma personalized_quota {A} (l : list A) :
  slice0 (RatioMix.TARGET_COUNT
          - Math_floor (RatioMix.TARGET_COUNT * RatioMix.TRENDING_RATIO))%Q l
  = take 30 l.
Proof. reflexivity. Qed.

Lemma popular_quota {A} (l : list A) :
  slice0 (Math_floor (RatioMix.SHORTS_TARGET_COUNT * RatioMix.POPULAR_RATIO)) l
  = take 30 l.
Proof. reflexivity. Qed.

Lemma shorts_personalized_quota {A} (l : list A) :
  slice0 (RatioMix.SHORTS_TARGET_COUNT
          - Math_floor
              (RatioMix.SHORTS_TARGET_COUNT * RatioMix.POPULAR_RATIO))%Q l
  = take 10 l.
Proof. reflexivity. Qed.

Lemma elem_of_take {A} n (l : list A) x : x ∈ take n l -> x ∈ l.
Proof. intros Hx. eapply elem_of_sublist; [exact Hx|apply take_sublist]. Qed.

Lemma NoDup_ids_take n (l l' : list Video) :
  l ≡ₚ l' -> NoDup (List.map id l') -> NoDup (List.map id (take n l)).
Proof.
  intros Hp Hnd. rewrite <- List.firstn_map.
  apply (sublist_NoDup _ (List.map id l)); [|apply take_sublist].
  rewrite Hp. exact Hnd.
Qed.

(** Two quotas taken from shuffled pools and shuffled together. *)
Lemma mixed_feed {A} rnd k1 k2 k3 n1 n2 (pool1 pool2 : list A) :
  let feed :=
    (shuffleArray rnd k3
       (take n1 (shuffleArray rnd k1 pool1).1
        ++ take n2 (shuffleArray rnd k2 pool2).1)).1 in
  (forall x, x ∈ feed -> x ∈ pool1 \/ x ∈ pool2)
  /\ (length feed <= n1 + n2)%nat
  /\ exists part1 part2,
       feed ≡ₚ take n1 part1 ++ take n2 part2
       /\ part1 ≡ₚ pool1 /\ part2 ≡ₚ pool2.
Proof.
  intros feed.
  assert (feed ≡ₚ take n1 (shuffleArray rnd k1 pool1).1
                  ++ take n2 (shuffleArray rnd k2 pool2).1) as Hfeed
    by apply shuffleArray_perm.
  split; [|split].
  - intros x Hx. rewrite Hfeed in Hx.
    apply elem_of_app in Hx as [Hx|Hx]; apply elem_of_take in Hx;
      rewrite shuffleArray_perm in Hx; auto.
  - rewrite Hfeed, length_app, !length_take. lia.
  - eexists _, _. split; [exact Hfeed|].
    split; apply shuffleArray_perm.
Qed.

Section FeedInvariants.
Context `{Unicode}.
Variable rnd : nat -> nat.

(** The main feed of the ratio-mix engine: nothing hidden, blocked or
    penalised, no id twice, at most 50 videos. *)
Lemma mix_feed_invariants k sources trendingVideos personalizedCandidates :
  let feed :=
    RatioMix.mix_feed rnd k sources trendingVideos personalizedCandidates in
  (forall v, v ∈ feed ->
     (v ∈ trendingVideos \/ v ∈ personalizedCandidates)
     /\ (id v ∉ RatioMix.hiddenVideoIdsSet sources)
     /\ allowed sources v)
  /\ NoDup (List.map id feed)
  /\ (length feed <= 50)%nat.
Proof.
  unfold RatioMix.mix_feed.
  pose proof (filterAndDedupe_spec sources trendingVideos
                (RatioMix.hiddenVideoIdsSet sources)) as Ht.
  destruct (RatioMix.filterAndDedupe sources _ trendingVideos)
    as [cleanTrending seen1].
  pose proof (filterAndDedupe_spec sources personalizedCandidates seen1) as Hp.
  destruct (RatioMix.filterAndDedupe sources seen1 personalizedCandidates)
    as [cleanPersonalized seen2].
  simpl in Ht, Hp.
  destruct Ht as (Ht & Htnd & Htsub & Htids).
  destruct Hp as (Hp & Hpnd & _ & _).
  cbv beta zeta iota.
  unfold RatioMix.TARGET_COUNT, RatioMix.TRENDING_RATIO.
  change (slice0 (Math_floor (50 * (40 # 100)))) with (@take Video 20).
  change (slice0 (50 - Math_floor (50 * (40 # 100)))%Q) with (@take Video 30).
  pose proof (mixed_feed rnd k
                (shuffleArray rnd k cleanTrending).2
                (shuffleArray rnd (shuffleArray rnd k cleanTrending).2
                   cleanPersonalized).2
                20 30 cleanTrending cleanPersonalized) as Hmix.
  destruct (shuffleArray rnd k cleanTrending) as [st k1].
  simpl in Hmix.
  destruct (shuffleArray rnd k1 cleanPersonalized) as [sp k2].
  cbv zeta in Hmix. simpl in Hmix.
  destruct Hmix as (Hin & Hlen & p1 & p2 & Hfeed & Hp1 & Hp2).
  split; [|split; [|exact Hlen]].
  - intros v Hv. destruct (Hin v Hv) as [Hc|Hc].
    + destruct (Ht v Hc) as (? & ? & ?). tauto.
    + destruct (Hp v Hc) as (? & Hns & ?).
      split; [tauto|]. split; [set_solver|assumption].
  - rewrite Hfeed, List.map_app. apply NoDup_app.
    split; [eapply NoDup_ids_take; eassumption|].
    split; [|eapply NoDup_ids_take; eassumption].
    intros x Hx1 Hx2.
    apply list_elem_of_In, in_map_iff in Hx1 as (v & <- & Hv).
    apply list_elem_of_In, in_map_iff in Hx2 as (w & Hid & Hw).
    apply list_elem_of_In, elem_of_take in Hv, Hw.
    rewrite Hp1 in Hv. rewrite Hp2 in Hw.
    apply Htids in Hv. apply Hp in Hw as (_ & Hns & _).
    apply Hns. rewrite Hid. exact Hv.
Qed.

End FeedInvariants.

Section ShortsInvariants.
Context `{Unicode}.
Variable rnd : nat -> nat.

(** The short-form feed: at most 40 videos, none of them in the shorts
    history; and unless the filter leaves nothing (the fallback),
    nothing hidden, blocked or penalised and no id twice. *)
Lemma mix_shorts_invariants k sources popularShortsRaw personalizedShortsRaw :
  let feed :=
    RatioMix.mix_shorts rnd k sources popularShortsRaw personalizedShortsRaw in
  let cleanPopular :=
    RatioMix.shorts_filterAndDedupe sources ∅ popularShortsRaw in
  let cleanPersonalized :=
    RatioMix.shorts_filterAndDedupe sources cleanPopular.2
      personalizedShortsRaw in
  (length feed <= 40)%nat
  /\ (forall v, v ∈ feed ->
        (v ∈ popularShortsRaw \/ v ∈ personalizedShortsRaw)
        /\ (id v ∉ RatioMix.historyIds sources))
  /\ (cleanPopular.1 ++ cleanPersonalized.1 <> [] ->
      (forall v, v ∈ feed ->
         (id v ∉ RatioMix.hiddenVideoIdsSet sources) /\ allowed sources v)
      /\ NoDup (List.map id feed)).
Proof.
  unfold RatioMix.mix_shorts.
  pose proof (shorts_filterAndDedupe_spec sources popularShortsRaw ∅) as Hpop.
  destruct (RatioMix.shorts_filterAndDedupe sources ∅ popularShortsRaw)
    as [cleanPopular seen1].
  pose proof (shorts_filterAndDedupe_spec sources personalizedShortsRaw seen1)
    as Hper.
  cbv beta zeta iota. simpl fst. simpl snd.
  destruct (RatioMix.shorts_filterAndDedupe sources seen1 personalizedShortsRaw)
    as [cleanPersonalized seen2].
  simpl in Hpop, Hper. simpl fst.
  destruct Hpop as (Hpop & Hpopnd & _ & Hpopids).
  destruct Hper as (Hper & Hpernd & _ & _).
  unfold RatioMix.SHORTS_TARGET_COUNT, RatioMix.POPULAR_RATIO.
  change (slice0 (Math_floor (40 * (75 # 100)))) with (@take Video 30).
  change (slice0 (40 - Math_floor (40 * (75 # 100)))%Q) with (@take Video 10).
  pose proof (mixed_feed rnd k
                (shuffleArray rnd k cleanPopular).2
                (shuffleArray rnd (shuffleArray rnd k cleanPopular).2
                   cleanPersonalized).2
                30 10 cleanPopular cleanPersonalized) as Hmix.
  pose proof (shuffleArray_perm rnd k cleanPopular) as Hst.
  destruct (shuffleArray rnd k cleanPopular) as [st k1].
  simpl in Hmix, Hst.
  pose proof (shuffleArray_perm rnd k1 cleanPersonalized) as Hsp.
  destruct (shuffleArray rnd k1 cleanPersonalized) as [sp k2].
  cbv zeta in Hmix. simpl in Hmix, Hsp.
  destruct Hmix as (Hin & Hlen & p1 & p2 & Hfeed & Hp1 & Hp2).
  destruct (take 30 st ++ take 10 sp) as [|v0 rest] eqn:Efinal.
  - (* the fallback *)
    apply app_eq_nil in Efinal as [E1 E2].
    assert (cleanPopular = []) as ->.
    { destruct st; [|discriminate]. apply Permutation_nil. exact Hst. }
    assert (cleanPersonalized = []) as ->.
    { destruct sp; [|discriminate]. apply Permutation_nil. exact Hsp. }
    split; [rewrite length_take; lia|].
    split; [|intros Hne; destruct Hne; reflexivity].
    intros v Hv. apply elem_of_take in Hv.
    rewrite shuffleArray_perm in Hv.
    apply list_elem_of_In, filter_In in Hv as [Hv Hh].
    split; [left; apply list_elem_of_In, Hv|].
    apply negb_true_iff, bool_decide_eq_false in Hh. exact Hh.
  - split; [lia|]. split.
    + intros v Hv. destruct (Hin v Hv) as [Hc|Hc].
      * destruct (Hpop v Hc) as (? & _ & ? & _). tauto.
      * destruct (Hper v Hc) as (? & _ & ? & _). tauto.
    + intros _. split.
      * intros v Hv. destruct (Hin v Hv) as [Hc|Hc].
        -- destruct (Hpop v Hc) as (_ & _ & _ & ? & ?). tauto.
        -- destruct (Hper v Hc) as (_ & _ & _ & ? & ?). tauto.
      * rewrite Hfeed, List.map_app. apply NoDup_app.
        split; [eapply NoDup_ids_take; eassumption|].
        split; [|eapply NoDup_ids_take; eassumption].
        intros x Hx1 Hx2.
        apply list_elem_of_In, in_map_iff in Hx1 as (v & <- & Hv).
        apply list_elem_of_In, in_map_iff in Hx2 as (w & Hid & Hw).
        apply list_elem_of_In, elem_of_take in Hv, Hw.
        rewrite Hp1 in Hv. rewrite Hp2 in Hw.
        apply Hpopids in Hv. apply Hper in Hw as (_ & Hns & _).
        apply Hns. rewrite Hid. exact Hv.
Qed.

End ShortsInvariants.

(** ** The feeds of the three entry points *)

Section Feeds.
Context `{Unicode} `{MathLib} `{Catalog}.
Variable rnd : nat -> nat.

Lemma rankVideos_invariants videos profile context :
  let feed := rankVideos videos profile context in
  NoDup (List.map id feed)
  /\ forall v, v ∈ feed ->
       v ∈ videos /\ id v <> []
       /\ existsb (jseqb (channelId v)) (ngChannels context) = false
       /\ existsb (fun ng => includes (fullText v) (toLowerCase ng))
                  (ngKeywords context) = false.
Proof.
  intros feed. split.
  - unfold feed. rewrite rankVideos_diversify.
    set (scored := score_loop profile context _ videos).
    apply (sublist_NoDup _ (List.map id (List.map video (sort_desc score scored)))).
    + rewrite List.map_map, sort_desc_perm. apply score_loop_NoDup.
    + generalize (diversify_sublist MAX_FROM_SAME_CHANNEL []
                    (List.map video (sort_desc score scored))).
      generalize (List.map video (sort_desc score scored)).
      intros l. generalize (diversify MAX_FROM_SAME_CHANNEL [] l).
      intros l'. induction 1; simpl; constructor; assumption.
  - intros v Hv. apply rankVideos_scored in Hv as (s & Hs & <-).
    apply score_loop_elem in Hs. tauto.
Qed.

End Feeds.

Section FeedGuarantees.
Context `{Unicode} `{MathLib} `{Catalog}.
Variable rnd : nat -> nat.

(** X1.  Off the fallback of the short-form feed, no feed holds a hidden
    video or a video of a blocked channel: the main feed of the
    ratio-mix engine never, the short-form feed whenever its filter
    leaves a candidate, the profile-rank feed (which is given no hidden
    videos) no video of a blocked channel. *)
Theorem feeds_exclude_hidden_and_blocked k :
  (forall sources, exists feed,
     RatioMix.getXraiRecommendations rnd k sources = Fulfilled feed
     /\ forall v, v ∈ feed ->
          (id v ∉ RatioMix.hiddenVideoIdsSet sources)
          /\ (channelId v ∉ RatioMix.ngChannelIds sources))
  /\ (forall sources popularShortsRaw personalizedShortsRaw,
        let cleanPopular :=
          RatioMix.shorts_filterAndDedupe sources ∅ popularShortsRaw in
        let cleanPersonalized :=
          RatioMix.shorts_filterAndDedupe sources cleanPopular.2
            personalizedShortsRaw in
        cleanPopular.1 ++ cleanPersonalized.1 <> [] ->
        forall v,
          v ∈ RatioMix.mix_shorts rnd k sources popularShortsRaw
                personalizedShortsRaw ->
          (id v ∉ RatioMix.hiddenVideoIdsSet sources)
          /\ (channelId v ∉ RatioMix.ngChannelIds sources))
  /\ (forall sources, exists feed,
        ProfileRank.getXraiRecommendations rnd k sources = Fulfilled feed
        /\ forall v, v ∈ feed ->
             channelId v ∉ ProfileRank.rs_ngChannels sources).
Proof.
  split; [|split].
  - intros sources. eexists. split; [apply ratio_mix_engine_feed|].
    intros v Hv. apply mix_feed_invariants in Hv as (_ & Hh & Hc & _).
    split; assumption.
  - intros sources popular personalized cleanPopular cleanPersonalized Hne v Hv.
    destruct (mix_shorts_invariants rnd k sources popular personalized)
      as (_ & _ & Hok).
    destruct (Hok Hne) as (Hall & _).
    destruct (Hall v Hv) as (Hh & Hc & _). split; assumption.
  - intros sources. eexists. split; [apply profile_rank_engine_feed|].
    intros v Hv. apply elem_of_take in Hv.
    apply rankVideos_invariants in Hv as (_ & _ & Hc & _).
    intros Hin. apply list_elem_of_In in Hin.
    assert (existsb (jseqb (channelId v))
              (ngChannels (ProfileRank.scoringContext sources)) = true) as E.
    { apply existsb_exists. exists (channelId v).
      split; [exact Hin|apply jseqb_refl]. }
    congruence.
Qed.

(** X2.  Every feed keeps to its target count (50 for the main feeds,
    40 for the short-form feed, fallback included), and off the
    fallback no feed holds an id twice. *)
Theorem feeds_unique_and_bounded k :
  (forall sources, exists feed,
     ProfileRank.getXraiRecommendations rnd k sources = Fulfilled feed
     /\ NoDup (List.map id feed) /\ (length feed <= 50)%nat)
  /\ (forall sources, exists feed,
        RatioMix.getXraiRecommendations rnd k sources = Fulfilled feed
        /\ NoDup (List.map id feed) /\ (length feed <= 50)%nat)
  /\ (forall sources, exists feed,
        RatioMix.getXraiShorts rnd k sources = Fulfilled feed
        /\ (length feed <= 40)%nat)
  /\ (forall sources popularShortsRaw personalizedShortsRaw,
        let cleanPopular :=
          RatioMix.shorts_filterAndDedupe sources ∅ popularShortsRaw in
        let cleanPersonalized :=
          RatioMix.shorts_filterAndDedupe sources cleanPopular.2
            personalizedShortsRaw in
        cleanPopular.1 ++ cleanPersonalized.1 <> [] ->
        NoDup
          (List.map id
             (RatioMix.mix_shorts rnd k sources popularShortsRaw
                personalizedShortsRaw))).
Proof.
  split; [|split; [|split]].
  - intros sources. eexists. split; [apply profile_rank_engine_feed|].
    split; [|rewrite length_take; lia].
    destruct (rankVideos_invariants
                (flat_map (fun c => take (cap c) (payload c))
                          (issued_calls rnd k sources))
                (ProfileRank.userProfile sources)
                (ProfileRank.scoringContext sources)) as (Hnd & _).
    eapply NoDup_ids_take; [reflexivity|exact Hnd].
  - intros sources. eexists. split; [apply ratio_mix_engine_feed|].
    apply mix_feed_invariants.
  - intros sources.
    destruct (shorts_engine_feed rnd k sources) as (k' & pop & per & E).
    eexists. split; [exact E|]. apply mix_shorts_invariants.
  - intros sources popular personalized cleanPopular cleanPersonalized Hne.
    destruct (mix_shorts_invariants rnd k sources popular personalized)
      as (_ & _ & Hok).
    apply (Hok Hne).
Qed.

End FeedGuarantees.

(** ** C1 and C2: the fallback of the short-form feed *)

(** C1 at its failing input.  The recommended feed holds the hidden
    video and a video of the blocked channel, and nothing else: the
    filter rejects both, the mixed feed is empty, and the fallback
    returns both. *)
Lemma shorts_fallback_returns_hidden :
  RatioMix.getXraiShorts
    (H := basic_unicode) (H0 := recommending [hidden_short; blocked_short])
    (fun _ => 0%nat) 0 hiding_user
  = Fulfilled [blocked_short; hidden_short]
  /\ RatioMix.shorts_filterAndDedupe (H := basic_unicode) hiding_user ∅
       [hidden_short; blocked_short] = ([], ∅)
  /\ id hidden_short ∈ RatioMix.hiddenVideoIdsSet hiding_user
  /\ channelId blocked_short ∈ RatioMix.ngChannelIds hiding_user.
Proof.
  split; [vm_compute; reflexivity|].
  split; [vm_compute; reflexivity|].
  split; apply (bool_decide_unpack _); vm_compute; exact I.
Qed.

(** C2 at its failing input.  The recommended feed holds the hidden
    video twice: the filter rejects both copies, and the fallback
    returns both. *)
Lemma shorts_fallback_returns_duplicates :
  RatioMix.getXraiShorts
    (H := basic_unicode) (H0 := recommending [hidden_short; hidden_short])
    (fun _ => 0%nat) 0 hiding_user
  = Fulfilled [hidden_short; hidden_short]
  /\ ~ NoDup (List.map id [hidden_short; hidden_short]).
Proof.
  split; [vm_compute; reflexivity|].
  intros Hnd. apply NoDup_cons in Hnd as [Hnin _].
  apply Hnin. apply elem_of_cons. left. reflexivity.
Qed.

(** * Further properties of the engines, the endpoint and the pages *)

(** ** The endpoint and the pages evaluated *)

Example handler_sample :
  StreamApi.handler (H := working_host) (get_video "abc")
  = StreamApi.cors_headers
    ++ [StreamApi.ExistsSync (utf16 "/var/task/yt-dlp_linux");
        StreamApi.ChmodSync (utf16 "/var/task/yt-dlp_linux") 493;
        StreamApi.ExecFile (utf16 "/var/task/yt-dlp_linux")
          [utf16 "--proxy"; utf16 "http://ytproxy-siawaseok.duckdns.org:3007";
           utf16 "--no-cache-dir"; utf16 "--dump-json";
           utf16 "https://www.youtube.com/watch?v=abc"];
        StreamApi.Respond 200
          (StreamApi.Streams (StreamApi.Value (utf16 "u720")) (utf16 "mp4")
             [ {| StreamApi.quality := utf16 "720p";
                  StreamApi.container := StreamApi.Value (utf16 "mp4");
                  StreamApi.entry_url := StreamApi.Value (utf16 "u720") |};
               {| StreamApi.quality := utf16 "360p";
                  StreamApi.container := StreamApi.Value (utf16 "mp4");
                  StreamApi.entry_url := StreamApi.Value (utf16 "u360") |} ]
             (Some
                {| StreamApi.quality := utf16 "129kbps";
                   StreamApi.container := StreamApi.Value (utf16 "m4a");
                   StreamApi.entry_url := StreamApi.Value (utf16 "a128") |})
             (Some
                {| StreamApi.sep_video :=
                     {| StreamApi.quality := utf16 "1080p (映像のみ)";
                        StreamApi.container := StreamApi.Value (utf16 "mp4");
                        StreamApi.entry_url :=
                          StreamApi.Value (utf16 "v1080") |};
                   StreamApi.sep_audio :=
                     Some
                       {| StreamApi.quality := utf16 "129kbps (音声のみ)";
                          StreamApi.container :=
                            StreamApi.Value (utf16 "m4a");
                          StreamApi.entry_url :=
                            StreamApi.Value (utf16 "a128") |} |}))].
Proof. vm_compute. reflexivity. Qed.

(** The binary under [api/] is found and not used. *)
Example handler_misplaced_binary :
  StreamApi.handler (H := misplaced_host) (get_video "abc")
  = StreamApi.cors_headers
    ++ [StreamApi.ExistsSync (utf16 "/var/task/yt-dlp_linux");
        StreamApi.ExistsSync (utf16 "/var/task/api/yt-dlp_linux");
        StreamApi.ChmodSync (utf16 "/var/task/yt-dlp_linux") 493;
        StreamApi.ExecFile (utf16 "/var/task/yt-dlp_linux")
          [utf16 "--proxy"; utf16 "http://ytproxy-siawaseok.duckdns.org:3007";
           utf16 "--no-cache-dir"; utf16 "--dump-json";
           utf16 "https://www.youtube.com/watch?v=abc"];
        StreamApi.Respond 500
          (StreamApi.Failure (utf16 "動画情報の取得に失敗しました。")
             (Some (utf16 "spawn ENOENT")))].
Proof. vm_compute. reflexivity. Qed.

Example handler_no_video :
  StreamApi.handler (H := working_host)
    {| StreamApi.method := utf16 "GET";
       StreamApi.query_videoId := StreamApi.One [] |}
  = StreamApi.cors_headers
    ++ [StreamApi.Respond 400
          (StreamApi.Failure (utf16 "有効なVideo IDを指定してください。")
             None)].
Proof. vm_compute. reflexivity. Qed.

Example encodeURIComponent_sample :
  List.map (fun s => encodeURIComponent (utf16 s))
    ["a b&c=d"; "日本語"; "😀"]%string
  = List.map (fun s => Some (utf16 s))
      ["a%20b%26c%3Dd"; "%E6%97%A5%E6%9C%AC%E8%AA%9E"; "%F0%9F%98%80"]%string
  /\ encodeURIComponent [0xD83D] = None.
Proof. vm_compute. split; reflexivity. Qed.

Example orderedVideos_sample :
  List.map id
    (PlayerPage.orderedVideos (List.map utf16 ["b"; "x"; "a"; "b"]%string)
       two_songs)
  = List.map utf16 ["b"; "a"; "b"]%string.
Proof. vm_compute. reflexivity. Qed.

Example iframeSrc_sample :
  PlayerPage.iframeSrc (fun l => rev l) (Some (utf16 "b"))
    (Some (utf16 "?autoplay=1"))
    (Some {| PlayerPage.pl_id := utf16 "p";
             PlayerPage.videoIds := List.map utf16 ["a"; "b"]%string |})
    two_songs true true (Some (utf16 "b"))
  = utf16
      "https://www.youtubeeducation.com/embed/b?autoplay=1&playlist=b,a&loop=1".
Proof. vm_compute. reflexivity. Qed.

Example metaLine_sample :
  List.map
    (fun '(v, u) =>
       VideoCard.metaLine
         {| id := []; title := []; channelId := []; channelName := [];
            views := utf16 v; uploadedAt := utf16 u; duration := [];
            isoDuration := None; descriptionSnippet := None |})
    [("1,234 回視聴", "3日前"); ("視聴回数不明", "3日前"); ("1,234 回視聴", "");
     ("", "")]%string
  = List.map utf16 ["1,234 回視聴 • 3日前"; "3日前"; "1,234 回視聴"; ""]%string.
Proof. vm_compute. reflexivity. Qed.

(** ** The shuffle, the keywords, the order of the feed *)

Lemma shuffle_loop_cursor {A} rnd k i (a : list A) :
  (shuffle_loop rnd k i a).2 = (k + i)%nat.
Proof.
  revert k a. induction i as [|i IH]; intros k a; simpl.
  - lia.
  - rewrite IH. lia.
Qed.

(** X3.  Whatever [Math.random] returns, [shuffleArray] returns a
    permutation of its argument, of the same length; it draws one
    number for each element but the first, and leaves an array of at
    most one element as it is. *)
Theorem shuffleArray_permutes {A} rnd k (array : list A) :
  (shuffleArray rnd k array).1 ≡ₚ array
  /\ length (shuffleArray rnd k array).1 = length array
  /\ (shuffleArray rnd k array).2 = (k + (length array - 1))%nat
  /\ ((length array <= 1)%nat -> (shuffleArray rnd k array).1 = array).
Proof.
  pose proof (shuffleArray_perm rnd k array) as Hperm.
  repeat split.
  - exact Hperm.
  - now rewrite Hperm.
  - apply shuffle_loop_cursor.
  - intros Hlen. unfold shuffleArray.
    replace (length array - 1)%nat with 0%nat by lia. reflexivity.
Qed.

Section KeywordFacts.
Context `{Unicode}.

Lemma longer_than_1_length (w : jsstring) :
  longer_than_1 w = true <-> (2 <= length w)%nat.
Proof.
  destruct w as [|a [|b w]]; simpl; split; intros; try lia; try discriminate;
    reflexivity.
Qed.

(** X4.  [extractKeywords] returns no keyword twice, and every keyword
    it returns has at least two units, is no stop word and no number,
    is in lower case and holds no white space and none of the
    brackets and marks of the second replacement; the empty text has
    no keywords. *)
Theorem extractKeywords_wellformed text :
  extractKeywords [] = []
  /\ NoDup (extractKeywords text)
  /\ forall k, k ∈ extractKeywords text ->
       (2 <= length k)%nat
       /\ is_stop_word k = false
       /\ all_digits k = false
       /\ toLowerCase k = k
       /\ forall u, u ∈ k -> is_js_space u = false /\ is_bracket u = false.
Proof.
  split; [reflexivity|]. split; [apply extractKeywords_NoDup|].
  intros k Hk. apply extractKeywords_token in Hk.
  destruct Hk as (Hws & _ & Hlow & Hbr & Hlen & Hkw).
  split; [now apply longer_than_1_length|].
  unfold is_keyword in Hkw.
  destruct (is_stop_word k) eqn:Hstop; [discriminate|].
  destruct (all_digits k) eqn:Hdig; [discriminate|].
  repeat split; try reflexivity; try exact Hlow.
  - unfold nows in Hws. rewrite forallb_forall in Hws.
    apply negb_true_iff, Hws. now apply list_elem_of_In.
  - unfold bracket_free in Hbr. rewrite forallb_forall in Hbr.
    apply negb_true_iff, Hbr. now apply list_elem_of_In.
Qed.

Lemma extractKeywords_lower text :
  extractKeywords (toLowerCase text) = extractKeywords text.
Proof.
  destruct text as [|u text]; [now rewrite lower_nil|].
  unfold extractKeywords at 2.
  rewrite extractKeywords_raw. unfold raw_keywords.
  now rewrite lower_idem.
Qed.

Lemma extractKeywords_space a b k :
  k ∈ extractKeywords (a ++ SPACE :: b)
  <-> k ∈ extractKeywords a \/ k ∈ extractKeywords b.
Proof.
  rewrite !extractKeywords_raw, !dedupe_elem, raw_keywords_space.
  apply elem_of_app.
Qed.

End KeywordFacts.

Lemma descending_nil {A} (key : A -> Q) : descending key [].
Proof. intros i j x y _ Hi. now rewrite lookup_nil in Hi. Qed.

Lemma descending_sublist {A} (key : A -> Q) l1 l2 :
  l1 `sublist_of` l2 -> descending key l2 -> descending key l1.
Proof.
  induction 1 as [|x l1 l2 Hsub IH|x l1 l2 Hsub IH]; intros Hd.
  - exact Hd.
  - apply descending_cons in Hd as [Hx Hd].
    apply descending_cons. split; [|now apply IH].
    intros y Hy. apply Hx. eapply elem_of_sublist; eauto.
  - apply descending_cons in Hd as [_ Hd]. now apply IH.
Qed.

Lemma descending_fmap {A B} (f : A -> B) (key : B -> Q) (key' : A -> Q) l :
  (forall x, x ∈ l -> key (f x) = key' x) ->
  descending key' l -> descending key (List.map f l).
Proof.
  induction l as [|x l IH]; intros Hkey Hd; [apply descending_nil|].
  apply descending_cons in Hd as [Hx Hd].
  simpl. apply descending_cons. split.
  - intros y Hy. apply list_elem_of_fmap in Hy as (z & -> & Hz).
    rewrite (Hkey x), (Hkey z) by (rewrite elem_of_cons; auto).
    now apply Hx.
  - apply IH; [|exact Hd]. intros z Hz. apply Hkey. rewrite elem_of_cons; auto.
Qed.

Section Order.
Context `{Unicode} `{MathLib}.

(** X5.  The feed of [rankVideos] is in the order of the scores: no
    video stands behind one of a smaller final score. *)
Theorem rankVideos_sorted videos profile context :
  descending (finalScore profile) (rankVideos videos profile context).
Proof.
  rewrite rankVideos_diversify.
  eapply descending_sublist; [apply diversify_sublist|].
  eapply descending_fmap; [|apply sort_desc_descending].
  intros s Hs. rewrite sort_desc_perm in Hs.
  apply score_loop_elem in Hs. symmetry. apply Hs.
Qed.

End Order.

(** ** What the ranking keeps *)

Lemma count_channel_perm ch l1 l2 :
  l1 ≡ₚ l2 -> count_channel ch l1 = count_channel ch l2.
Proof.
  induction 1 as [|x l1 l2 _ IH|x y l|l1 l2 l3 _ IH1 _ IH2].
  - reflexivity.
  - rewrite !count_channel_cons. now rewrite IH.
  - rewrite !count_channel_cons. lia.
  - congruence.
Qed.

Lemma diversify_keeps cap admitted sorted v :
  v ∈ sorted ->
  (count_channel (channelId v) admitted + count_channel (channelId v) sorted
   <= cap)%nat ->
  v ∈ diversify cap admitted sorted.
Proof.
  revert admitted. induction sorted as [|w sorted IH]; intros admitted Hv Hcount.
  - now apply elem_of_nil in Hv.
  - rewrite count_channel_cons in Hcount. simpl.
    apply elem_of_cons in Hv as [->|Hv].
    + rewrite jseqb_refl in Hcount.
      destruct (Nat.ltb_spec (count_channel (channelId w) admitted) cap);
        [apply elem_of_cons; auto | lia].
    + destruct (Nat.ltb_spec (count_channel (channelId w) admitted) cap).
      * apply elem_of_cons; right. apply IH; [exact Hv|].
        rewrite count_channel_app, count_channel_cons.
        change (count_channel (channelId v) []) with 0%nat. lia.
      * apply IH; [exact Hv|]. lia.
Qed.

Section Completeness.
Context `{Unicode} `{MathLib}.

Lemma score_loop_sublist profile context seenIds videos :
  List.map video (score_loop profile context seenIds videos)
  `sublist_of` videos.
Proof.
  revert seenIds. induction videos as [|v videos IH]; intros seenIds; simpl.
  - constructor.
  - repeat case_match; simpl; try (apply sublist_cons, IH).
    apply sublist_skip, IH.
Qed.

Lemma score_loop_complete profile context seenIds videos v :
  NoDup (List.map id videos) ->
  v ∈ videos -> id v <> [] -> id v ∉ seenIds ->
  existsb (fun ng => includes (fullText v) (toLowerCase ng))
          (ngKeywords context) = false ->
  existsb (jseqb (channelId v)) (ngChannels context) = false ->
  v ∈ List.map video (score_loop profile context seenIds videos).
Proof.
  intros Hnd Hv Hid Hseen Hkw Hch. revert seenIds Hseen.
  induction videos as [|w videos IH]; intros seenIds Hseen.
  - now apply elem_of_nil in Hv.
  - simpl in Hnd. apply NoDup_cons in Hnd as [Hw Hnd].
    apply elem_of_cons in Hv as [->|Hv].
    + simpl. rewrite !bool_decide_false by assumption. simpl.
      rewrite Hkw, Hch. simpl. apply elem_of_cons; auto.
    + assert (id v <> id w) as Hne.
      { intros Heq. apply Hw. rewrite <- Heq.
        change (List.map id videos) with (id <$> videos).
        now apply list_elem_of_fmap_2. }
      simpl. repeat case_match; simpl;
        try (apply IH; assumption).
      apply elem_of_cons; right. apply IH; [assumption..|].
      set_solver.
Qed.

(** X6.  [rankVideos] drops nothing it does not have to: when the
    candidates have distinct ids, a candidate with an id, not yet
    watched, matching no NG keyword, of no NG channel, whose channel
    has at most three candidates, is in the feed. *)
Theorem rankVideos_keeps_allowed videos profile context v :
  NoDup (List.map id videos) ->
  v ∈ videos ->
  id v <> [] ->
  id v ∉ List.map id (watchHistory context) ->
  existsb (fun ng => includes (fullText v) (toLowerCase ng))
          (ngKeywords context) = false ->
  existsb (jseqb (channelId v)) (ngChannels context) = false ->
  (count_channel (channelId v) videos <= MAX_FROM_SAME_CHANNEL)%nat ->
  v ∈ rankVideos videos profile context.
Proof.
  intros Hnd Hv Hid Hwatched Hkw Hch Hcount.
  rewrite rankVideos_diversify.
  set (scored := score_loop _ _ _ _).
  assert (v ∈ List.map video scored) as Hin.
  { apply score_loop_complete; try assumption.
    now rewrite elem_of_list_to_set. }
  assert (List.map video (sort_desc score scored) ≡ₚ List.map video scored)
    as Hperm.
  { change (video <$> sort_desc score scored ≡ₚ video <$> scored).
    now rewrite sort_desc_perm. }
  apply diversify_keeps.
  - now rewrite Hperm.
  - change (count_channel (channelId v) []) with 0%nat. simpl.
    rewrite (count_channel_perm _ _ _ Hperm).
    etransitivity; [|exact Hcount].
    apply count_channel_sublist, score_loop_sublist.
Qed.

End Completeness.

Lemma rankVideos_keeps_allowed_witness :
  sample_video "b" "Song B" "UC1" "Band"
  ∈ rankVideos (H := basic_unicode) (H0 := sample_math) two_songs music_lover
      no_context.
Proof.
  apply rankVideos_keeps_allowed.
  - apply (bool_decide_unpack _). vm_compute. exact I.
  - apply (bool_decide_unpack _). vm_compute. exact I.
  - discriminate.
  - apply not_elem_of_nil.
  - reflexivity.
  - reflexivity.
  - vm_compute. lia.
Defined.

(** ** The keys of the profile *)

Lemma map_get_keys k (m : JsMap) :
  is_Some (map_get k m) <-> k ∈ List.map fst m.
Proof.
  induction m as [|[k' v] m IH]; simpl.
  - split; [intros [? ?]; discriminate | intros Hk; now apply elem_of_nil in Hk].
  - rewrite elem_of_cons. simpl. destruct (jseqb k k') eqn:Hkk.
    + apply jseqb_eq in Hkk. split; eauto.
    + apply jseqb_neq in Hkk. rewrite IH. tauto.
Qed.

Lemma map_set_keys k v (m : JsMap) :
  List.map fst (map_set k v m)
  = if bool_decide (k ∈ List.map fst m) then List.map fst m
    else List.map fst m ++ [k].
Proof.
  induction m as [|[k' v'] m IH]; simpl.
  - reflexivity.
  - destruct (jseqb k k') eqn:Hkk.
    + apply jseqb_eq in Hkk as ->. simpl.
      rewrite bool_decide_true by (apply elem_of_cons; auto). reflexivity.
    + apply jseqb_neq in Hkk. simpl. rewrite IH.
      destruct (bool_decide (k ∈ List.map fst m)) eqn:Hin.
      * apply bool_decide_eq_true in Hin.
        rewrite bool_decide_true by (apply elem_of_cons; auto). reflexivity.
      * apply bool_decide_eq_false in Hin.
        rewrite bool_decide_false; [reflexivity|].
        rewrite elem_of_cons. tauto.
Qed.

Lemma map_set_NoDup k v (m : JsMap) :
  NoDup (List.map fst m) -> NoDup (List.map fst (map_set k v m)).
Proof.
  intros Hnd. rewrite map_set_keys. case_bool_decide as Hin; [exact Hnd|].
  apply NoDup_app. split; [exact Hnd|]. split.
  - intros x Hx Hx'. apply list_elem_of_singleton in Hx' as ->. auto.
  - apply NoDup_singleton.
Qed.

Lemma map_set_elem k v (m : JsMap) k' :
  k' ∈ List.map fst (map_set k v m) <-> k' = k \/ k' ∈ List.map fst m.
Proof.
  rewrite map_set_keys. case_bool_decide as Hin.
  - split; [auto|]. intros [->|?]; assumption.
  - rewrite elem_of_app, list_elem_of_singleton. tauto.
Qed.

Lemma map_get_elem k w (m : JsMap) :
  NoDup (List.map fst m) -> (k, w) ∈ m -> map_get k m = Some w.
Proof.
  induction m as [|[k' v] m IH]; simpl; intros Hnd Hin.
  - now apply elem_of_nil in Hin.
  - apply NoDup_cons in Hnd as [Hk' Hnd].
    apply elem_of_cons in Hin as [Heq|Hin].
    + injection Heq as -> ->. now rewrite jseqb_refl.
    + destruct (jseqb k k') eqn:Hkk.
      * apply jseqb_eq in Hkk as ->. exfalso. apply Hk'.
        change (List.map fst m) with (fst <$> m).
        now apply (list_elem_of_fmap_2 fst) in Hin.
      * now apply IH.
Qed.

Section ProfileKeys.
Context `{Unicode} `{MathLib}.

Lemma fold_set_keys (f : JsMap -> jsstring -> Q) ks (m : JsMap) :
  (NoDup (List.map fst m) ->
   NoDup (List.map fst (fold_left (fun m k => map_set k (f m k) m) ks m)))
  /\ forall k,
       k ∈ List.map fst (fold_left (fun m k => map_set k (f m k) m) ks m)
       <-> k ∈ List.map fst m \/ k ∈ ks.
Proof.
  revert m. induction ks as [|k0 ks IH]; intros m; simpl.
  - split; [auto|]. intros k. rewrite elem_of_nil. tauto.
  - destruct (IH (map_set k0 (f m k0) m)) as [IHnd IHel]. split.
    + intros Hnd. apply IHnd. now apply map_set_NoDup.
    + intros k. rewrite IHel, map_set_elem, elem_of_cons. tauto.
Qed.

Lemma addKeywords_keys text w m :
  (NoDup (List.map fst m) -> NoDup (List.map fst (addKeywords text w m)))
  /\ forall k,
       k ∈ List.map fst (addKeywords text w m)
       <-> k ∈ List.map fst m \/ k ∈ extractKeywords text.
Proof.
  apply (fold_set_keys (fun m kw => (or_zero (map_get kw m) + w)%Q)).
Qed.

Lemma add_searches_keys terms index m :
  (NoDup (List.map fst m) ->
   NoDup (List.map fst (add_searches index terms m)))
  /\ forall k,
       k ∈ List.map fst (add_searches index terms m)
       <-> k ∈ List.map fst m
           \/ exists term, term ∈ terms /\ k ∈ extractKeywords term.
Proof.
  revert index m. induction terms as [|t terms IH]; intros index m; simpl.
  - split; [auto|]. intros k. split; [auto|].
    intros [?|(t & Ht & _)]; [assumption|now apply elem_of_nil in Ht].
  - destruct (IH (S index) (addKeywords t (search_weight index) m))
      as [IHnd IHel].
    destruct (addKeywords_keys t (search_weight index) m) as [Hnd Hel].
    split; [auto|].
    intros k. rewrite IHel, Hel. split.
    + intros [[?|?]|(t' & Ht' & Hk)]; eauto.
      * right. exists t. rewrite elem_of_cons. auto.
      * right. exists t'. rewrite elem_of_cons. auto.
    + intros [?|(t' & Ht' & Hk)]; [auto|].
      apply elem_of_cons in Ht' as [->|Ht']; eauto.
Qed.

Lemma add_video_keys index v m :
  (NoDup (List.map fst m) -> NoDup (List.map fst (add_video index v m)))
  /\ forall k,
       k ∈ List.map fst (add_video index v m)
       <-> k ∈ List.map fst m
           \/ exists text, text ∈ video_texts v /\ k ∈ extractKeywords text.
Proof.
  unfold add_video. cbv zeta.
  set (w := watch_weight index).
  destruct (addKeywords_keys (title v) w m) as [Hnd1 Hel1].
  destruct (addKeywords_keys (channelName v) (w * (8 # 10))%Q
              (addKeywords (title v) w m)) as [Hnd2 Hel2].
  destruct (addKeywords_keys (or_empty (descriptionSnippet v))
              (w * (5 # 10))%Q
              (addKeywords (channelName v) (w * (8 # 10))%Q
                 (addKeywords (title v) w m))) as [Hnd3 Hel3].
  split; [auto|].
  intros k. rewrite Hel3, Hel2, Hel1. unfold video_texts. split.
  - intros [[[?|?]|?]|?]; [auto|right..]; eexists; split; eauto;
      rewrite !elem_of_cons; auto.
  - intros [?|(text & Ht & Hk)]; [auto|].
    rewrite !elem_of_cons, elem_of_nil in Ht.
    destruct Ht as [->|[->|[->|[]]]]; auto.
Qed.

Lemma add_watched_keys vs index m :
  (NoDup (List.map fst m) -> NoDup (List.map fst (add_watched index vs m)))
  /\ forall k,
       k ∈ List.map fst (add_watched index vs m)
       <-> k ∈ List.map fst m
           \/ exists v text,
                v ∈ vs /\ text ∈ video_texts v /\ k ∈ extractKeywords text.
Proof.
  revert index m. induction vs as [|v vs IH]; intros index m; simpl.
  - split; [auto|]. intros k. split; [auto|].
    intros [?|(v & t & Hv & _)]; [assumption|now apply elem_of_nil in Hv].
  - destruct (IH (S index) (add_video index v m)) as [IHnd IHel].
    destruct (add_video_keys index v m) as [Hnd Hel].
    split; [auto|].
    intros k. rewrite IHel, Hel. split.
    + intros [[?|(t & Ht & Hk)]|(v' & t & Hv' & Ht & Hk)]; eauto.
      * right. exists v, t. rewrite elem_of_cons. auto.
      * right. exists v', t. rewrite elem_of_cons. auto.
    + intros [?|(v' & t & Hv' & Ht & Hk)]; [auto|].
      apply elem_of_cons in Hv' as [->|Hv']; eauto 7.
Qed.

Lemma add_subscriptions_keys cs m :
  (NoDup (List.map fst m) -> NoDup (List.map fst (add_subscriptions cs m)))
  /\ forall k,
       k ∈ List.map fst (add_subscriptions cs m)
       <-> k ∈ List.map fst m
           \/ exists c, c ∈ cs /\ k ∈ extractKeywords (name c).
Proof.
  unfold add_subscriptions.
  revert m. induction cs as [|c cs IH]; intros m; simpl.
  - split; [auto|]. intros k. split; [auto|].
    intros [?|(c & Hc & _)]; [assumption|now apply elem_of_nil in Hc].
  - destruct (IH (addKeywords (name c) (15 # 10)%Q m)) as [IHnd IHel].
    destruct (addKeywords_keys (name c) (15 # 10)%Q m) as [Hnd Hel].
    split; [auto|].
    intros k. rewrite IHel, Hel. split.
    + intros [[?|?]|(c' & Hc' & Hk)]; eauto.
      * right. exists c. rewrite elem_of_cons. auto.
      * right. exists c'. rewrite elem_of_cons. auto.
    + intros [?|(c' & Hc' & Hk)]; [auto|].
      apply elem_of_cons in Hc' as [->|Hc']; eauto.
Qed.

Lemma profile_keys_NoDup sources :
  NoDup (List.map fst (keywords (buildUserProfile sources))).
Proof.
  unfold buildUserProfile. simpl.
  apply add_subscriptions_keys, add_watched_keys, add_searches_keys.
  constructor.
Qed.

(** X7.  The profile has an entry for a keyword exactly when the
    keyword is extracted from a search term, from the title, the
    channel name or the description snippet of a watched video, or
    from the name of a subscribed channel. *)
Theorem buildUserProfile_keys sources kw :
  is_Some (map_get kw (keywords (buildUserProfile sources)))
  <-> (exists term, term ∈ us_searchHistory sources
                    /\ kw ∈ extractKeywords term)
      \/ (exists v text, v ∈ us_watchHistory sources
                         /\ text ∈ video_texts v
                         /\ kw ∈ extractKeywords text)
      \/ (exists c, c ∈ us_subscribedChannels sources
                    /\ kw ∈ extractKeywords (name c)).
Proof.
  rewrite map_get_keys. unfold buildUserProfile. simpl.
  rewrite (proj2 (add_subscriptions_keys _ _)),
    (proj2 (add_watched_keys _ _ _)), (proj2 (add_searches_keys _ _ _)).
  simpl. rewrite elem_of_nil. tauto.
Qed.

End ProfileKeys.

(** ** The calls of the profile-rank engine; freshness *)

Section TopKeywords.
Context `{Unicode} `{MathLib}.

(** X8.  Source B searches for at most three keywords, all different,
    all of the profile, and no keyword of the profile left out weighs
    more than one that is searched for; a profile of at most three
    keywords is searched for whole. *)
Theorem topKeywords_are_heaviest sources :
  let profile := ProfileRank.userProfile sources in
  let top := ProfileRank.topKeywords sources in
  (length top <= 3)%nat
  /\ NoDup top
  /\ (forall k, k ∈ top -> is_Some (map_get k (keywords profile)))
  /\ (forall k k',
        k ∈ top -> is_Some (map_get k' (keywords profile)) -> k' ∉ top ->
        (profile_weight profile k' <= profile_weight profile k)%Q)
  /\ ((length (keywords profile) <= 3)%nat ->
      forall k, is_Some (map_get k (keywords profile)) -> k ∈ top).
Proof.
  intros profile top.
  pose proof (profile_keys_NoDup
    {| us_watchHistory := ProfileRank.rs_watchHistory sources;
       us_searchHistory := ProfileRank.rs_searchHistory sources;
       us_subscribedChannels := ProfileRank.rs_subscribedChannels sources |})
    as Hnd.
  fold (ProfileRank.userProfile sources) in Hnd. fold profile in Hnd.
  set (m := keywords profile) in *.
  set (sorted := sort_desc snd m).
  assert (sorted ≡ₚ m) as Hperm by apply sort_desc_perm.
  assert (descending snd sorted) as Hdesc by apply sort_desc_descending.
  assert (top = List.map fst (take 3 sorted)) as Htop by reflexivity.
  assert (NoDup (List.map fst sorted)) as Hnds.
  { change (NoDup (fst <$> sorted)). now rewrite Hperm. }
  assert (forall k w, (k, w) ∈ sorted -> profile_weight profile k = w) as Hw.
  { intros k w Hin. unfold profile_weight. fold m.
    rewrite (map_get_elem k w); [reflexivity|exact Hnd|].
    now rewrite <- Hperm. }
  repeat split.
  - rewrite Htop, length_map, length_take. lia.
  - rewrite Htop. change (NoDup (fst <$> take 3 sorted)).
    eapply sublist_NoDup; [exact Hnds|].
    apply fmap_sublist, take_sublist.
  - intros k Hk. apply map_get_keys. rewrite Htop in Hk.
    change (k ∈ fst <$> take 3 sorted) in Hk.
    apply list_elem_of_fmap in Hk as ([k0 w] & -> & Hin).
    apply elem_of_take in Hin. rewrite Hperm in Hin.
    change (List.map fst m) with (fst <$> m).
    now apply (list_elem_of_fmap_2 fst) in Hin.
  - intros k k' Hk Hk' Hnot.
    rewrite Htop in Hk. change (k ∈ fst <$> take 3 sorted) in Hk.
    apply list_elem_of_fmap in Hk as ([k0 w] & -> & Hin). simpl.
    apply stdpp.list_basics.list.elem_of_take in Hin as (i & Hi & Hlt).
    apply map_get_keys in Hk'. change (k' ∈ fst <$> m) in Hk'.
    rewrite <- Hperm in Hk'.
    apply list_elem_of_fmap in Hk' as ([k1 w'] & -> & Hin'). simpl.
    apply list_elem_of_lookup in Hin' as (j & Hj).
    rewrite (Hw k0 w) by (eapply list_elem_of_lookup_2; eauto).
    rewrite (Hw k1 w') by (eapply list_elem_of_lookup_2; eauto).
    destruct (Nat.lt_ge_cases j 3) as [Hj3|Hj3].
    + exfalso. apply Hnot. rewrite Htop.
      change (k1 ∈ fst <$> take 3 sorted).
      apply (list_elem_of_fmap_2' fst _ (k1, w')); [|reflexivity].
      apply stdpp.list_basics.list.elem_of_take. eauto.
    + apply (Hdesc i j (k0, w) (k1, w')); [lia|assumption..].
  - intros Hlen k Hk. rewrite Htop.
    rewrite take_ge by (rewrite Hperm; exact Hlen).
    apply map_get_keys in Hk. change (k ∈ fst <$> sorted).
    rewrite Hperm. exact Hk.
Qed.

End TopKeywords.

Section Budget.
Context `{Unicode} `{MathLib} `{Catalog}.
Variable rnd : nat -> nat.

Lemma recentVideos_length k sources :
  (length (ProfileRank.recentVideos rnd k sources).1 <= 3)%nat.
Proof.
  unfold ProfileRank.recentVideos.
  destruct (ProfileRank.rs_watchHistory sources); [simpl; lia|].
  destruct (shuffleArray _ _ _) as [shuffled k']. simpl.
  rewrite length_take. lia.
Qed.

Lemma randomSubs_length k sources :
  (length (ProfileRank.randomSubs rnd k sources).1 <= 5)%nat.
Proof.
  unfold ProfileRank.randomSubs.
  destruct (ProfileRank.rs_subscribedChannels sources); [simpl; lia|].
  destruct (shuffleArray _ _ _) as [shuffled k']. simpl.
  rewrite length_take. lia.
Qed.

Lemma topKeywords_length sources :
  (length (ProfileRank.topKeywords sources) <= 3)%nat.
Proof.
  unfold ProfileRank.topKeywords. rewrite length_map, length_take. lia.
Qed.

Lemma capped_pool_length cs n :
  Forall (fun c => (cap c <= n)%nat) cs ->
  (length (flat_map (fun c => take (cap c) (payload c)) cs)
   <= length cs * n)%nat.
Proof.
  induction 1 as [|c cs Hc _ IH]; simpl; [lia|].
  rewrite length_app, length_take. lia.
Qed.

(** X9.  The profile-rank engine issues at most eleven calls to the
    catalog service, the general recommendations among them exactly
    when the other sources issue fewer than three, and hands at most a
    hundred candidates to [rankVideos]. *)
Theorem profile_rank_call_budget k sources :
  let calls := issued_calls rnd k sources in
  let others := List.filter (fun c => negb (is_fallback c)) calls in
  length (ProfileRank.candidatePromises rnd k sources) = length calls
  /\ (length calls <= 11)%nat
  /\ (Recommended ∈ calls <-> (length others < 3)%nat)
  /\ (length
        (ProfileRank.collect (ProfileRank.candidatePromises rnd k sources))
      <= 100)%nat.
Proof.
  intros calls others.
  rewrite candidatePromises_issued. fold calls.
  rewrite length_map.
  rewrite <- (map_map (fun c => take (cap c) (payload c)) Fulfilled),
    collect_fulfilled, flat_map_concat_map.
  unfold others, calls, issued_calls.
  pose proof (recentVideos_length k sources) as Hrecent.
  destruct (ProfileRank.recentVideos rnd k sources) as [recent k1].
  pose proof (randomSubs_length k1 sources) as Hsubs.
  destruct (ProfileRank.randomSubs rnd k1 sources) as [subs k2].
  pose proof (topKeywords_length sources) as Htop.
  simpl in Hrecent, Hsubs.
  set (a := List.map (fun v => RelatedOf (id v)) recent).
  set (b := List.map SearchFor (ProfileRank.topKeywords sources)).
  set (c := List.map (fun sub => UploadsOf (ch_id sub)) subs).
  assert (length a = length recent) as Ha by apply length_map.
  assert (length b = length (ProfileRank.topKeywords sources)) as Hb
    by apply length_map.
  assert (length c = length subs) as Hc by apply length_map.
  assert (List.filter (fun c => negb (is_fallback c)) (a ++ b ++ c)
          = a ++ b ++ c) as Hfilter.
  { apply filter_all. rewrite !Forall_app. unfold a, b, c.
    repeat split; apply Forall_forall; intros x Hx;
      apply list_elem_of_fmap in Hx as (? & -> & _);
      reflexivity. }
  assert (Recommended ∉ a ++ b ++ c) as Hnot.
  { rewrite !elem_of_app. unfold a, b, c. intros [Hx|[Hx|Hx]];
      apply list_elem_of_fmap in Hx as (? & ? & _); discriminate. }
  assert (Forall (fun c => (cap c <= 15)%nat) a) as Hcapa.
  { apply Forall_forall. intros x Hx.
    apply list_elem_of_fmap in Hx as (? & -> & _).
    simpl. lia. }
  assert (Forall (fun c => (cap c <= 10)%nat) b) as Hcapb.
  { apply Forall_forall. intros x Hx.
    apply list_elem_of_fmap in Hx as (? & -> & _).
    simpl. lia. }
  assert (Forall (fun c => (cap c <= 5)%nat) c) as Hcapc.
  { apply Forall_forall. intros x Hx.
    apply list_elem_of_fmap in Hx as (? & -> & _).
    simpl. lia. }
  pose proof (capped_pool_length a 15 Hcapa) as Hpa.
  pose proof (capped_pool_length b 10 Hcapb) as Hpb.
  pose proof (capped_pool_length c 5 Hcapc) as Hpc.
  destruct (Nat.ltb_spec (length (a ++ b ++ c)) 3) as [Hlt|Hge].
  - rewrite List.filter_app, Hfilter. simpl. rewrite app_nil_r.
    rewrite !flat_map_app, !length_app in *. simpl.
    rewrite app_nil_r, length_take.
    repeat split; try lia.
    rewrite !elem_of_app, list_elem_of_singleton. auto.
  - rewrite Hfilter. rewrite !flat_map_app, !length_app in *.
    repeat split; try lia; intros; try contradiction; lia.
Qed.

(** X10.  For a viewer with no watch history, no search history and no
    subscriptions the profile is empty, the only call is the one for
    the general recommendations, and the feed is the ranking of its
    first twenty videos. *)
Theorem profile_rank_cold_start k sources :
  ProfileRank.rs_watchHistory sources = [] ->
  ProfileRank.rs_searchHistory sources = [] ->
  ProfileRank.rs_subscribedChannels sources = [] ->
  issued_calls rnd k sources = [Recommended]
  /\ keywords (ProfileRank.userProfile sources) = []
  /\ ProfileRank.getXraiRecommendations rnd k sources
     = Fulfilled
         (take 50
            (rankVideos (take 20 (payload Recommended))
               (ProfileRank.userProfile sources)
               (ProfileRank.scoringContext sources))).
Proof.
  intros Hw Hs Hc.
  assert (keywords (ProfileRank.userProfile sources) = []) as Hprofile.
  { unfold ProfileRank.userProfile, buildUserProfile. simpl.
    now rewrite Hw, Hs, Hc. }
  assert (issued_calls rnd k sources = [Recommended]) as Hcalls.
  { unfold issued_calls, ProfileRank.recentVideos, ProfileRank.randomSubs,
      ProfileRank.topKeywords.
    rewrite Hw, Hc, Hprofile. reflexivity. }
  repeat split; try assumption.
  rewrite profile_rank_engine_feed, Hcalls. simpl.
  now rewrite app_nil_r.
Qed.

End Budget.

Section FreshnessBounds.
Context `{Unicode} `{MathLib}.

Lemma take_digits_spec s :
  forallb is_digit (take_digits s) = true.
Proof.
  induction s as [|u s IH]; simpl; [reflexivity|].
  destruct (is_digit u) eqn:Hu; simpl; [now rewrite Hu|reflexivity].
Qed.

Lemma match_digits_spec s ds :
  match_digits s = Some ds -> ds <> [] /\ forallb is_digit ds = true.
Proof.
  induction s as [|u s IH]; simpl; [discriminate|].
  destruct (is_digit u) eqn:Hu.
  - intros [= <-]. split; [discriminate|].
    simpl. rewrite Hu. apply take_digits_spec.
  - exact IH.
Qed.

Lemma parseUploadedAt_nonneg s : (0 <= parseUploadedAt s)%Z.
Proof.
  unfold parseUploadedAt. destruct s as [|u s]; [lia|].
  set (text := toLowerCase (u :: s)).
  assert (0 <= match match_digits text with
                | Some ds => default 0%Z (parseInt ds)
                | None => 0%Z
                end)%Z as Hnum.
  { destruct (match_digits text) as [ds|] eqn:Hm; [|lia].
    apply match_digits_spec in Hm as [Hne Hds].
    rewrite parseInt_digits by assumption. simpl. lia. }
  repeat case_match; lia.
Qed.

Lemma Math_max_cases a b :
  ((a <= b)%Q /\ Math_max a b = b) \/ ((b < a)%Q /\ Math_max a b = a).
Proof.
  unfold Math_max. destruct (Qle_bool a b) eqn:Hle.
  - left. split; [now apply Qle_bool_iff|reflexivity].
  - right. split; [|reflexivity]. apply Qnot_le_lt.
    intros Hab. apply Qle_bool_iff in Hab. congruence.
Qed.

Lemma freshness_of_days_bounds d :
  (0 <= d)%Z -> (0 <= freshness_of_days d <= 5)%Q.
Proof.
  intros Hd. unfold freshness_of_days.
  assert (0 <= inject_Z d)%Q as Hq.
  { change 0%Q with (inject_Z 0). now rewrite <- Zle_Qle. }
  change (inject_Z d / 60)%Q with (inject_Z d * (1 # 60))%Q.
  destruct (Math_max_cases 0 (1 - inject_Z d * (1 # 60)))
    as [[? ->]|[? ->]]; lra.
Qed.

Lemma freshness_of_days_mono d1 d2 :
  (d1 <= d2)%Z -> (freshness_of_days d2 <= freshness_of_days d1)%Q.
Proof.
  intros Hd. unfold freshness_of_days.
  assert (inject_Z d1 <= inject_Z d2)%Q as Hq by now rewrite <- Zle_Qle.
  change (inject_Z d1 / 60)%Q with (inject_Z d1 * (1 # 60))%Q.
  change (inject_Z d2 / 60)%Q with (inject_Z d2 * (1 # 60))%Q.
  destruct (Math_max_cases 0 (1 - inject_Z d1 * (1 # 60)))
    as [[? ->]|[? ->]];
  destruct (Math_max_cases 0 (1 - inject_Z d2 * (1 # 60)))
    as [[? ->]|[? ->]]; lra.
Qed.

(** X11.  [parseUploadedAt] never returns a negative age; the
    freshness score lies between 0 and 5, is 5 at age 0, and an older
    upload is never fresher. *)
Theorem freshness_bounds :
  (forall s, (0 <= parseUploadedAt s)%Z)
  /\ (forall v, (0 <= freshnessScore v <= 5)%Q)
  /\ (forall v1 v2,
        (parseUploadedAt (uploadedAt v1) <= parseUploadedAt (uploadedAt v2))%Z ->
        (freshnessScore v2 <= freshnessScore v1)%Q)
  /\ (forall v, parseUploadedAt (uploadedAt v) = 0%Z -> (freshnessScore v == 5)%Q).
Proof.
  repeat split.
  - apply parseUploadedAt_nonneg.
  - apply freshness_of_days_bounds, parseUploadedAt_nonneg.
  - apply freshness_of_days_bounds, parseUploadedAt_nonneg.
  - intros v1 v2. apply freshness_of_days_mono.
  - intros v Hv. unfold freshnessScore, freshness_of_days. rewrite Hv.
    reflexivity.
Qed.

End FreshnessBounds.

Lemma profile_rank_cold_start_witness :
  issued_calls (H := basic_unicode) (H0 := sample_math) (fun _ => 0%nat) 0
    newcomer = [Recommended].
Proof.
  exact (proj1 (profile_rank_cold_start
                  (H := basic_unicode) (H0 := sample_math) (H1 := offline)
                  (fun _ => 0%nat) 0%nat newcomer eq_refl eq_refl eq_refl)).
Defined.

(** ** NG keywords *)

Lemma existsb_false_elem {A} (f : A -> bool) l x :
  existsb f l = false -> x ∈ l -> f x = false.
Proof.
  intros Hex Hx. destruct (f x) eqn:Hfx; [|reflexivity].
  rewrite <- Hex. symmetry. apply existsb_exists.
  exists x. split; [now apply list_elem_of_In|exact Hfx].
Qed.

Lemma includes_nil s : includes s [] = true.
Proof. destruct s; reflexivity. Qed.

Section NgKeywords.
Context `{Unicode} `{MathLib} `{Catalog}.
Variable rnd : nat -> nat.

Lemma blank_ngKeyword (text : jsstring) ngs :
  [] ∈ ngs ->
  existsb (fun ng => includes text (toLowerCase ng)) ngs = true.
Proof.
  intros Hin. apply existsb_exists. exists [].
  split; [now apply list_elem_of_In|].
  rewrite lower_nil. apply includes_nil.
Qed.

Lemma score_loop_blank profile context seenIds videos :
  [] ∈ ngKeywords context ->
  score_loop profile context seenIds videos = [].
Proof.
  intros Hin. induction videos as [|v videos IH]; simpl; [reflexivity|].
  rewrite (blank_ngKeyword _ _ Hin).
  destruct (_ || _); exact IH.
Qed.

Lemma filterAndDedupe_blank sources seenIds videos :
  [] ∈ RatioMix.rs_ngKeywords sources ->
  (RatioMix.filterAndDedupe sources seenIds videos).1 = [].
Proof.
  intros Hin. revert seenIds.
  induction videos as [|v videos IH]; intros seenIds; simpl; [reflexivity|].
  case_bool_decide; [apply IH|].
  specialize (IH ({[id v]} ∪ seenIds)).
  destruct (RatioMix.filterAndDedupe sources _ videos) as [rest seen'].
  unfold RatioMix.has_ngKeyword. rewrite (blank_ngKeyword _ _ Hin).
  exact IH.
Qed.

Lemma shorts_filterAndDedupe_blank sources seenIds videos :
  [] ∈ RatioMix.rs_ngKeywords sources ->
  RatioMix.shorts_filterAndDedupe sources seenIds videos = ([], seenIds).
Proof.
  intros Hin.
  induction videos as [|v videos IH]; simpl; [reflexivity|].
  unfold RatioMix.has_ngKeyword. rewrite (blank_ngKeyword _ _ Hin).
  destruct (_ || _); exact IH.
Qed.

(** X12.  No video of a feed matches an NG keyword: in the ratio-mix
    feeds (the short-form feed off its fallback) the lower-cased title
    and channel name include no lower-cased NG keyword; in the
    profile-rank feed the description snippet is searched as well. *)
Theorem feeds_exclude_ng_keywords k :
  (forall sources, exists feed,
     RatioMix.getXraiRecommendations rnd k sources = Fulfilled feed
     /\ forall v ng, v ∈ feed ->
          ng ∈ RatioMix.rs_ngKeywords sources ->
          includes (toLowerCase (title v ++ SPACE :: channelName v))
                   (toLowerCase ng) = false)
  /\ (forall sources popularShortsRaw personalizedShortsRaw,
        let cleanPopular :=
          RatioMix.shorts_filterAndDedupe sources ∅ popularShortsRaw in
        let cleanPersonalized :=
          RatioMix.shorts_filterAndDedupe sources cleanPopular.2
            personalizedShortsRaw in
        cleanPopular.1 ++ cleanPersonalized.1 <> [] ->
        forall v ng,
          v ∈ RatioMix.mix_shorts rnd k sources popularShortsRaw
                personalizedShortsRaw ->
          ng ∈ RatioMix.rs_ngKeywords sources ->
          includes (toLowerCase (title v ++ SPACE :: channelName v))
                   (toLowerCase ng) = false)
  /\ (forall sources, exists feed,
        ProfileRank.getXraiRecommendations rnd k sources = Fulfilled feed
        /\ forall v ng, v ∈ feed ->
             ng ∈ ProfileRank.rs_ngKeywords sources ->
             includes
               (toLowerCase
                  (title v ++ SPACE :: channelName v
                     ++ SPACE :: or_empty (descriptionSnippet v)))
               (toLowerCase ng) = false).
Proof.
  split; [|split].
  - intros sources. eexists. split; [apply ratio_mix_engine_feed|].
    intros v ng Hv Hng.
    apply (proj1 (mix_feed_invariants rnd _ _ _ _)) in Hv as (_ & _ & Hall).
    destruct Hall as (_ & Hkw & _).
    apply (existsb_false_elem _ _ ng Hkw Hng).
  - intros sources popular personalized cleanPopular cleanPersonalized Hne
      v ng Hv Hng.
    destruct (mix_shorts_invariants rnd k sources popular personalized)
      as (_ & _ & Hok).
    destruct (Hok Hne) as (Hall & _).
    destruct (Hall v Hv) as (_ & Hallowed).
    destruct Hallowed as (_ & Hkw & _).
    apply (existsb_false_elem _ _ ng Hkw Hng).
  - intros sources. eexists. split; [apply profile_rank_engine_feed|].
    intros v ng Hv Hng. apply elem_of_take in Hv.
    apply rankVideos_invariants in Hv as (_ & _ & _ & Hkw).
    apply (existsb_false_elem _ _ ng Hkw Hng).
Qed.

(** X13.  An empty NG keyword matches every text: with one in the
    list, [rankVideos] and the main ratio-mix feed return nothing, and
    the short-form feed is its fallback, the popular shorts not in the
    history. *)
Theorem blank_ng_keyword_blocks_all k :
  (forall videos profile context,
     [] ∈ ngKeywords context -> rankVideos videos profile context = [])
  /\ (forall sources trendingVideos personalizedCandidates,
        [] ∈ RatioMix.rs_ngKeywords sources ->
        RatioMix.mix_feed rnd k sources trendingVideos personalizedCandidates
        = [])
  /\ (forall sources popularShortsRaw personalizedShortsRaw,
        [] ∈ RatioMix.rs_ngKeywords sources ->
        RatioMix.mix_shorts rnd k sources popularShortsRaw
          personalizedShortsRaw
        = take 20
            (shuffleArray rnd k
               (List.filter
                  (fun v =>
                     negb (bool_decide (id v ∈ RatioMix.historyIds sources)))
                  popularShortsRaw)).1).
Proof.
  split; [|split].
  - intros videos profile context Hin. unfold rankVideos.
    now rewrite score_loop_blank.
  - intros sources trending personalized Hin. unfold RatioMix.mix_feed.
    pose proof (filterAndDedupe_blank sources
                  (RatioMix.hiddenVideoIdsSet sources) trending Hin) as Ht.
    destruct (RatioMix.filterAndDedupe sources _ trending) as [ct seen1].
    pose proof (filterAndDedupe_blank sources seen1 personalized Hin) as Hp.
    destruct (RatioMix.filterAndDedupe sources seen1 personalized)
      as [cp seen2].
    simpl in Ht, Hp. subst ct cp. reflexivity.
  - intros sources popular personalized Hin. unfold RatioMix.mix_shorts.
    rewrite !shorts_filterAndDedupe_blank by exact Hin. reflexivity.
Qed.

(** X14.  The keywords that count for the relevance of a candidate,
    those of its full text, are the keywords of its title, of its
    channel name and of its description snippet. *)
Theorem relevance_keywords v k :
  k ∈ extractKeywords (fullText v)
  <-> k ∈ extractKeywords (title v)
      \/ k ∈ extractKeywords (channelName v)
      \/ k ∈ extractKeywords (or_empty (descriptionSnippet v)).
Proof.
  unfold fullText. rewrite extractKeywords_lower.
  now rewrite !extractKeywords_space.
Qed.

End NgKeywords.

(** ** The short-form feed, the quotas, the service down *)

Section Shorts.
Context `{Unicode} `{MathLib} `{Catalog}.
Variable rnd : nat -> nat.

Lemma shorts_engine_pools k sources :
  RatioMix.getXraiShorts rnd k sources
  = Fulfilled
      (RatioMix.mix_shorts rnd (RatioMix.shorts_seeds rnd k sources).2 sources
         (List.filter RatioMix.isShortVideo (payload Recommended))
         (flat_map shorts_of_search (RatioMix.shorts_seeds rnd k sources).1)).
Proof.
  unfold RatioMix.getXraiShorts.
  destruct (RatioMix.shorts_seeds rnd k sources) as [qs k1].
  unfold RatioMix.popular_call, RatioMix.shorts_search_call.
  rewrite caught_promise.
  rewrite (Promise_all_caught
             (fun q =>
                then_ (searchVideos q s_page1)
                  (fun res =>
                     List.filter RatioMix.isShortVideo
                       (sr_videos res ++ sr_shorts res)))).
  simpl. rewrite flat_map_concat_map.
  f_equal. f_equal.
  - unfold payload, response. simpl.
    destruct getRecommendedVideos; reflexivity.
  - apply flat_map_ext. intros q. unfold shorts_of_search.
    destruct (searchVideos q s_page1); reflexivity.
Qed.

(** X15.  On every path, the fallback included, [getXraiShorts]
    returns only short videos (at most 60 seconds, or tagged #shorts)
    that are not in the shorts history, each taken from the
    recommended feed or from the response to one of its searches. *)
Theorem shorts_feed_unseen_shorts k sources :
  exists feed,
    RatioMix.getXraiShorts rnd k sources = Fulfilled feed
    /\ forall v, v ∈ feed ->
         RatioMix.isShortVideo v = true
         /\ (id v ∉ RatioMix.historyIds sources)
         /\ (v ∈ payload Recommended
             \/ exists q, q ∈ (RatioMix.shorts_seeds rnd k sources).1
                          /\ v ∈ shorts_of_search q).
Proof.
  eexists. split; [apply shorts_engine_pools|].
  intros v Hv.
  apply mix_shorts_invariants in Hv as [[Hv|Hv] Hh].
  - apply list_elem_of_In, filter_In in Hv as [Hv Hs].
    repeat split; try assumption. left. now apply list_elem_of_In.
  - apply list_elem_of_In, in_flat_map in Hv as (q & Hq & Hv).
    assert (RatioMix.isShortVideo v = true) as Hs.
    { unfold shorts_of_search in Hv.
      destruct (searchVideos q s_page1); [|destruct Hv].
      now apply filter_In in Hv. }
    repeat split; try assumption. right. exists q.
    split; now apply list_elem_of_In.
Qed.

End Shorts.

Section Sizes.
Context `{Unicode}.
Variable rnd : nat -> nat.

Lemma shuffleArray_length {A} k (l : list A) :
  length (shuffleArray rnd k l).1 = length l.
Proof. now rewrite shuffleArray_perm. Qed.

(** X16.  The ratio-mix feeds fill each quota from its own pool only:
    the main feed has as many videos as 20 and 30 allow of the
    filtered trending and personalised pools, the short-form feed as
    many as 30 and 10 allow of the filtered popular and personalised
    pools, or, when both are empty, up to 20 of the popular shorts not
    in the history. *)
Theorem ratio_mix_feed_sizes k sources :
  (forall trendingVideos personalizedCandidates,
     let cleanTrending :=
       RatioMix.filterAndDedupe sources (RatioMix.hiddenVideoIdsSet sources)
         trendingVideos in
     let cleanPersonalized :=
       RatioMix.filterAndDedupe sources cleanTrending.2
         personalizedCandidates in
     length (RatioMix.mix_feed rnd k sources trendingVideos
               personalizedCandidates)
     = (length cleanTrending.1 `min` 20
        + length cleanPersonalized.1 `min` 30)%nat)
  /\ (forall popularShortsRaw personalizedShortsRaw,
        let cleanPopular :=
          RatioMix.shorts_filterAndDedupe sources ∅ popularShortsRaw in
        let cleanPersonalized :=
          RatioMix.shorts_filterAndDedupe sources cleanPopular.2
            personalizedShortsRaw in
        let unseen :=
          List.filter
            (fun v => negb (bool_decide (id v ∈ RatioMix.historyIds sources)))
            popularShortsRaw in
        length (RatioMix.mix_shorts rnd k sources popularShortsRaw
                  personalizedShortsRaw)
        = match cleanPopular.1 ++ cleanPersonalized.1 with
          | [] => (length unseen `min` 20)%nat
          | _ => (length cleanPopular.1 `min` 30
                  + length cleanPersonalized.1 `min` 10)%nat
          end).
Proof.
  split.
  - intros trending personalized. cbv zeta.
    unfold RatioMix.mix_feed.
    destruct (RatioMix.filterAndDedupe sources _ trending)
      as [cleanTrending seen1].
    simpl fst. simpl snd.
    destruct (RatioMix.filterAndDedupe sources seen1 personalized)
      as [cleanPersonalized seen2].
    cbv beta zeta iota.
    unfold RatioMix.TARGET_COUNT, RatioMix.TRENDING_RATIO.
    change (slice0 (Math_floor (50 * (40 # 100)))) with (@take Video 20).
    change (slice0 (50 - Math_floor (50 * (40 # 100)))%Q) with (@take Video 30).
    pose proof (shuffleArray_length k cleanTrending) as Ht.
    destruct (shuffleArray rnd k cleanTrending) as [st k1].
    pose proof (shuffleArray_length k1 cleanPersonalized) as Hp.
    destruct (shuffleArray rnd k1 cleanPersonalized) as [sp k2].
    simpl in Ht, Hp. simpl fst.
    rewrite shuffleArray_length, length_app, !length_take. lia.
  - intros popular personalized. cbv zeta.
    unfold RatioMix.mix_shorts.
    destruct (RatioMix.shorts_filterAndDedupe sources ∅ popular)
      as [cleanPopular seen1].
    simpl fst. simpl snd.
    destruct (RatioMix.shorts_filterAndDedupe sources seen1 personalized)
      as [cleanPersonalized seen2].
    cbv beta zeta iota.
    unfold RatioMix.SHORTS_TARGET_COUNT, RatioMix.POPULAR_RATIO.
    change (slice0 (Math_floor (40 * (75 # 100)))) with (@take Video 30).
    change (slice0 (40 - Math_floor (40 * (75 # 100)))%Q) with (@take Video 10).
    pose proof (shuffleArray_length k cleanPopular) as Ht.
    destruct (shuffleArray rnd k cleanPopular) as [st k1].
    pose proof (shuffleArray_length k1 cleanPersonalized) as Hp.
    destruct (shuffleArray rnd k1 cleanPersonalized) as [sp k2].
    simpl in Ht, Hp. simpl fst.
    destruct (take 30 st ++ take 10 sp) as [|v0 rest] eqn:Efinal.
    + apply (f_equal length) in Efinal.
      rewrite length_app, !length_take in Efinal.
      change (length (@nil Video)) with 0%nat in Efinal.
      assert (cleanPopular = []) as -> by (apply length_zero_iff_nil; lia).
      assert (cleanPersonalized = []) as ->
        by (apply length_zero_iff_nil; lia).
      simpl. rewrite length_take, shuffleArray_length. lia.
    + rewrite shuffleArray_length, <- Efinal, length_app, !length_take.
      destruct (cleanPopular ++ cleanPersonalized) eqn:Eclean; [|lia].
      apply app_eq_nil in Eclean as [-> ->].
      apply (f_equal length) in Efinal.
      rewrite length_app, !length_take in Efinal.
      change (length (@nil Video)) with 0%nat in Ht, Hp. simpl length in Efinal. lia.
Qed.

End Sizes.

Lemma flat_map_empty {A B} (f : A -> list B) l :
  (forall x, f x = []) -> flat_map f l = [].
Proof.
  intros Hf. induction l as [|x l IH]; simpl; [reflexivity|].
  now rewrite Hf, IH.
Qed.

Section Down.
Context `{Unicode} `{MathLib} `{Catalog}.
Variable rnd : nat -> nat.

(** X17.  When every call to the catalog service fails, the four
    engines still return, each with an empty feed. *)
Theorem service_down_empty_feeds k
    (viewer : ProfileRank.RecommendationSource)
    (sources : RatioMix.RecommendationSource) :
  (forall query page, searchVideos query page = Rejected) ->
  (forall videoId, getVideoDetails videoId = Rejected) ->
  (forall channel, getChannelVideos channel = Rejected) ->
  getRecommendedVideos = Rejected ->
  ProfileRank.getXraiRecommendations rnd k viewer = Fulfilled []
  /\ ProfileRank.getLegacyRecommendations = Fulfilled []
  /\ RatioMix.getXraiRecommendations rnd k sources = Fulfilled []
  /\ RatioMix.getXraiShorts rnd k sources = Fulfilled [].
Proof.
  intros Hsearch Hdetails Hchannel Hrec.
  assert (forall c, payload c = []) as Hpay.
  { intros c. unfold payload, response.
    destruct c; rewrite ?Hsearch, ?Hdetails, ?Hchannel, ?Hrec; reflexivity. }
  repeat split.
  - rewrite profile_rank_engine_feed.
    rewrite (flat_map_empty (fun c => take (cap c) (payload c))).
    + reflexivity.
    + intros c. now rewrite Hpay, take_nil.
  - unfold ProfileRank.getLegacyRecommendations. now rewrite Hrec.
  - rewrite ratio_mix_engine_feed.
    rewrite (flat_map_empty (fun q => payload (SearchFor q)))
      by (intros; apply Hpay).
    rewrite Hpay. reflexivity.
  - rewrite shorts_engine_pools, Hpay.
    rewrite (flat_map_empty shorts_of_search).
    + reflexivity.
    + intros q. unfold shorts_of_search. now rewrite Hsearch.
Qed.

End Down.

Lemma service_down_empty_feeds_witness :
  RatioMix.getXraiShorts (H := basic_unicode) (H0 := offline)
    (fun _ => 0%nat) 0 hiding_user = Fulfilled [].
Proof.
  refine (proj2 (proj2 (proj2
            (service_down_empty_feeds
               (H := basic_unicode) (H0 := sample_math) (H1 := offline)
               (fun _ => 0%nat) 0%nat one_watched hiding_user _ _ _ _))));
    intros; reflexivity.
Defined.

(** ** The search seed of a title *)

Section TitleFacts.
Import RatioMix.

Lemma closing_not_terminator u close :
  closing u = Some close ->
  is_line_terminator u = false /\ is_line_terminator close = false.
Proof.
  unfold closing.
  destruct (N.eqb_spec u 0x3010) as [->|_]; [intros [= <-]; split; reflexivity|].
  destruct (N.eqb_spec u 0x5B) as [->|_]; [intros [= <-]; split; reflexivity|].
  destruct (N.eqb_spec u 0x28) as [->|_]; [intros [= <-]; split; reflexivity|].
  discriminate.
Qed.

Lemma after_close_length close s rest :
  after_close close s = Some rest -> (length rest < length s)%nat.
Proof.
  revert rest. induction s as [|u s IH]; intros rest; simpl; [discriminate|].
  destruct (u =? close); [intros [= <-]; lia|].
  destruct (is_line_terminator u); [discriminate|].
  intros Hr. apply IH in Hr. lia.
Qed.

Lemma after_close_suffix c close s rest :
  is_line_terminator close = false ->
  after_close c s = None -> after_close close s = Some rest ->
  after_close c rest = None.
Proof.
  intros Hclose. revert rest. induction s as [|u s IH]; intros rest; simpl;
    [discriminate|].
  destruct (N.eqb_spec u c) as [->|Hc]; [discriminate|].
  destruct (N.eqb_spec u close) as [->|Hne].
  - rewrite Hclose. intros Hs [= <-]. exact Hs.
  - destruct (is_line_terminator u); [discriminate|]. apply IH.
Qed.

Lemma after_close_strip c n s :
  after_close c s = None -> after_close c (strip_bracketed n s) = None.
Proof.
  revert s. induction n as [|n IH]; intros s Hs;
    [destruct s; simpl; exact Hs|].
  destruct s as [|u s]; [exact Hs|]. simpl in Hs |- *.
  destruct (N.eqb_spec u c) as [->|Hc]; [discriminate|].
  assert (after_close c (u :: strip_bracketed n s) = None) as Hkeep.
  { simpl. destruct (N.eqb_spec u c); [contradiction|].
    destruct (is_line_terminator u); [reflexivity|]. now apply IH. }
  destruct (closing u) as [close|] eqn:Hclosing; [|exact Hkeep].
  destruct (after_close close s) as [rest|] eqn:Hrest; [|exact Hkeep].
  apply closing_not_terminator in Hclosing as [Hu Hclose].
  rewrite Hu in Hs. apply IH.
  exact (after_close_suffix c close s rest Hclose Hs Hrest).
Qed.

Lemma strip_bracketed_clean n s :
  (length s <= n)%nat -> has_bracketed (strip_bracketed n s) = false.
Proof.
  revert s. induction n as [|n IH]; intros s Hlen.
  - destruct s; [reflexivity|simpl in Hlen; lia].
  - destruct s as [|u s]; [reflexivity|]. simpl in Hlen |- *.
    assert (has_bracketed (strip_bracketed n s) = false) as Hs
      by (apply IH; lia).
    destruct (closing u) as [close|] eqn:Hclosing.
    + destruct (after_close close s) as [rest|] eqn:Hrest.
      * apply IH. apply after_close_length in Hrest. lia.
      * simpl. rewrite Hclosing, after_close_strip by exact Hrest. exact Hs.
    + simpl. rewrite Hclosing. exact Hs.
Qed.

Lemma strip_bracketed_id n s :
  has_bracketed s = false -> strip_bracketed n s = s.
Proof.
  revert s. induction n as [|n IH]; intros s Hs; [destruct s; reflexivity|].
  destruct s as [|u s]; [reflexivity|]. simpl in Hs |- *.
  destruct (closing u) as [close|].
  - destruct (after_close close s); [discriminate|]. now rewrite IH.
  - now rewrite IH.
Qed.

Lemma after_close_prefix c a b :
  after_close c (a ++ b) = None -> after_close c a = None.
Proof.
  induction a as [|u a IH]; simpl; [reflexivity|].
  destruct (u =? c); [discriminate|].
  destruct (is_line_terminator u); [reflexivity|exact IH].
Qed.

Lemma has_bracketed_suffix a b :
  has_bracketed (a ++ b) = false -> has_bracketed b = false.
Proof.
  induction a as [|u a IH]; simpl; [auto|].
  destruct (closing u); [|exact IH].
  destruct (after_close _ _); [discriminate|exact IH].
Qed.

Lemma has_bracketed_prefix a b :
  has_bracketed (a ++ b) = false -> has_bracketed a = false.
Proof.
  induction a as [|u a IH]; simpl; [reflexivity|].
  destruct (closing u) as [close|]; [|exact IH].
  destruct (after_close close (a ++ b)) eqn:Hab; [discriminate|].
  apply after_close_prefix in Hab. rewrite Hab. exact IH.
Qed.

Lemma skip_space_suffix s : exists a, s = a ++ skip_space s.
Proof.
  induction s as [|u s [a IH]]; simpl; [now exists []|].
  destruct (is_js_space u); [|now exists []].
  exists (u :: a). simpl. now rewrite <- IH.
Qed.

Lemma skip_space_head s :
  match skip_space s with
  | u :: _ => is_js_space u = false
  | [] => True
  end.
Proof.
  induction s as [|u s IH]; simpl; [exact I|].
  destruct (is_js_space u) eqn:Hu; [exact IH|exact Hu].
Qed.

Lemma skip_space_id s :
  match s with u :: _ => is_js_space u = false | [] => True end ->
  skip_space s = s.
Proof. destruct s as [|u s]; simpl; [reflexivity|]. now intros ->. Qed.

Lemma trim_substring s : exists a b, s = a ++ trim s ++ b.
Proof.
  unfold trim. destruct (skip_space_suffix s) as [a Ha].
  destruct (skip_space_suffix (rev (skip_space s))) as [b Hb].
  exists a, (rev b). rewrite Ha at 1. f_equal.
  rewrite <- rev_app_distr, <- Hb. now rewrite rev_involutive.
Qed.

Lemma trim_prefix_of_skip s : exists b, skip_space s = trim s ++ b.
Proof.
  unfold trim.
  destruct (skip_space_suffix (rev (skip_space s))) as [b Hb].
  exists (rev b). rewrite <- rev_app_distr, <- Hb. now rewrite rev_involutive.
Qed.

Lemma trim_head s :
  match trim s with u :: _ => is_js_space u = false | [] => True end.
Proof.
  destruct (trim_prefix_of_skip s) as [b Hb].
  pose proof (skip_space_head s) as Hh. rewrite Hb in Hh.
  destruct (trim s); [exact I|exact Hh].
Qed.

Lemma trim_id s :
  match s with u :: _ => is_js_space u = false | [] => True end ->
  match last s with Some u => is_js_space u = false | None => True end ->
  trim s = s.
Proof.
  intros Hh Hl. unfold trim. rewrite (skip_space_id s Hh).
  rewrite skip_space_id; [apply rev_involutive|].
  destruct (rev s) as [|u r] eqn:Hr; [exact I|].
  assert (s = rev r ++ [u]) as ->.
  { rewrite <- (rev_involutive s), Hr. reflexivity. }
  now rewrite last_snoc in Hl.
Qed.

Lemma split_space_go_nonempty acc s : split_space_go acc s <> [].
Proof.
  revert acc. induction s as [|u s IH]; intros acc; simpl; [discriminate|].
  destruct (u =? SPACE); [discriminate|apply IH].
Qed.

Lemma join_split_space acc s :
  join_space (split_space_go acc s) = rev acc ++ s.
Proof.
  revert acc. induction s as [|u s IH]; intros acc; simpl.
  - now rewrite app_nil_r.
  - destruct (N.eqb_spec u SPACE) as [->|Hu].
    + destruct (split_space_go [] s) as [|w ws] eqn:Hsplit.
      { now apply split_space_go_nonempty in Hsplit. }
      rewrite <- Hsplit.
      change (join_space (rev acc :: split_space_go [] s))
        with (match split_space_go [] s with
              | [] => rev acc
              | _ => rev acc ++ SPACE :: join_space (split_space_go [] s)
              end).
      rewrite Hsplit, <- Hsplit, IH. reflexivity.
    + rewrite IH. simpl. now rewrite <- app_assoc.
Qed.

Lemma join_space_app l1 l2 :
  l1 <> [] -> l2 <> [] ->
  join_space (l1 ++ l2) = join_space l1 ++ SPACE :: join_space l2.
Proof.
  intros Hl1 Hl2. induction l1 as [|w l1 IH]; [contradiction|].
  destruct l1 as [|w' l1].
  - simpl. destruct l2; [contradiction|reflexivity].
  - change (join_space ((w :: w' :: l1) ++ l2))
      with (w ++ SPACE :: join_space ((w' :: l1) ++ l2)).
    rewrite IH by discriminate.
    change (join_space (w :: w' :: l1))
      with (w ++ SPACE :: join_space (w' :: l1)).
    now rewrite <- app_assoc.
Qed.

Lemma join_take_prefix n l :
  exists rest, join_space l = join_space (take n l) ++ rest.
Proof.
  pose proof (take_drop n l) as Hl.
  destruct (take n l) as [|w ws] eqn:Ht; [now eexists|].
  destruct (drop n l) as [|d ds] eqn:Hd.
  - exists []. now rewrite <- Hl, !app_nil_r.
  - exists (SPACE :: join_space (d :: ds)). rewrite <- Hl.
    apply join_space_app; discriminate.
Qed.

Lemma spaces_app a b : spaces (a ++ b) = (spaces a + spaces b)%nat.
Proof. unfold spaces. now rewrite List.filter_app, length_app. Qed.

Lemma split_space_go_pieces acc s :
  spaces (rev acc) = 0%nat ->
  Forall (fun w => spaces w = 0%nat) (split_space_go acc s)
  /\ length (split_space_go acc s) = S (spaces s).
Proof.
  revert acc. induction s as [|u s IH]; intros acc Hacc; simpl.
  - split; [repeat constructor; exact Hacc|reflexivity].
  - unfold spaces at 2. simpl. fold (spaces s).
    destruct (N.eqb_spec u SPACE) as [->|Hu].
    + destruct (IH [] eq_refl) as [Hall Hlen]. split.
      * constructor; assumption.
      * simpl. now rewrite Hlen.
    + apply IH. simpl. rewrite spaces_app, Hacc. unfold spaces. simpl.
      destruct (N.eqb_spec u SPACE); [contradiction|reflexivity].
Qed.

Lemma spaces_join l :
  Forall (fun w => spaces w = 0%nat) l ->
  spaces (join_space l) = (length l - 1)%nat.
Proof.
  induction 1 as [|w l Hw Hl IH]; [reflexivity|].
  destruct l as [|w' l]; [simpl; rewrite Hw; reflexivity|].
  change (join_space (w :: w' :: l))
    with (w ++ SPACE :: join_space (w' :: l)).
  rewrite spaces_app, Hw.
  change (spaces (SPACE :: join_space (w' :: l)))
    with (S (spaces (join_space (w' :: l)))).
  rewrite IH. simpl. lia.
Qed.

Lemma strip_bracketed_length n s :
  (length (strip_bracketed n s) <= length s)%nat.
Proof.
  revert s. induction n as [|n IH]; intros s; [destruct s; simpl; lia|].
  destruct s as [|u s]; [simpl; lia|]. simpl.
  destruct (closing u) as [close|]; [|simpl; specialize (IH s); lia].
  destruct (after_close close s) as [r|] eqn:Hr;
    [|simpl; specialize (IH s); lia].
  apply after_close_length in Hr. specialize (IH r). lia.
Qed.

(** X18.  The search seed of a title holds no bracketed part any
    more (no opening bracket with its closing bracket later on the
    line), has at most four words (three spaces), does not start with
    white space and is no longer than the title. *)
Theorem cleanTitleForSearch_shape title :
  let seed := cleanTitleForSearch title in
  has_bracketed seed = false
  /\ (spaces seed <= 3)%nat
  /\ match seed with u :: _ => is_js_space u = false | [] => True end
  /\ (length seed <= length title)%nat.
Proof.
  intros seed. unfold seed, cleanTitleForSearch.
  set (stripped := strip_bracketed (length title) title).
  assert (has_bracketed stripped = false) as Hclean
    by (apply strip_bracketed_clean; lia).
  destruct (trim_substring stripped) as (a & b & Htrim).
  destruct (join_take_prefix 4 (split_space_go [] (trim stripped)))
    as [rest Hrest].
  rewrite join_split_space in Hrest. simpl in Hrest.
  destruct (split_space_go_pieces [] (trim stripped) eq_refl) as [Hall Hlen].
  repeat split.
  - rewrite Htrim in Hclean.
    apply has_bracketed_suffix, has_bracketed_prefix in Hclean.
    rewrite Hrest in Hclean. now apply has_bracketed_prefix in Hclean.
  - rewrite spaces_join by (apply Forall_take; exact Hall).
    rewrite length_take. lia.
  - pose proof (trim_head stripped) as Hh. rewrite Hrest in Hh.
    destruct (join_space _); [exact I|exact Hh].
  - pose proof (strip_bracketed_length (length title) title) as Hs.
    fold stripped in Hs.
    apply (f_equal length) in Htrim, Hrest.
    rewrite !length_app in Htrim. rewrite !length_app in Hrest. lia.
Qed.

(** X19.  A title without a bracketed part, without white space at
    either end and of at most four words is its own search seed. *)
Theorem cleanTitleForSearch_keeps_plain title :
  has_bracketed title = false ->
  match title with u :: _ => is_js_space u = false | [] => True end ->
  match last title with Some u => is_js_space u = false | None => True end ->
  (spaces title <= 3)%nat ->
  cleanTitleForSearch title = title.
Proof.
  intros Hb Hhead Hlast Hsp. unfold cleanTitleForSearch.
  rewrite strip_bracketed_id by exact Hb.
  rewrite trim_id by assumption.
  destruct (split_space_go_pieces [] title eq_refl) as [_ Hlen].
  rewrite take_ge by lia.
  apply join_split_space.
Qed.

Lemma cleanTitleForSearch_keeps_plain_witness :
  cleanTitleForSearch (utf16 "Lo-fi beats (live") = utf16 "Lo-fi beats (live".
Proof.
  apply cleanTitleForSearch_keeps_plain.
  - reflexivity.
  - reflexivity.
  - reflexivity.
  - vm_compute. lia.
Defined.

End TitleFacts.

(** ** The stream endpoint *)

Lemma find_descending {A} (key : A -> Q) (P : A -> bool) l x :
  descending key l -> List.find P l = Some x ->
  x ∈ l /\ P x = true
  /\ forall y, y ∈ l -> P y = true -> (key y <= key x)%Q.
Proof.
  induction l as [|z l IH]; simpl; intros Hd Hfind; [discriminate|].
  apply descending_cons in Hd as [Hz Hd].
  destruct (P z) eqn:HPz.
  - injection Hfind as <-. repeat split; [apply elem_of_cons; auto|exact HPz|].
    intros y Hy _. apply elem_of_cons in Hy as [->|Hy];
      [apply Qle_refl|now apply Hz].
  - destruct (IH Hd Hfind) as (Hx & HPx & Hmax).
    repeat split; [apply elem_of_cons; auto|exact HPx|].
    intros y Hy HPy. apply elem_of_cons in Hy as [->|Hy]; [congruence|].
    now apply Hmax.
Qed.

Lemma find_none_elem {A} (P : A -> bool) l :
  List.find P l = None -> forall y, y ∈ l -> P y = false.
Proof.
  intros Hfind y Hy. apply list_elem_of_In in Hy.
  exact (List.find_none P l Hfind y Hy).
Qed.

Lemma head_descending {A} (key : A -> Q) l :
  descending key l ->
  match head l with
  | Some x => x ∈ l /\ forall y, y ∈ l -> (key y <= key x)%Q
  | None => l = []
  end.
Proof.
  destruct l as [|x l]; simpl; [reflexivity|]. intros Hd.
  apply descending_cons in Hd as [Hx _].
  split; [apply elem_of_cons; auto|].
  intros y Hy. apply elem_of_cons in Hy as [->|Hy];
    [apply Qle_refl|now apply Hx].
Qed.

Lemma elem_of_filter_iff {A} (P : A -> bool) l x :
  x ∈ List.filter P l <-> x ∈ l /\ P x = true.
Proof. rewrite !list_elem_of_In. apply filter_In. Qed.

Section StreamFacts.
Context `{StreamApi.Host}.
Import StreamApi.

Lemma combinedFormats_spec formats :
  combinedFormats_of formats ≡ₚ List.filter isCombined formats
  /\ descending (fun f => number_or_0 (height f)) (combinedFormats_of formats)
  /\ forall f, f ∈ combinedFormats_of formats
               <-> f ∈ formats /\ isCombined f = true.
Proof.
  unfold combinedFormats_of. split; [apply sort_desc_perm|].
  split; [apply sort_desc_descending|].
  intros f. rewrite sort_desc_perm. apply elem_of_filter_iff.
Qed.

Lemma audioOnlyFormats_spec formats :
  descending (fun f => number_or_0 (abr f)) (audioOnlyFormats_of formats)
  /\ forall f, f ∈ audioOnlyFormats_of formats
               <-> f ∈ formats /\ isAudioOnly f = true.
Proof.
  unfold audioOnlyFormats_of. split; [apply sort_desc_descending|].
  intros f. rewrite sort_desc_perm. apply elem_of_filter_iff.
Qed.

(** X20.  The answer lists the formats that are MP4 with video and
    audio over HTTP(S), each once, by falling height (a missing height
    counting as 0); the streaming URL is that of a format of greatest
    height among them, and [null] when there is none. *)
Theorem streams_combined_formats formats :
  match streams formats with
  | Streams streamingUrl _ entries _ _ =>
    exists combined,
      combined ≡ₚ List.filter isCombined formats
      /\ descending (fun f => number_or_0 (height f)) combined
      /\ List.map entry_url entries = List.map url combined
      /\ List.map container entries = List.map ext combined
      /\ match head combined with
         | Some best =>
           streamingUrl = url best
           /\ best ∈ formats /\ isCombined best = true
           /\ forall f, f ∈ formats -> isCombined f = true ->
                (number_or_0 (height f) <= number_or_0 (height best))%Q
         | None =>
           streamingUrl = Null /\ entries = []
           /\ forall f, f ∈ formats -> isCombined f = false
         end
  | _ => False
  end.
Proof.
  unfold streams. cbv zeta.
  destruct (combinedFormats_spec formats) as (Hperm & Hdesc & Hin).
  exists (combinedFormats_of formats).
  split; [exact Hperm|]. split; [exact Hdesc|].
  rewrite !List.map_map. simpl.
  split; [reflexivity|]. split; [reflexivity|].
  pose proof (head_descending _ _ Hdesc) as Hhead.
  destruct (head (combinedFormats_of formats)) as [best|].
  - destruct Hhead as [Hbest Hmax]. apply Hin in Hbest as [Hbest Hc].
    repeat split; try assumption.
    intros f Hf Hfc. apply Hmax, Hin. split; assumption.
  - rewrite Hhead. repeat split.
    intros f Hf. destruct (isCombined f) eqn:Hfc; [|reflexivity].
    assert (f ∈ combinedFormats_of formats) as Hfin by (apply Hin; auto).
    rewrite Hhead in Hfin. now apply elem_of_nil in Hfin.
Qed.

Lemma bestAudio_spec formats :
  match bestAudio_of formats with
  | Some a =>
    a ∈ formats /\ isAudioOnly a = true
    /\ forall f, f ∈ formats -> isAudioOnly f = true ->
         if equals (ext a) s_m4a
         then equals (ext f) s_m4a = true ->
              (number_or_0 (abr f) <= number_or_0 (abr a))%Q
         else equals (ext f) s_m4a = false
              /\ (number_or_0 (abr f) <= number_or_0 (abr a))%Q
  | None => forall f, f ∈ formats -> isAudioOnly f = false
  end.
Proof.
  unfold bestAudio_of.
  destruct (audioOnlyFormats_spec formats) as (Hdesc & Hin).
  destruct (List.find _ (audioOnlyFormats_of formats)) as [a|] eqn:Hfind.
  - destruct (find_descending _ _ _ _ Hdesc Hfind) as (Ha & Hm4a & Hmax).
    apply Hin in Ha as [Ha Haudio].
    repeat split; try assumption.
    intros f Hf Hfa. rewrite Hm4a. intros Hfm. apply Hmax; [|exact Hfm].
    apply Hin. split; assumption.
  - pose proof (find_none_elem _ _ Hfind) as Hnone.
    pose proof (head_descending _ _ Hdesc) as Hhead.
    destruct (head (audioOnlyFormats_of formats)) as [a|].
    + destruct Hhead as [Ha Hmax].
      rewrite (Hnone a Ha). apply Hin in Ha as [Ha Haudio].
      repeat split; try assumption.
      * apply Hnone, Hin. split; assumption.
      * apply Hmax, Hin. split; assumption.
    + intros f Hf. destruct (isAudioOnly f) eqn:Hfa; [|reflexivity].
      assert (f ∈ audioOnlyFormats_of formats) as Hfin by (apply Hin; auto).
      rewrite Hhead in Hfin. now apply elem_of_nil in Hfin.
Qed.

(** X21.  The audio-only format of the answer is an audio-only format
    over HTTP(S): an M4A one of greatest bitrate among the M4A ones if
    there is one, else one of greatest bitrate; it is [null] exactly
    when there is none.  The separate 1080p entry is there exactly
    when some format is a video-only MP4 of height 1080, and its audio
    is the same audio-only format. *)
Theorem streams_audio_and_1080p formats :
  match streams formats with
  | Streams _ _ _ audioOnlyFormat separate1080p =>
    match audioOnlyFormat with
    | Some entry =>
      exists a,
        a ∈ formats /\ isAudioOnly a = true
        /\ entry_url entry = url a /\ container entry = ext a
        /\ forall f, f ∈ formats -> isAudioOnly f = true ->
             if equals (ext a) s_m4a
             then equals (ext f) s_m4a = true ->
                  (number_or_0 (abr f) <= number_or_0 (abr a))%Q
             else equals (ext f) s_m4a = false
                  /\ (number_or_0 (abr f) <= number_or_0 (abr a))%Q
    | None => forall f, f ∈ formats -> isAudioOnly f = false
    end
    /\ match separate1080p with
       | Some separate =>
         (exists v, v ∈ formats /\ isVideo1080p v = true
                    /\ entry_url (sep_video separate) = url v)
         /\ entry_url <$> sep_audio separate = entry_url <$> audioOnlyFormat
         /\ container <$> sep_audio separate = container <$> audioOnlyFormat
       | None => forall f, f ∈ formats -> isVideo1080p f = false
       end
  | _ => False
  end.
Proof.
  unfold streams. cbv zeta.
  pose proof (bestAudio_spec formats) as Haudio.
  split.
  - destruct (bestAudio_of formats) as [a|]; [|exact Haudio].
    exists a. destruct Haudio as (Ha & Hao & Hbest).
    repeat split; assumption.
  - unfold video1080pFormat_of.
    destruct (List.find isVideo1080p formats) as [v|] eqn:Hfind.
    + apply List.find_some in Hfind as [Hv Hp].
      split; [exists v; repeat split; [now apply list_elem_of_In|exact Hp]|].
      destruct (bestAudio_of formats); split; reflexivity.
    + now apply find_none_elem.
Qed.

(** X22.  On every path the handler sets the three CORS headers first
    and answers exactly once, at the end: with status 200 for
    [OPTIONS] and for a listing of streams, with 400 or 500 and an
    error otherwise. *)
Theorem handler_answers_once req :
  exists effects status body,
    handler req = cors_headers ++ effects ++ [Respond status body]
    /\ Forall (fun e => is_response e = false) (cors_headers ++ effects)
    /\ match body with
       | NoBody | Streams _ _ _ _ _ => status = 200%nat
       | Failure _ _ => status = 400%nat \/ status = 500%nat
       end.
Proof.
  unfold handler, run.
  destruct (jseqb (method req) s_OPTIONS).
  { exists [], 200%nat, NoBody. repeat split. repeat constructor. }
  destruct (truthy_videoId (query_videoId req)) as [videoId|].
  2:{ eexists [], 400%nat, _. repeat split; [repeat constructor|]. auto. }
  assert (exists status body,
            on_exit (execFile ytdlpPath (yt_dlp_args videoId))
            = Respond status body
            /\ match body with
               | NoBody | Streams _ _ _ _ _ => status = 200%nat
               | Failure _ _ => status = 400%nat \/ status = 500%nat
               end) as (status & body & Hexit & Hstatus).
  { unfold on_exit.
    destruct (error _); [eexists _, _; split; [reflexivity|]; simpl; auto|].
    destruct (JSON_parse_formats _);
      eexists _, _; (split; [reflexivity|]); simpl; auto. }
  destruct (existsSync ytdlpPath).
  { eexists [_; _; _], status, body. rewrite Hexit.
    repeat split; [repeat constructor|exact Hstatus]. }
  destruct (existsSync fallbackPath).
  { eexists [_; _; _; _], status, body. rewrite Hexit.
    repeat split; [repeat constructor|exact Hstatus]. }
  eexists [_; _], 500%nat, _.
  repeat split; [repeat constructor|]. auto.
Qed.

(** X23.  The handler touches the binary only for a request that is
    not [OPTIONS], names a video, and finds the binary at one of the
    two paths; it then makes it executable and runs it once, always at
    the first path, with the four fixed arguments and the watch URL of
    the video as the fifth. *)
Theorem handler_runs_yt_dlp req :
  let wanted :=
    method req <> s_OPTIONS
    /\ is_Some (truthy_videoId (query_videoId req))
    /\ (existsSync ytdlpPath = true \/ existsSync fallbackPath = true) in
  ((exists e, e ∈ handler req /\ touches_binary e = true) -> wanted)
  /\ (wanted ->
      exists videoId,
        truthy_videoId (query_videoId req) = Some videoId
        /\ List.filter touches_binary (handler req)
           = [ChmodSync ytdlpPath rwxr_xr_x;
              ExecFile ytdlpPath
                [utf16 "--proxy"; PROXY_URL; utf16 "--no-cache-dir";
                 utf16 "--dump-json";
                 utf16 "https://www.youtube.com/watch?v=" ++ videoId]]).
Proof.
  intros wanted. unfold wanted, handler, run.
  assert (forall videoId,
            touches_binary
              (on_exit (execFile ytdlpPath (yt_dlp_args videoId))) = false)
    as Hexit.
  { intros videoId. unfold on_exit. destruct (error _); [reflexivity|].
    destruct (JSON_parse_formats _); reflexivity. }
  destruct (jseqb (method req) s_OPTIONS) eqn:Hm.
  { split.
    - intros (e & He & Ht). simpl in He.
      rewrite !elem_of_cons, elem_of_nil in He.
      destruct He as [->|[->|[->|[->|[]]]]]; discriminate.
    - intros (Hne & _). apply jseqb_eq in Hm. contradiction. }
  apply jseqb_neq in Hm.
  destruct (truthy_videoId (query_videoId req)) as [videoId|].
  2:{ split.
      - intros (e & He & Ht). simpl in He.
        rewrite !elem_of_cons, elem_of_nil in He.
        destruct He as [->|[->|[->|[->|[]]]]]; discriminate.
      - intros (_ & [? Hsome] & _). discriminate. }
  destruct (existsSync ytdlpPath).
  { split; [intros _; repeat split; eauto|].
    intros _. exists videoId. split; [reflexivity|].
    simpl. now rewrite Hexit. }
  destruct (existsSync fallbackPath).
  { split; [intros _; repeat split; eauto|].
    intros _. exists videoId. split; [reflexivity|].
    simpl. now rewrite Hexit. }
  split.
  - intros (e & He & Ht). simpl in He.
    rewrite !elem_of_cons, elem_of_nil in He.
    destruct He as [->|[->|[->|[->|[->|[->|[]]]]]]]; discriminate.
  - intros (_ & _ & [?|?]); discriminate.
Qed.

End StreamFacts.

(** ** The watch page *)

Section PlaylistFacts.
Import PlayerPage.

Lemma find_app {A} (p : A -> bool) l1 l2 :
  List.find p (l1 ++ l2)
  = match List.find p l1 with
    | Some x => Some x
    | None => List.find p l2
    end.
Proof.
  induction l1 as [|x l1 IH]; simpl; [reflexivity|].
  now destruct (p x).
Qed.

Lemma videoMap_fold_lookup (m : gmap jsstring Video) fetched i :
  fold_left (fun m v => <[ id v := v ]> m) fetched m !! i
  = match List.find (fun v => jseqb (id v) i) (rev fetched) with
    | Some v => Some v
    | None => m !! i
    end.
Proof.
  revert m. induction fetched as [|v fetched IH]; intros m; simpl.
  - reflexivity.
  - rewrite IH, find_app.
    destruct (List.find _ (rev fetched)); [reflexivity|]. simpl.
    destruct (jseqb (id v) i) eqn:Hv.
    + apply jseqb_eq in Hv as <-. apply lookup_insert_eq.
    + apply jseqb_neq in Hv. now apply lookup_insert_ne.
Qed.

Lemma videoMap_lookup fetched i :
  videoMap fetched !! i = List.find (fun v => jseqb (id v) i) (rev fetched).
Proof.
  unfold videoMap. rewrite videoMap_fold_lookup, lookup_empty.
  now destruct (List.find _ _).
Qed.

Lemma videoMap_Some fetched i v :
  videoMap fetched !! i = Some v -> v ∈ fetched /\ id v = i.
Proof.
  rewrite videoMap_lookup. intros Hfind.
  apply List.find_some in Hfind as [Hin Hid].
  apply jseqb_eq in Hid. split; [|exact Hid].
  apply list_elem_of_In. now apply in_rev.
Qed.

Lemma videoMap_is_Some fetched i :
  is_Some (videoMap fetched !! i) <-> i ∈ List.map id fetched.
Proof.
  split.
  - intros [v Hv]. apply videoMap_Some in Hv as [Hin <-].
    change (id v ∈ id <$> fetched). now apply list_elem_of_fmap_2.
  - intros Hi. change (i ∈ id <$> fetched) in Hi.
    apply list_elem_of_fmap in Hi as (v & -> & Hv).
    rewrite videoMap_lookup.
    destruct (List.find _ (rev fetched)) eqn:Hfind; [eauto|].
    exfalso. pose proof (List.find_none _ _ Hfind v) as Hnone.
    cbv beta in Hnone. rewrite jseqb_refl in Hnone.
    assert (true = false) as E; [|discriminate E].
    apply Hnone. apply in_rev. rewrite rev_involutive.
    now apply list_elem_of_In.
Qed.

(** X24.  The videos of a playlist are shown in the order of the
    playlist, whatever the order of the response: their ids are the
    ids of the playlist that the response holds, in place; each is a
    video of the response; and when the response holds every id, the
    ids are those of the playlist. *)
Theorem orderedVideos_playlist_order videoIds fetchedVideos :
  List.map id (orderedVideos videoIds fetchedVideos)
  = List.filter (fun i => bool_decide (i ∈ List.map id fetchedVideos))
                videoIds
  /\ (forall v, v ∈ orderedVideos videoIds fetchedVideos ->
        v ∈ fetchedVideos /\ id v ∈ videoIds)
  /\ ((forall i, i ∈ videoIds -> i ∈ List.map id fetchedVideos) ->
      List.map id (orderedVideos videoIds fetchedVideos) = videoIds).
Proof.
  assert (List.map id (orderedVideos videoIds fetchedVideos)
          = List.filter (fun i => bool_decide (i ∈ List.map id fetchedVideos))
                        videoIds) as Hids.
  { unfold orderedVideos. induction videoIds as [|i videoIds IH]; simpl;
      [reflexivity|].
    destruct (videoMap fetchedVideos !! i) as [v|] eqn:Hv.
    - rewrite bool_decide_true by (apply videoMap_is_Some; eauto).
      apply videoMap_Some in Hv as [_ Hid]. simpl.
      f_equal; [exact Hid|exact IH].
    - rewrite bool_decide_false; [exact IH|].
      intros Hi. apply videoMap_is_Some in Hi as [? Hi]. congruence. }
  split; [exact Hids|]. split.
  - intros v Hv. unfold orderedVideos in Hv.
    apply list_elem_of_omap in Hv as (i & Hi & Hv).
    apply videoMap_Some in Hv as [Hin <-]. split; assumption.
  - intros Hall. rewrite Hids. apply filter_all.
    apply Forall_forall. intros i Hi. apply bool_decide_eq_true.
    now apply Hall.
Qed.

(** *** [URLSearchParams] *)

Lemma usp_get_delete name key params :
  usp_get key (usp_delete name params)
  = if jseqb key name then None else usp_get key params.
Proof.
  induction params as [|[n v] params IH]; simpl.
  - now destruct (jseqb key name).
  - destruct (jseqb n name) eqn:Hn; simpl.
    + rewrite IH. destruct (jseqb key name) eqn:Hk; [reflexivity|].
      apply jseqb_eq in Hn as ->.
      destruct (jseqb name key) eqn:Hnk; [|reflexivity].
      apply jseqb_eq in Hnk as ->. now rewrite jseqb_refl in Hk.
    + rewrite IH. destruct (jseqb n key) eqn:Hnk; [|reflexivity].
      apply jseqb_eq in Hnk as ->. now rewrite Hn.
Qed.

Lemma usp_get_set name value key params :
  usp_get key (usp_set name value params)
  = if jseqb key name then Some value else usp_get key params.
Proof.
  induction params as [|[n v] params IH]; simpl.
  - destruct (jseqb key name) eqn:Hk.
    + apply jseqb_eq in Hk as ->. now rewrite jseqb_refl.
    + destruct (jseqb name key) eqn:Hnk; [|reflexivity].
      apply jseqb_eq in Hnk as ->. now rewrite jseqb_refl in Hk.
  - destruct (jseqb n name) eqn:Hn; simpl.
    + apply jseqb_eq in Hn as ->.
      destruct (jseqb name key) eqn:Hnk.
      * apply jseqb_eq in Hnk as ->. now rewrite jseqb_refl.
      * rewrite usp_get_delete.
        destruct (jseqb key name) eqn:Hk; [|reflexivity].
        apply jseqb_eq in Hk as ->. now rewrite jseqb_refl in Hnk.
    + rewrite IH. destruct (jseqb n key) eqn:Hnk; [|reflexivity].
      apply jseqb_eq in Hnk as ->. now rewrite Hn.
Qed.

Lemma usp_delete_absent name params :
  usp_get name params = None -> usp_delete name params = params.
Proof.
  induction params as [|[n v] params IH]; simpl; [reflexivity|].
  destruct (jseqb n name); [discriminate|]. simpl.
  intros Hget. now rewrite IH.
Qed.

Lemma usp_set_absent name value params :
  usp_get name params = None ->
  usp_set name value params = params ++ [(name, value)].
Proof.
  induction params as [|[n v] params IH]; simpl; [reflexivity|].
  destruct (jseqb n name); [discriminate|].
  intros Hget. now rewrite IH.
Qed.

Lemma usp_delete_snoc name value params :
  usp_delete name (params ++ [(name, value)]) = usp_delete name params.
Proof.
  unfold usp_delete. rewrite List.filter_app. simpl.
  rewrite jseqb_refl. simpl. apply app_nil_r.
Qed.

(** X25.  A toggle flips its flag, leaves the other flag and every
    other URL parameter alone, and leaves the URL saying what the flag
    says; so the effect that reads the flags back from the URL changes
    nothing after a toggle, two toggles restore the flags, and two
    toggles of a flag that the URL did not mention restore the URL. *)
Theorem toggles_follow_the_url st :
  (isShuffle (toggleShuffle st) = negb (isShuffle st)
   /\ isLoop (toggleShuffle st) = isLoop st
   /\ get_flag s_shuffle (toggleShuffle st) = isShuffle (toggleShuffle st)
   /\ forall key, key <> s_shuffle ->
        usp_get key (searchParams (toggleShuffle st))
        = usp_get key (searchParams st))
  /\ (isLoop (toggleLoop st) = negb (isLoop st)
      /\ isShuffle (toggleLoop st) = isShuffle st
      /\ get_flag s_loop (toggleLoop st) = isLoop (toggleLoop st)
      /\ forall key, key <> s_loop ->
           usp_get key (searchParams (toggleLoop st))
           = usp_get key (searchParams st))
  /\ (syncFlags st = st ->
      syncFlags (toggleShuffle st) = toggleShuffle st
      /\ syncFlags (toggleLoop st) = toggleLoop st
      /\ isShuffle (toggleShuffle (toggleShuffle st)) = isShuffle st
      /\ (forall key,
            get_flag key (toggleShuffle (toggleShuffle st)) = get_flag key st)
      /\ (usp_get s_shuffle (searchParams st) = None ->
          searchParams (toggleShuffle (toggleShuffle st)) = searchParams st)).
Proof.
  assert (forall key name value params,
            key <> name ->
            usp_get key
              (match value with
               | None => usp_delete name params
               | Some v => usp_set name v params
               end) = usp_get key params) as Hother.
  { intros key name [v|] params Hne;
      rewrite ?usp_get_set, ?usp_get_delete;
      apply jseqb_neq in Hne; now rewrite Hne. }
  assert (forall name (flag : bool) params,
            bool_decide
              (usp_get name
                 (match (if flag then Some s_1 else None) with
                  | None => usp_delete name params
                  | Some v => usp_set name v params
                  end) = Some s_1) = flag) as Hflag.
  { intros name [|] params; rewrite ?usp_get_set, ?usp_get_delete,
      jseqb_refl; [now apply bool_decide_eq_true|now apply bool_decide_eq_false]. }
  split; [|split].
  - unfold toggleShuffle, updateUrlParams, get_flag. simpl.
    repeat split; [apply Hflag|]. intros key Hne. now apply Hother.
  - unfold toggleLoop, updateUrlParams, get_flag. simpl.
    repeat split; [apply Hflag|]. intros key Hne. now apply Hother.
  - intros Hsync. destruct st as [params shuffle loop].
    unfold syncFlags in Hsync. simpl in Hsync.
    injection Hsync as Hs Hl.
    assert (s_shuffle <> s_loop) as Hne by discriminate.
    split; [|split; [|split; [|split]]].
    + unfold syncFlags, toggleShuffle, updateUrlParams. simpl.
      rewrite Hflag. f_equal. rewrite Hother by (intros E; now apply Hne).
      exact Hl.
    + unfold syncFlags, toggleLoop, updateUrlParams. simpl.
      rewrite Hflag. f_equal. rewrite Hother by exact Hne. exact Hs.
    + simpl. apply negb_involutive.
    + intros key. unfold get_flag, toggleShuffle, updateUrlParams. simpl.
      rewrite negb_involutive.
      destruct (jseqb key s_shuffle) eqn:Hk.
      * apply jseqb_eq in Hk as ->. rewrite Hflag. symmetry. exact Hs.
      * apply jseqb_neq in Hk.
        rewrite (Hother key s_shuffle (if shuffle then Some s_1 else None))
          by exact Hk.
        now rewrite (Hother key s_shuffle
                       (if negb shuffle then Some s_1 else None)).
    + simpl. intros Habsent.
      assert (shuffle = false) as ->.
      { rewrite <- Hs. apply bool_decide_eq_false. now rewrite Habsent. }
      unfold toggleShuffle, updateUrlParams. simpl.
      rewrite usp_set_absent by exact Habsent.
      rewrite usp_delete_snoc. now apply usp_delete_absent.
Qed.

End PlaylistFacts.

(** ** The query of a search *)

Ltac div_lia := zify; Z.to_euclidean_division_equations; lia.

Lemma hex_digit_value d : d < 16 -> hex_value (hex_digit d) = d.
Proof.
  intros Hd. unfold hex_digit, hex_value, is_digit.
  destruct (N.ltb_spec d 10).
  - replace ((0x30 <=? 0x30 + d) && (0x30 + d <=? 0x39)) with true
      by (symmetry; n_lia). lia.
  - replace ((0x30 <=? 0x41 + (d - 10)) && (0x41 + (d - 10) <=? 0x39))
      with false by (symmetry; n_lia).
    replace ((0x41 <=? 0x41 + (d - 10)) && (0x41 + (d - 10) <=? 0x46))
      with true by (symmetry; n_lia). lia.
Qed.

Lemma hex_digit_safe d : d < 16 -> is_query_safe (hex_digit d) = true.
Proof.
  intros Hd. unfold is_query_safe, is_unreserved, is_ascii_alnum, is_digit.
  unfold hex_digit. destruct (N.ltb_spec d 10).
  - replace ((0x30 <=? 0x30 + d) && (0x30 + d <=? 0x39)) with true
      by (symmetry; n_lia). reflexivity.
  - replace ((0x41 <=? 0x41 + (d - 10)) && (0x41 + (d - 10) <=? 0x5A))
      with true by (symmetry; n_lia).
    now rewrite orb_true_r.
Qed.

Lemma percent_decode_percent b rest :
  b < 256 -> percent_decode (percent b ++ rest) = b :: percent_decode rest.
Proof.
  intros Hb. unfold percent. simpl.
  rewrite !hex_digit_value by div_lia. f_equal. div_lia.
Qed.

Lemma percent_decode_octets bs rest :
  Forall (fun b => b < 256) bs ->
  percent_decode (flat_map percent bs ++ rest) = bs ++ percent_decode rest.
Proof.
  induction 1 as [|b bs Hb _ IH]; [reflexivity|]. cbn [flat_map].
  rewrite <- app_assoc, percent_decode_percent by exact Hb.
  now rewrite IH.
Qed.

Lemma percent_safe bs :
  Forall (fun b => b < 256) bs ->
  forallb is_query_safe (flat_map percent bs) = true.
Proof.
  induction 1 as [|b bs Hb _ IH]; [reflexivity|]. cbn [flat_map].
  rewrite forallb_app, IH, andb_true_r. unfold percent. cbn [forallb].
  rewrite !hex_digit_safe by div_lia. reflexivity.
Qed.

Lemma utf8_of_point_octets c :
  c < 0x110000 -> Forall (fun b => b < 256) (utf8_of_point c).
Proof.
  intros Hc. unfold utf8_of_point.
  destruct (N.ltb_spec c 0x80); [repeat constructor; lia|].
  destruct (N.ltb_spec c 0x800); [repeat constructor; div_lia|].
  destruct (N.ltb_spec c 0x10000); repeat constructor; div_lia.
Qed.

Lemma utf8_points_of_point c rest :
  c < 0x110000 ->
  utf8_points (utf8_of_point c ++ rest) = c :: utf8_points rest.
Proof.
  intros Hc. unfold utf8_of_point.
  destruct (N.ltb_spec c 0x80) as [H1|H1].
  { simpl. destruct (N.ltb_spec c 0x80); [reflexivity|lia]. }
  destruct (N.ltb_spec c 0x800) as [H2|H2].
  { cbn [app utf8_points].
    destruct (N.ltb_spec (0xC0 + c / 0x40) 0x80); [div_lia|].
    destruct (N.ltb_spec (0xC0 + c / 0x40) 0xE0); [|div_lia].
    f_equal. div_lia. }
  destruct (N.ltb_spec c 0x10000) as [H3|H3].
  { cbn [app utf8_points].
    destruct (N.ltb_spec (0xE0 + c / 0x1000) 0x80); [div_lia|].
    destruct (N.ltb_spec (0xE0 + c / 0x1000) 0xE0); [div_lia|].
    destruct (N.ltb_spec (0xE0 + c / 0x1000) 0xF0); [|div_lia].
    f_equal. div_lia. }
  cbn [app utf8_points].
  destruct (N.ltb_spec (0xF0 + c / 0x40000) 0x80); [div_lia|].
  destruct (N.ltb_spec (0xF0 + c / 0x40000) 0xE0); [div_lia|].
  destruct (N.ltb_spec (0xF0 + c / 0x40000) 0xF0); [div_lia|].
  f_equal. div_lia.
Qed.

Lemma units_of_code_point h l :
  is_high h = true -> is_low l = true ->
  code_point h l < 0x110000 /\ units_of_point (code_point h l) = [h; l].
Proof.
  unfold is_high, is_low, code_point, units_of_point. intros Hh Hl.
  n_prop. destruct Hh as [Hh1 Hh2], Hl as [Hl1 Hl2].
  split; [lia|].
  destruct (N.ltb_spec (0x10000 + (h - 0xD800) * 0x400 + (l - 0xDC00)) 0x10000);
    [lia|].
  f_equal; [div_lia|]. f_equal. div_lia.
Qed.

Lemma unreserved_ascii u :
  is_unreserved u = true -> u < 0x80 /\ (u =? 0x25) = false.
Proof.
  unfold is_unreserved, is_ascii_alnum, is_digit. simpl. n_lia.
Qed.

Lemma encodeURIComponent_spec s :
  code_units s ->
  match encodeURIComponent s with
  | Some encoded =>
    isWellFormed s = true
    /\ forallb is_query_safe encoded = true
    /\ decode_component encoded = s
  | None => isWellFormed s = false
  end.
Proof.
  unfold code_units.
  induction s as [|h l t Hpair IH|u t Hlone IH] using pair_ind; intros Hunits.
  - repeat split.
  - (* a surrogate pair *)
    simpl in Hunits. apply andb_true_iff in Hunits as [_ Hunits].
    apply andb_true_iff in Hunits as [_ Hunits]. specialize (IH Hunits).
    apply andb_true_iff in Hpair as [Hh Hl].
    assert (is_unreserved h = false) as Hun.
    { destruct (is_unreserved h) eqn:E; [|reflexivity].
      apply unreserved_ascii in E as [E _].
      unfold is_high in Hh. n_lia. }
    assert (is_low h = false) as Hhl by (unfold is_high, is_low in *; n_lia).
    simpl. rewrite Hun, Hhl, Hh, Hl. simpl.
    destruct (units_of_code_point h l Hh Hl) as [Hc Hpoint].
    destruct (encodeURIComponent t) as [e|]; simpl; [|exact IH].
    destruct IH as (Hwf & Hsafe & Hdec). repeat split; [exact Hwf|..].
    + rewrite forallb_app, Hsafe, percent_safe
        by (now apply utf8_of_point_octets). reflexivity.
    + unfold decode_component.
      rewrite percent_decode_octets by (now apply utf8_of_point_octets).
      rewrite utf8_points_of_point by exact Hc. cbn [flat_map].
      rewrite Hpoint. simpl. f_equal. f_equal. exact Hdec.
  - (* a unit outside a pair *)
    simpl in Hunits. apply andb_true_iff in Hunits as [Hbmp Hunits].
    apply N.ltb_lt in Hbmp. specialize (IH Hunits).
    simpl. destruct (is_unreserved u) eqn:Hun.
    + pose proof (unreserved_ascii u Hun) as [Hlt Hpc].
      assert (is_low u = false) as Hul by (unfold is_low; n_lia).
      assert (is_high u = false) as Huh by (unfold is_high; n_lia).
      rewrite Hul, Huh.
      destruct (encodeURIComponent t) as [e|]; simpl; [|exact IH].
      destruct IH as (Hwf & Hsafe & Hdec). repeat split; [exact Hwf|..].
      * unfold is_query_safe at 1. rewrite Hun. exact Hsafe.
      * unfold decode_component. simpl. rewrite Hpc. simpl.
        destruct (N.ltb_spec u 0x80); [|lia]. simpl.
        unfold units_of_point at 1.
        destruct (N.ltb_spec u 0x10000); [|lia]. simpl. f_equal. exact Hdec.
    + destruct (is_low u) eqn:Hul; [reflexivity|].
      destruct (is_high u) eqn:Huh.
      * destruct t as [|l t']; [reflexivity|].
        specialize (Hlone l t' eq_refl).
        simpl in Hlone. rewrite Hlone. reflexivity.
      * destruct (encodeURIComponent t) as [e|]; simpl; [|exact IH].
        destruct IH as (Hwf & Hsafe & Hdec). repeat split; [exact Hwf|..].
        -- rewrite forallb_app, Hsafe, percent_safe
             by (apply utf8_of_point_octets; lia). reflexivity.
        -- unfold decode_component.
           rewrite percent_decode_octets by (apply utf8_of_point_octets; lia).
           rewrite utf8_points_of_point by lia. cbn [flat_map].
           unfold units_of_point at 1.
           destruct (N.ltb_spec u 0x10000); [|lia]. simpl. f_equal.
           exact Hdec.
Qed.

Lemma findIndex_Some {A} (p : A -> bool) l i :
  findIndex p l = Some i ->
  exists x, l !! i = Some x /\ p x = true
            /\ l = take i l ++ x :: drop (S i) l.
Proof.
  revert i. induction l as [|y l IH]; intros i; simpl; [discriminate|].
  destruct (p y) eqn:Hy.
  - intros [= <-]. exists y. split; [reflexivity|]. split; [exact Hy|].
    simpl. now rewrite drop_0.
  - destruct (findIndex p l) as [j|]; [|discriminate]. simpl.
    intros [= <-]. destruct (IH j eq_refl) as (x & Hx & Hp & Hl).
    exists x. split; [exact Hx|]. split; [exact Hp|]. simpl. now rewrite <- Hl.
Qed.

Lemma findIndex_None {A} (p : A -> bool) l :
  findIndex p l = None -> forall y, y ∈ l -> p y = false.
Proof.
  induction l as [|x l IH]; simpl; intros Hfind y Hy.
  - now apply elem_of_nil in Hy.
  - destruct (p x) eqn:Hx; [discriminate|].
    destruct (findIndex p l); [discriminate|].
    apply elem_of_cons in Hy as [->|Hy]; [exact Hx|now apply IH].
Qed.

Section PlayerFacts.
Import PlayerPage.
Variable random_sort : list Video -> list Video.
Hypothesis random_sort_perm : forall l, random_sort l ≡ₚ l.

Lemma shuffled_perm isShuffle playlistVideos videoId :
  shuffledPlaylistVideos random_sort isShuffle playlistVideos videoId
  ≡ₚ playlistVideos.
Proof.
  unfold shuffledPlaylistVideos.
  destruct (negb isShuffle || _); [reflexivity|].
  destruct (findIndex _ playlistVideos) as [i|] eqn:Hfind;
    [|apply random_sort_perm].
  apply findIndex_Some in Hfind as (x & Hx & _ & Hl).
  cbv zeta. rewrite Hx, random_sort_perm.
  rewrite Hl at 3. now rewrite Permutation_middle.
Qed.

(** X26.  Whatever order the random sort returns, the shuffled
    playlist is a permutation of the playlist; it is the playlist
    itself when shuffling is off, and starts with the current video
    when shuffling is on and the video is in the playlist.  The
    [playlist] parameter of the player lists each video once. *)
Theorem shuffled_playlist isShuffle playlistVideos videoId :
  let shuffled :=
    shuffledPlaylistVideos random_sort isShuffle playlistVideos videoId in
  shuffled ≡ₚ playlistVideos
  /\ (isShuffle = false -> shuffled = playlistVideos)
  /\ (isShuffle = true ->
      forall current,
        current ∈ playlistVideos -> videoId = Some (id current) ->
        exists first,
          head shuffled = Some first /\ id first = id current
          /\ first ∈ playlistVideos)
  /\ forall i d p ps playlist v vs isLoop,
       playlistVideos = v :: vs ->
       exists ids,
         ids ≡ₚ List.map id playlistVideos
         /\ (isShuffle = false -> ids = List.map id playlistVideos)
         /\ iframeSrc random_sort (Some (i :: d)) (Some (p :: ps))
              (Some playlist) playlistVideos isShuffle isLoop videoId
            = s_embed ++ (i :: d) ++ QUESTION
                :: (if p =? QUESTION then ps else p :: ps)
                ++ s_playlist ++ join StreamApi.s_comma ids
                ++ (if isLoop then s_loop1 else []).
Proof.
  intros shuffled.
  split; [apply shuffled_perm|]. split; [|split].
  - intros ->. reflexivity.
  - intros -> current Hcur ->. unfold shuffled, shuffledPlaylistVideos.
    rewrite bool_decide_false by (intros ->; now apply elem_of_nil in Hcur).
    simpl.
    destruct (findIndex _ playlistVideos) as [j|] eqn:Hfind.
    + apply findIndex_Some in Hfind as (x & Hx & Hp & _).
      rewrite Hx. exists x. split; [reflexivity|].
      apply bool_decide_eq_true in Hp. injection Hp as Hp.
      split; [exact Hp|]. eapply list_elem_of_lookup_2; eauto.
    + pose proof (findIndex_None _ _ Hfind current Hcur) as Hno.
      now apply bool_decide_eq_false in Hno.
  - intros i d p ps playlist v vs isLoop Hvs.
    exists (List.map id
              (if isShuffle then shuffled else playlistVideos)).
    split; [|split].
    + destruct isShuffle; [|reflexivity].
      change (id <$> shuffled ≡ₚ id <$> playlistVideos).
      unfold shuffled. now rewrite shuffled_perm.
    + intros ->. reflexivity.
    + unfold iframeSrc. rewrite Hvs at 1. cbv zeta.
      fold shuffled.
      destruct isLoop; rewrite <- ?app_assoc; simpl;
        rewrite <- ?app_assoc, ?app_nil_r; reflexivity.
Qed.

End PlayerFacts.

Lemma shuffled_playlist_witness :
  PlayerPage.shuffledPlaylistVideos (fun l => rev l) true two_songs
    (Some (utf16 "b"))
  ≡ₚ two_songs.
Proof.
  refine (proj1 (shuffled_playlist (fun l => rev l) _ true two_songs
                   (Some (utf16 "b")))).
  intros l. symmetry. apply Permutation_rev.
Defined.

Lemma code_units_app a b : code_units (a ++ b) <-> code_units a /\ code_units b.
Proof. unfold code_units. rewrite forallb_app. apply andb_true_iff. Qed.

Lemma skip_space_blank s : forallb is_js_space s = true -> skip_space s = [].
Proof.
  induction s as [|u s IH]; simpl; [reflexivity|].
  intros Hs. apply andb_true_iff in Hs as [-> Hs]. now apply IH.
Qed.

(** X27.  A query of white space only does nothing but prevent the
    submission.  Otherwise the trimmed query is added to the search
    history, and the page navigates to a URL whose query value holds
    only unreserved characters and percent escapes and decodes back to
    the trimmed query; a query with a surrogate outside a pair is
    added to the history and the navigation throws. *)
Theorem handleSearch_navigates searchQuery :
  code_units searchQuery ->
  let term := RatioMix.trim searchQuery in
  (forallb is_js_space searchQuery = true ->
   Header.handleSearch searchQuery = [Header.PreventDefault])
  /\ match term with
     | [] => Header.handleSearch searchQuery = [Header.PreventDefault]
     | _ =>
       if isWellFormed term then
         exists encoded,
           Header.handleSearch searchQuery
           = [Header.PreventDefault; Header.AddSearchTerm term;
              Header.Navigate (utf16 "/results?search_query=" ++ encoded)]
           /\ forallb is_query_safe encoded = true
           /\ decode_component encoded = term
       else
         Header.handleSearch searchQuery
         = [Header.PreventDefault; Header.AddSearchTerm term;
            Header.ThrowURIError]
     end.
Proof.
  intros Hunits term. split.
  - intros Hblank. unfold Header.handleSearch, RatioMix.trim.
    rewrite (skip_space_blank searchQuery Hblank). reflexivity.
  - assert (code_units term) as Hterm.
    { destruct (trim_substring searchQuery) as (a & b & Hq).
      rewrite Hq in Hunits. fold term in Hunits.
      now apply code_units_app in Hunits as [_ [Ht _]%code_units_app]. }
    pose proof (encodeURIComponent_spec term Hterm) as Henc.
    unfold Header.handleSearch. fold term.
    destruct term as [|u t]; [reflexivity|].
    destruct (encodeURIComponent (u :: t)) as [encoded|].
    + destruct Henc as (-> & Hsafe & Hdec). exists encoded.
      repeat split; assumption.
    + rewrite Henc. reflexivity.
Qed.

Lemma handleSearch_navigates_witness :
  exists encoded,
    Header.handleSearch (utf16 "  lo-fi ビート ")
    = [Header.PreventDefault; Header.AddSearchTerm (utf16 "lo-fi ビート");
       Header.Navigate (utf16 "/results?search_query=" ++ encoded)]
    /\ forallb is_query_safe encoded = true
    /\ decode_component encoded = utf16 "lo-fi ビート".
Proof.
  exact (proj2 (handleSearch_navigates (utf16 "  lo-fi ビート ") eq_refl)).
Defined.

(** ** The video card *)

Lemma startsWith_two_app x y u v c r :
  c <> y ->
  startsWith (u :: v ++ c :: r) [x; y] = startsWith (u :: v) [x; y].
Proof.
  intros Hc. simpl. destruct v as [|h v]; simpl; [|destruct v; reflexivity].
  destruct (N.eqb_spec y c) as [->|_]; [contradiction|].
  destruct (x =? u); reflexivity.
Qed.

Lemma includes_two_app x y v c r :
  c <> y ->
  includes (v ++ c :: r) [x; y]
  = includes v [x; y] || includes (c :: r) [x; y].
Proof.
  intros Hc. induction v as [|u v IH]; [reflexivity|].
  change (includes ((u :: v) ++ c :: r) [x; y])
    with (startsWith (u :: v ++ c :: r) [x; y]
          || includes (v ++ c :: r) [x; y]).
  rewrite startsWith_two_app by exact Hc. rewrite IH.
  change (includes (u :: v) [x; y])
    with (startsWith (u :: v) [x; y] || includes v [x; y]).
  now rewrite orb_assoc.
Qed.

Lemma includes_unknown_joined a b :
  includes (a ++ VideoCard.s_bullet ++ b) VideoCard.s_unknown
  = includes a VideoCard.s_unknown || includes b VideoCard.s_unknown.
Proof.
  unfold VideoCard.s_bullet, VideoCard.s_unknown.
  change ([32; 8226; 32] ++ b) with (32 :: 8226 :: 32 :: b).
  rewrite includes_two_app by discriminate. reflexivity.
Qed.

(** X28.  The line under the title of a card never shows an unknown
    view count: when the view count says 不明 the line is the upload
    date alone, and the line holds 不明 only if the upload date
    does. *)
Theorem metaLine_hides_unknown video :
  (includes (views video) VideoCard.s_unknown = true ->
   VideoCard.metaLine video = uploadedAt video)
  /\ (includes (VideoCard.metaLine video) VideoCard.s_unknown = true ->
      includes (uploadedAt video) VideoCard.s_unknown = true)
  /\ (includes (views video) VideoCard.s_unknown = false ->
      views video <> [] -> uploadedAt video <> [] ->
      VideoCard.metaLine video
      = views video ++ VideoCard.s_bullet ++ uploadedAt video).
Proof.
  unfold VideoCard.metaLine.
  destruct (includes (views video) VideoCard.s_unknown) eqn:Hviews.
  - assert (join VideoCard.s_bullet
              (List.filter (fun s => negb (bool_decide (s = [])))
                 [[]; uploadedAt video]) = uploadedAt video) as ->.
    { simpl. destruct (uploadedAt video); reflexivity. }
    repeat split; try tauto. discriminate.
  - split; [discriminate|].
    destruct (views video) as [|a w] eqn:Hv;
      destruct (uploadedAt video) as [|b u] eqn:Hu.
    + split; [tauto|]. intros _ Hne. now destruct Hne.
    + split; [tauto|]. intros _ Hne. now destruct Hne.
    + split; [|intros _ _ Hne; now destruct Hne].
      change (join VideoCard.s_bullet
                (List.filter (fun s => negb (bool_decide (s = [])))
                   [a :: w; []])) with (a :: w).
      congruence.
    + change (join VideoCard.s_bullet
                (List.filter (fun s => negb (bool_decide (s = [])))
                   [a :: w; b :: u]))
        with ((a :: w) ++ VideoCard.s_bullet ++ b :: u).
      split; [|reflexivity].
      rewrite includes_unknown_joined, Hviews. tauto.
Qed.

(** ** The channel page *)

Example browse_sample :
  (id ∘ ChannelPage.pv_video) <$>
    ChannelPage.videos (browse (Some (utf16 "UC1")) three_pages
                          videos_tab_opened)
  = utf16 <$> ["a"; "b"; "c"; "d"]%string.
Proof. vm_compute. reflexivity. Qed.

Section ChannelFacts.
Import ChannelPage.
Context {HomeData : Type}.
Implicit Types (st : @State HomeData) (p : VideosPage).

Lemma is_later_page_truthy (token : option jsstring) :
  is_later_page token = true -> truthy token = true.
Proof. unfold is_later_page. intros H. apply andb_prop in H. tauto. Qed.

Lemma first_page_not_later : is_later_page (Some s_page1) = false.
Proof. vm_compute. reflexivity. Qed.

(** A page loaded by [handleLoadMore] on the videos tab. *)
Lemma handleLoadMore_page channelId homeReply p st :
  truthy channelId = true ->
  activeTab st = videos_tab ->
  isFetchingMore st = false ->
  is_later_page (videosPageToken st) = true ->
  handleLoadMore channelId homeReply (Replied p) st =
  {| channelDetails := channelDetails st; isLoading := isLoading st;
     error := error st; activeTab := videos_tab; homeData := homeData st;
     videos := videos st ++ List.map (enrich (channelDetails st)) (vp_videos p);
     videosPageToken := nextPageToken p;
     isFetchingMore := false; isTabLoading := false |}.
Proof.
  intros Hid Htab Hfetch Hlater.
  unfold handleLoadMore, fetchTabData.
  rewrite Htab, Hfetch, (is_later_page_truthy _ Hlater), Hid, Hlater.
  unfold setIsFetchingMore, setIsTabLoading, setVideosPageToken, setVideos,
    setError; cbn.
  rewrite Htab. reflexivity.
Qed.

(** A page that failed to load by [handleLoadMore] on the videos tab. *)
Lemma handleLoadMore_failed channelId homeReply message st :
  truthy channelId = true ->
  activeTab st = videos_tab ->
  isFetchingMore st = false ->
  is_later_page (videosPageToken st) = true ->
  handleLoadMore channelId homeReply (Failed message) st =
  {| channelDetails := channelDetails st; isLoading := isLoading st;
     error := Some s_videos_failed; activeTab := videos_tab;
     homeData := homeData st; videos := videos st;
     videosPageToken := videosPageToken st;
     isFetchingMore := false; isTabLoading := false |}.
Proof.
  intros Hid Htab Hfetch Hlater.
  unfold handleLoadMore, fetchTabData.
  rewrite Htab, Hfetch, (is_later_page_truthy _ Hlater), Hid, Hlater.
  unfold setIsFetchingMore, setIsTabLoading, setVideosPageToken, setVideos,
    setError; cbn.
  rewrite Htab. reflexivity.
Qed.

Lemma scroll_pages channelId (init : list VideosPage) :
  forall p st,
    truthy channelId = true ->
    activeTab st = videos_tab ->
    isFetchingMore st = false ->
    is_later_page (videosPageToken st) = true ->
    Forall continues init ->
    scroll channelId (init ++ [p]) st =
    {| channelDetails := channelDetails st; isLoading := isLoading st;
       error := error st; activeTab := videos_tab; homeData := homeData st;
       videos := videos st
                 ++ List.map (enrich (channelDetails st))
                      (List.flat_map vp_videos (init ++ [p]));
       videosPageToken := nextPageToken p;
       isFetchingMore := false; isTabLoading := false |}.
Proof.
  induction init as [|q init IH]; intros p st Hid Htab Hfetch Hlater Hinit.
  - cbn [app scroll List.flat_map].
    rewrite handleLoadMore_page by assumption.
    rewrite List.app_nil_r. reflexivity.
  - apply Forall_cons_1 in Hinit as [Hq Hinit].
    cbn [app scroll List.flat_map].
    rewrite handleLoadMore_page by assumption.
    rewrite IH; try assumption; try reflexivity.
    cbn. rewrite List.map_app, <- List.app_assoc. reflexivity.
Qed.

Lemma enrich_channel details (d : ChannelDetails) (v : PageVideo) :
  details = Some d ->
  (cd_id d <> [] -> channelId (pv_video (enrich details v)) = cd_id d)
  /\ (cd_name d <> [] -> channelName (pv_video (enrich details v)) = cd_name d).
Proof.
  intros ->. cbn. split; intros H.
  - destruct (cd_id d); [congruence | reflexivity].
  - destruct (cd_name d); [congruence | reflexivity].
Qed.

(** X29. On the videos tab of a channel, opened with no video loaded and no
    request under way, the pages that come in one after the other, each but
    the last one giving the token of a later page, make up the list of
    videos: the videos of the pages in the order of the pages, each one with
    the id and the name of the channel where the details of the channel have
    them; the token is then that of the last page, no request is under way
    any more and the error of the page is as it was. *)
Theorem channel_videos_accumulate (channel : option jsstring)
    (init : list VideosPage) (p : VideosPage) st :
  truthy channel = true ->
  isLoading st = false ->
  activeTab st = videos_tab ->
  videos st = [] ->
  isFetchingMore st = false ->
  Forall continues init ->
  let st' := browse channel (init ++ [p]) st in
  videos st' =
    List.map (enrich (channelDetails st))
      (List.flat_map vp_videos (init ++ [p]))
  /\ (forall d, channelDetails st = Some d ->
        Forall (fun v =>
                  (cd_id d <> [] -> channelId (pv_video v) = cd_id d)
                  /\ (cd_name d <> [] -> channelName (pv_video v) = cd_name d))
          (videos st'))
  /\ videosPageToken st' = nextPageToken p
  /\ isFetchingMore st' = false
  /\ isTabLoading st' = false
  /\ error st' = error st.
Proof.
  intros Hid Hload Htab Hvideos Hfetch Hinit st'.
  assert (Hst' : st' =
    {| channelDetails := channelDetails st; isLoading := isLoading st;
       error := error st; activeTab := videos_tab; homeData := homeData st;
       videos := List.map (enrich (channelDetails st))
                   (List.flat_map vp_videos (init ++ [p]));
       videosPageToken := nextPageToken p;
       isFetchingMore := false; isTabLoading := false |}).
  { subst st'. unfold browse.
    assert (Hfirst : forall q,
      loadActiveTab channel (Failed []) (Replied q) st =
      {| channelDetails := channelDetails st; isLoading := isLoading st;
         error := error st; activeTab := videos_tab; homeData := homeData st;
         videos := List.map (enrich (channelDetails st)) (vp_videos q);
         videosPageToken := nextPageToken q;
         isFetchingMore := false; isTabLoading := false |}).
    { intros q. unfold loadActiveTab, fetchTabData.
      rewrite Hid, Htab, Hvideos, Hfetch, first_page_not_later, Hload.
      cbn [negb andb orb].
      unfold setIsFetchingMore, setIsTabLoading, setVideosPageToken,
        setVideos; cbn.
      rewrite Htab, ?Hload. reflexivity. }
    destruct init as [|q init].
    - cbn [app scroll List.flat_map]. rewrite Hfirst, List.app_nil_r.
      reflexivity.
    - apply Forall_cons_1 in Hinit as [Hq Hinit].
      cbn [app List.flat_map]. rewrite Hfirst.
      rewrite scroll_pages; try assumption; try reflexivity.
      cbn. rewrite List.map_app. reflexivity. }
  rewrite Hst'. cbn. repeat split.
  intros d Hd. apply Forall_forall. intros v Hv.
  apply list_elem_of_In, List.in_map_iff in Hv as (w & <- & _).
  exact (enrich_channel _ d w Hd).
Qed.


(** X30. A page that fails to load while scrolling down the videos tab
    leaves the videos and the token as they are, so that the next call
    of [handleLoadMore] asks for the same page again; when that one comes
    in, its videos follow the ones already there, but the error message of
    the failure is still set: loading a tab never clears it. *)
Theorem channel_page_retry (channelId : option jsstring) (message : jsstring)
    (homeReply homeReply' : reply HomeData) (p : VideosPage) st :
  truthy channelId = true ->
  activeTab st = videos_tab ->
  isFetchingMore st = false ->
  is_later_page (videosPageToken st) = true ->
  let failed := handleLoadMore channelId homeReply (Failed message) st in
  let st' := handleLoadMore channelId homeReply' (Replied p) failed in
  videos failed = videos st
  /\ videosPageToken failed = videosPageToken st
  /\ error failed = Some s_videos_failed
  /\ isFetchingMore failed = false
  /\ videos st' = videos st ++ List.map (enrich (channelDetails st)) (vp_videos p)
  /\ videosPageToken st' = nextPageToken p
  /\ error st' = Some s_videos_failed.
Proof.
  intros Hid Htab Hfetch Hlater failed st'. subst st' failed.
  rewrite (handleLoadMore_failed _ _ _ st) by assumption.
  rewrite handleLoadMore_page by (assumption || reflexivity).
  cbn. repeat split.
Qed.
End ChannelFacts.

Section ChannelWitnesses.
Import ChannelPage.

Lemma channel_videos_accumulate_witness :
  (id ∘ pv_video) <$>
    videos (browse (Some (utf16 "UC1")) three_pages videos_tab_opened)
  = utf16 <$> ["a"; "b"; "c"; "d"]%string
  /\ Forall (fun v => channelName (pv_video v) = utf16 "Lo-fi Ch")
       (videos (browse (Some (utf16 "UC1")) three_pages videos_tab_opened)).
Proof.
  pose proof (channel_videos_accumulate (Some (utf16 "UC1"))
                (take 2 three_pages)
                {| vp_videos := [bare_video "d"]; nextPageToken := None |}
                videos_tab_opened eq_refl eq_refl eq_refl eq_refl eq_refl)
    as H.
  assert (Hinit : Forall continues (take 2 three_pages)).
  { repeat constructor. }
  destruct (H Hinit) as (Hvideos & Hchannel & _).
  split.
  - vm_compute. reflexivity.
  - eapply Forall_impl; [exact (Hchannel a_channel eq_refl)|].
    intros v [_ Hname]. apply Hname. discriminate.
Defined.

Lemma channel_page_retry_witness :
  let failed :=
    handleLoadMore (Some (utf16 "UC1")) (Failed []) (Failed (utf16 "503"))
      one_page_loaded in
  videos failed = [bare_video "a"]
  /\ error
       (handleLoadMore (Some (utf16 "UC1")) (Failed [])
          (Replied {| vp_videos := [bare_video "b"]; nextPageToken := None |})
          failed)
     = Some s_videos_failed.
Proof.
  destruct (channel_page_retry (Some (utf16 "UC1")) (utf16 "503")
              (Failed []) (Failed [])
              {| vp_videos := [bare_video "b"]; nextPageToken := None |}
              one_page_loaded eq_refl eq_refl eq_refl eq_refl)
    as (Hv & _ & _ & _ & _ & _ & He).
  split; [exact Hv | exact He].
Defined.
End ChannelWitnesses.
